(** * The command history engine of pictode (plugin-history)

    A shallow embedding of the [History] class: two stacks of command
    objects, an identity counter, a capacity and an enabled flag, with the
    operations [execute], [undo], [redo] and [jump].

    Conventions of the embedding.
    - A JavaScript array is a list read from index 0: [push] appends at the
      tail, [pop] removes the tail, [shift] removes the head.
    - Command objects are mutable and shared: the stacks hold references
      ([CmdRef]) and the fields that [History] writes live in a store
      ([cmds]), so the same instance held twice is the same object.
    - Numbers are JavaScript numbers with an integer value, written as
      integers ([Z]). Ids and lengths stay far below [2^53], where the
      arithmetic of doubles is exact. The loop counter [step] is whatever
      the caller hands in, so its decrement [--step] is the subtraction of
      doubles, rounded to the nearest double ([js_dec]); [while (step)]
      runs while [step] is not 0.
    - A command's [execute()] and [undo()] act on the scene ([World]) and
      may raise; a raise leaves every earlier mutation in place.
    - Loops take fuel; running out of fuel is the outcome [Timeout]. *)

From stdpp Require Import gmap list sorting.
From Stdlib Require Import ZArith Lia.
From Stdlib Require Floats Uint63.

Local Open Scope Z_scope.

(** ** Data *)

(** Identity of a command object. *)
Abbreviation CmdRef := nat.

(** The fields of a [BaseCmd] object that [History] writes. *)
Record BaseCmd := mkCmd {
  id : option Z;
  executed : bool;
  executeTime : option Z
}.

(** A command object no [History] has stamped yet. *)
Definition unstamped : BaseCmd :=
  {| id := None; executed := false; executeTime := None |}.

(** Payloads handed to [app.emit]. The stacks are recorded with the
    contents they have when the event fires. *)
Inductive Event : Type :=
| StackChanged (undoStack redoStack : list CmdRef)
| HistoryUndo (step : Z) (command : option CmdRef)
| HistoryRedo (command : option CmdRef) (step : Z)
| HistoryDestroy.

(** ** Arrays *)

Section Arrays.
Context {A : Type}.

(** [Array.prototype.push] *)
Definition push (x : A) (l : list A) : list A := l ++ [x].

(** [Array.prototype.pop]: the removed tail (if any) and what is left. *)
Definition pop (l : list A) : option A * list A :=
  match reverse l with
  | [] => (None, l)
  | x :: r => (Some x, reverse r)
  end.

(** [Array.prototype.shift], the removed head being discarded. *)
Definition shift (l : list A) : list A := tail l.

(** [l[l.length - 1]], [undefined] on the empty array. *)
Definition top (l : list A) : option A := fst (pop l).
End Arrays.

(** ** Numbers *)

(** Up to [2^53] in size every integer is a double. *)
Definition max_exact_step : Z := 9007199254740992.

(** The integer [z] rounded to the nearest double, a tie going to the even
    significand (IEEE 754 binary64, the rounding of every JavaScript
    subtraction). Beyond [2^53] the doubles are the multiples of
    [ulp = 2^(log2 |z| - 52)] and [q] is a significand of 53 bits. The
    argument is one less than a double wherever the engine rounds, so the
    result never leaves the range of the finite doubles. *)
Definition round_double (z : Z) : Z :=
  let a := Z.abs z in
  if a <=? max_exact_step then z
  else
    let ulp := 2 ^ (Z.log2 a - 52) in
    let q := a / ulp in
    let r := a mod ulp in
    let q' :=
      if 2 * r <? ulp then q
      else if ulp <? 2 * r then q + 1
      else if Z.even q then q else q + 1 in
    Z.sgn z * (q' * ulp).

(** [--step] *)
Definition js_dec (step : Z) : Z := round_double (step - 1).
Arguments js_dec : simpl never.

(** The same decrement done by the machine's own doubles, to hold
    [js_dec] against: [double_of] is exact on the integers that are
    doubles below [2^63], and [double_value] reads an integer-valued double
    back. *)
Definition double_of (z : Z) : PrimFloat.float :=
  let f := PrimFloat.of_uint63 (Uint63.of_Z (Z.abs z)) in
  if z <? 0 then PrimFloat.opp f else f.

Definition double_value (f : PrimFloat.float) : option Z :=
  match FloatOps.Prim2SF f with
  | SpecFloat.S754_zero _ => Some 0
  | SpecFloat.S754_finite sign m e =>
      if e <? 0 then
        if Z.pos m mod 2 ^ (- e) =? 0
        then Some ((if sign then -1 else 1) * (Z.pos m / 2 ^ (- e)))
        else None
      else Some ((if sign then -1 else 1) * (Z.pos m * 2 ^ e))
  | _ => None
  end.

Definition machine_dec (z : Z) : option Z :=
  double_value (PrimFloat.sub (double_of z) (double_of 1)).

(** Doubles on both sides of [2^53], [2^54] and [-2^53]. *)
Definition sample_doubles : list Z :=
  [0; 1; 2; 3; 500; -1; -2; -500;
   9007199254740990; 9007199254740991; 9007199254740992; 9007199254740994;
   9007199254740996; 9007199254740998; 9007199254741000;
   18014398509481982; 18014398509481984; 18014398509481988;
   18014398509481992; 36028797018963968; 36028797018963976;
   1152921504606846976; 4611686018427387904;
   -9007199254740991; -9007199254740992; -9007199254740994;
   -9007199254740996; -9007199254740998; -18014398509481984;
   -18014398509481988; -4611686018427387904].

(** The number of turns that [while (step) { ...; --step }] takes from
    [step], if these are at most [fuel]. *)
Fixpoint loop_turns (fuel : nat) (step : Z) : option nat :=
  if step =? 0 then Some O
  else match fuel with
       | O => None
       | S fuel' => S <$> loop_turns fuel' (js_dec step)
       end.

(** ** The engine *)

Section History.
Context {World Exn : Type}.

(** What a call of a command method does to the scene. *)
Inductive Effect : Type :=
| Returns (w : World)
| Raises (e : Exn) (w : World).

(** [command.execute()] and [command.undo()] of the command classes. *)
Variable cmd_execute : CmdRef -> World -> Effect.
Variable cmd_undo : CmdRef -> World -> Effect.

Record State := mkState {
  enabled : bool;
  stackSize : Z;
  undoStack : list CmdRef;
  redoStack : list CmdRef;
  idCounter : Z;
  app : bool;                      (* [this.app] is set (after [install]) *)
  cmds : gmap CmdRef BaseCmd;      (* the command objects *)
  world : World;                   (* the scene the commands act on *)
  emitted : list Event             (* what [this.app] was sent, in order *)
}.

Definition set_enabled (b : bool) (s : State) : State :=
  mkState b (stackSize s) (undoStack s) (redoStack s) (idCounter s)
          (app s) (cmds s) (world s) (emitted s).
Definition set_stackSize (n : Z) (s : State) : State :=
  mkState (enabled s) n (undoStack s) (redoStack s) (idCounter s)
          (app s) (cmds s) (world s) (emitted s).
Definition set_undoStack (l : list CmdRef) (s : State) : State :=
  mkState (enabled s) (stackSize s) l (redoStack s) (idCounter s)
          (app s) (cmds s) (world s) (emitted s).
Definition set_redoStack (l : list CmdRef) (s : State) : State :=
  mkState (enabled s) (stackSize s) (undoStack s) l (idCounter s)
          (app s) (cmds s) (world s) (emitted s).
Definition set_idCounter (n : Z) (s : State) : State :=
  mkState (enabled s) (stackSize s) (undoStack s) (redoStack s) n
          (app s) (cmds s) (world s) (emitted s).
Definition set_app (b : bool) (s : State) : State :=
  mkState (enabled s) (stackSize s) (undoStack s) (redoStack s) (idCounter s)
          b (cmds s) (world s) (emitted s).
Definition set_cmds (m : gmap CmdRef BaseCmd) (s : State) : State :=
  mkState (enabled s) (stackSize s) (undoStack s) (redoStack s) (idCounter s)
          (app s) m (world s) (emitted s).
Definition set_world (w : World) (s : State) : State :=
  mkState (enabled s) (stackSize s) (undoStack s) (redoStack s) (idCounter s)
          (app s) (cmds s) w (emitted s).
Definition set_emitted (l : list Event) (s : State) : State :=
  mkState (enabled s) (stackSize s) (undoStack s) (redoStack s) (idCounter s)
          (app s) (cmds s) (world s) l.

(** *** Outcomes of a call *)

Inductive Res (A : Type) : Type :=
| Ok (a : A) (s : State)           (* returned [a] *)
| Throw (e : Exn) (s : State)      (* an exception reached the caller *)
| Timeout.                         (* still looping when the fuel ran out *)
Arguments Ok {A} a s.
Arguments Throw {A} e s.
Arguments Timeout {A}.

Definition M (A : Type) : Type := State -> Res A.

Definition ret {A} (a : A) : M A := fun s => Ok a s.
Definition bind {A B} (m : M A) (k : A -> M B) : M B :=
  fun s => match m s with
           | Ok a s' => k a s'
           | Throw e s' => Throw e s'
           | Timeout => Timeout
           end.
Definition get : M State := fun s => Ok s s.
Definition modify (f : State -> State) : M unit := fun s => Ok tt (f s).
Definition timeout {A} : M A := fun _ => Timeout.

Notation "'let*' x ':=' m 'in' k" := (bind m (fun x => k))
  (at level 10, x pattern, m at level 100, k at level 200).
Notation "m ';;' k" := (bind m (fun _ => k))
  (at level 100, k at level 200, right associativity).

(** [this.app?.emit(...)] *)
Definition note (e : Event) (s : State) : State :=
  if app s then set_emitted (emitted s ++ [e]) s else s.
Definition emit (e : Event) : M unit := modify (note e).

Definition emit_stack_changed : M unit :=
  let* s := get in emit (StackChanged (undoStack s) (redoStack s)).

(** Reading and writing the fields of a command object. *)
Definition cmd_of (s : State) (c : CmdRef) : BaseCmd :=
  default unstamped (cmds s !! c).
Definition cmd_id (s : State) (c : CmdRef) : option Z := id (cmd_of s c).

Definition write_id (c : CmdRef) (n : Z) (s : State) : State :=
  let o := cmd_of s c in
  set_cmds (<[c := mkCmd (Some n) (executed o) (executeTime o)]> (cmds s)) s.
Definition write_executed (c : CmdRef) (b : bool) (s : State) : State :=
  let o := cmd_of s c in
  set_cmds (<[c := mkCmd (id o) b (executeTime o)]> (cmds s)) s.
Definition write_executeTime (c : CmdRef) (t : Z) (s : State) : State :=
  let o := cmd_of s c in
  set_cmds (<[c := mkCmd (id o) (executed o) (Some t)]> (cmds s)) s.

(** Calling into a command: the scene changes, and a raise propagates. *)
Definition call (f : CmdRef -> World -> Effect) (c : CmdRef) : M unit :=
  fun s => match f c (world s) with
           | Returns w => Ok tt (set_world w s)
           | Raises e w => Throw e (set_world w s)
           end.

(** [id > command.id] and [id === command.id]; a missing id compares
    false both ways. *)
Definition js_gt (n : Z) (m : option Z) : bool :=
  match m with Some k => n >? k | None => false end.
Definition js_eq (n : Z) (m : option Z) : bool :=
  match m with Some k => n =? k | None => false end.

(** *** constructor, setStackSize, enable, disable, install

    The constructor is given the two options resolved; their defaults
    are [true] and [500]. *)

Definition new_History (enabled0 : bool) (stackSize0 : Z) (w : World) : State :=
  mkState enabled0 stackSize0 [] [] 0 false ∅ w [].

Definition setStackSize (size : Z) : M unit := modify (set_stackSize size).
Definition enable : M unit := modify (set_enabled true).
Definition disable : M unit := modify (set_enabled false).
Definition install : M unit := modify (set_app true).

(** *** execute *)

Definition execute (command : CmdRef) (needExecute : bool) (now : Z) : M unit :=
  let* s := get in
  (if Z.of_nat (length (undoStack s)) >? stackSize s
   then modify (fun s => set_undoStack (shift (undoStack s)) s)
   else ret tt);;
  modify (fun s => set_undoStack (push command (undoStack s)) s);;
  modify (fun s => write_id command (idCounter s + 1)
                     (set_idCounter (idCounter s + 1) s));;
  (if needExecute then call cmd_execute command else ret tt);;
  modify (write_executed command true);;
  modify (write_executeTime command now);;
  modify (set_redoStack []);;
  emit_stack_changed.

(** *** undo *)

(** One turn of the [while (step)] loop of [undo]. *)
Definition undo_body (step : Z) (command : option CmdRef)
  : M (Z * option CmdRef) :=
  let* s := get in
  let* command :=
    (if (0 <? length (undoStack s))%nat then
       let (popped, rest) := pop (undoStack s) in
       modify (set_undoStack rest);;
       match popped with
       | Some c =>
           call cmd_undo c;;
           modify (fun s => set_redoStack (push c (redoStack s)) s);;
           emit_stack_changed;;
           ret popped
       | None => ret popped
       end
     else ret command) in
  ret (js_dec step, command).

Fixpoint undo_loop (fuel : nat) (step : Z) (command : option CmdRef)
  : M (Z * option CmdRef) :=
  if step =? 0 then ret (step, command)
  else match fuel with
       | O => timeout
       | S fuel' =>
           let* (step', command') := undo_body step command in
           undo_loop fuel' step' command'
       end.

Definition undo (fuel : nat) (step : Z) : M (option CmdRef) :=
  let* s := get in
  if negb (enabled s) then ret None
  else
    let* (step', command) := undo_loop fuel step None in
    emit (HistoryUndo step' command);;
    ret command.

(** *** redo *)

Definition redo_body (step : Z) (command : option CmdRef)
  : M (Z * option CmdRef) :=
  let* s := get in
  let* command :=
    (if (0 <? length (redoStack s))%nat then
       let (popped, rest) := pop (redoStack s) in
       modify (set_redoStack rest);;
       match popped with
       | Some c =>
           call cmd_execute c;;
           modify (fun s => set_undoStack (push c (undoStack s)) s);;
           emit_stack_changed;;
           ret popped
       | None => ret popped
       end
     else ret command) in
  ret (js_dec step, command).

Fixpoint redo_loop (fuel : nat) (step : Z) (command : option CmdRef)
  : M (Z * option CmdRef) :=
  if step =? 0 then ret (step, command)
  else match fuel with
       | O => timeout
       | S fuel' =>
           let* (step', command') := redo_body step command in
           redo_loop fuel' step' command'
       end.

Definition redo (fuel : nat) (step : Z) : M (option CmdRef) :=
  let* s := get in
  if negb (enabled s) then ret None
  else
    let* (step', command) := redo_loop fuel step None in
    emit (HistoryRedo command step');;
    ret command.

Definition canUndo (s : State) : bool := (0 <? length (undoStack s))%nat.
Definition canRedo (s : State) : bool := (0 <? length (redoStack s))%nat.

(** *** jump *)

(** [while (command !== undefined && id > command.id) command = this.redo()] *)
Fixpoint jump_redo_loop (fuel : nat) (target : Z) (command : option CmdRef)
  : M unit :=
  let* s := get in
  match command with
  | None => ret tt
  | Some c =>
      if js_gt target (cmd_id s c) then
        match fuel with
        | O => timeout
        | S fuel' =>
            let* command' := redo (S fuel') 1 in
            jump_redo_loop fuel' target command'
        end
      else ret tt
  end.

(** [while (true) { command = top; if (...) break; this.undo() }] *)
Fixpoint jump_undo_loop (fuel : nat) (target : Z) : M unit :=
  let* s := get in
  match top (undoStack s) with
  | None => ret tt
  | Some c =>
      if js_eq target (cmd_id s c) then ret tt
      else match fuel with
           | O => timeout
           | S fuel' => undo (S fuel') 1;; jump_undo_loop fuel' target
           end
  end.

Definition jump (fuel : nat) (target : Z) : M unit :=
  let* s := get in
  if negb (enabled s) then ret tt
  else
    let command :=
      if (0 <? length (undoStack s))%nat then top (undoStack s) else None in
    (match command with
     | Some c =>
         if js_gt target (cmd_id s c) then
           let* command' := redo (S fuel) 1 in
           jump_redo_loop fuel target command'
         else jump_undo_loop fuel target
     | None =>
         let* command' := redo (S fuel) 1 in
         jump_redo_loop fuel target command'
     end);;
    emit_stack_changed.

Definition dispose : M unit :=
  modify (set_undoStack []);;
  modify (set_redoStack []);;
  emit_stack_changed;;
  emit HistoryDestroy.

Definition isEnabled (s : State) : bool := enabled s.

(** *** Sequences of calls *)

Inductive Call : Type :=
| CallExecute (command : CmdRef) (needExecute : bool) (now : Z)
| CallUndo (step : Z)
| CallRedo (step : Z)
| CallJump (target : Z)
| CallSetStackSize (size : Z)
| CallEnable
| CallDisable
| CallInstall
| CallDispose.

Definition perform (fuel : nat) (op : Call) : M unit :=
  match op with
  | CallExecute c b now => execute c b now
  | CallUndo step => undo fuel step;; ret tt
  | CallRedo step => redo fuel step;; ret tt
  | CallJump target => jump fuel target
  | CallSetStackSize n => setStackSize n
  | CallEnable => enable
  | CallDisable => disable
  | CallInstall => install
  | CallDispose => dispose
  end.

(** The calls of a list in order, as long as each one returns. *)
Fixpoint perform_all (fuel : nat) (ops : list Call) : M unit :=
  match ops with
  | [] => ret tt
  | op :: rest => perform fuel op;; perform_all fuel rest
  end.

(** The state a call leaves behind, whether it returned or raised. *)
Definition after {A} (r : Res A) : option State :=
  match r with
  | Ok _ s => Some s
  | Throw _ s => Some s
  | Timeout => None
  end.

Definition returned {A} (r : Res A) : bool :=
  match r with Ok _ _ => true | _ => false end.

(** [f] applied to the state a call leaves behind. *)
Definition on_state {A} (f : State -> State) (r : Res A) : Res A :=
  match r with
  | Ok a s => Ok a (f s)
  | Throw e s => Throw e (f s)
  | Timeout => Timeout
  end.

(** [n] turns of a loop body, one after the other. *)
Fixpoint turns (n : nat) (body : Z -> option CmdRef -> M (Z * option CmdRef))
         (step : Z) (command : option CmdRef) : M (Z * option CmdRef) :=
  match n with
  | O => ret (step, command)
  | S n' =>
      let* (step', command') := body step command in
      turns n' body step' command'
  end.

(** [n] calls of [m], one after the other. *)
Fixpoint times {A} (n : nat) (m : M A) : M unit :=
  match n with
  | O => ret tt
  | S n' => m;; times n' m
  end.

(** The state after one successful turn of [undo]: [c] was on top of
    [rest], its [undo()] left the scene [w]. *)
Definition undone (c : CmdRef) (rest : list CmdRef) (w : World) (s : State)
  : State :=
  let s1 := set_redoStack (push c (redoStack s))
              (set_world w (set_undoStack rest s)) in
  note (StackChanged (undoStack s1) (redoStack s1)) s1.

(** The same for [redo]. *)
Definition redone (c : CmdRef) (rest : list CmdRef) (w : World) (s : State)
  : State :=
  let s1 := set_undoStack (push c (undoStack s))
              (set_world w (set_redoStack rest s)) in
  note (StackChanged (undoStack s1) (redoStack s1)) s1.

Definition is_StackChanged (e : Event) : bool :=
  match e with StackChanged _ _ => true | _ => false end.

(** [undo()] and [redo()] with the default [step = 1] on an enabled
    engine, the loop unrolled. *)
Definition undo_once (s : State) : Res (option CmdRef) :=
  match pop (undoStack s) with
  | (Some c, rest) =>
      match cmd_undo c (world s) with
      | Returns w =>
          Ok (Some c) (note (HistoryUndo 0 (Some c)) (undone c rest w s))
      | Raises e w => Throw e (set_world w (set_undoStack rest s))
      end
  | (None, _) => Ok None (note (HistoryUndo 0 None) s)
  end.

Definition redo_once (s : State) : Res (option CmdRef) :=
  match pop (redoStack s) with
  | (Some c, rest) =>
      match cmd_execute c (world s) with
      | Returns w =>
          Ok (Some c) (note (HistoryRedo (Some c) 0) (redone c rest w s))
      | Raises e w => Throw e (set_world w (set_redoStack rest s))
      end
  | (None, _) => Ok None (note (HistoryRedo None 0) s)
  end.

(** *** Identities on the stacks *)

(** The ids of the commands of [l], as the objects carry them now. *)
Definition stack_ids (s : State) (l : list CmdRef) : list (option Z) :=
  map (cmd_id s) l.

(** [a < b] on ids that are both there. *)
Definition id_lt (a b : option Z) : Prop :=
  match a, b with
  | Some x, Some y => x < y
  | _, _ => False
  end.

(** Read from index 0, the ids of [undoStack] are strictly increasing. *)
Definition ids_increasing (s : State) : Prop :=
  StronglySorted id_lt (stack_ids s (undoStack s)).

(** No command object carries an id above the counter. *)
Definition ids_bounded (s : State) : Prop :=
  forall c k, cmd_id s c = Some k -> k <= idCounter s.

(** The commands of both stacks in the order they were applied:
    [undoStack] from index 0, then [redoStack] from its top down. *)
Definition chain (s : State) : list CmdRef :=
  undoStack s ++ reverse (redoStack s).

(** Along the chain the ids are there and strictly increasing, and no
    command object carries an id above the counter. *)
Definition well_numbered (s : State) : Prop :=
  StronglySorted id_lt (stack_ids s (chain s)) /\
  (forall c, c ∈ chain s -> is_Some (cmd_id s c)) /\
  ids_bounded s.

(** From [s] to [s'] no command object and no counter was written and
    the chain lost commands at most. *)
Definition shrinks (s s' : State) : Prop :=
  cmds s' = cmds s /\ idCounter s' = idCounter s /\
  chain s' `sublist_of` chain s.

Definition Shrinking {A} (m : M A) : Prop :=
  forall s s', after (m s) = Some s' -> shrinks s s'.

(** States reached from a new engine by calls that [allowed] lets
    through; a call that raised still leaves its state behind. *)
Inductive run (allowed : State -> Call -> Res unit -> Prop) : State -> Prop :=
| run_new enabled0 stackSize0 w :
    run allowed (new_History enabled0 stackSize0 w)
| run_call s fuel op s' :
    run allowed s ->
    allowed s op (perform fuel op s) ->
    after (perform fuel op s) = Some s' ->
    run allowed s'.

(** Any call at all. *)
Definition any_call (s : State) (op : Call) (r : Res unit) : Prop := True.

(** [execute] is handed a command that [undoStack] does not hold, and
    returns. *)
Definition fresh_execute (s : State) (op : Call) (r : Res unit) : Prop :=
  match op with
  | CallExecute c _ _ => (c ∉ undoStack s) /\ returned r = true
  | _ => True
  end.

(** The calls [ops] in order from [s], checking before each [execute]
    that its command is not on [undoStack]; the state reached if every
    call passed the check and returned. *)
Fixpoint checked_run (fuel : nat) (ops : list Call) (s : State)
  : option State :=
  match ops with
  | [] => Some s
  | op :: rest =>
      let fresh :=
        match op with
        | CallExecute c _ _ => bool_decide (c ∉ undoStack s)
        | _ => true
        end in
      match perform fuel op s with
      | Ok _ s' => if fresh then checked_run fuel rest s' else None
      | _ => None
      end
  end.

(** *** The walk of [jump], as the specification words it *)

(** Number of single-step [redo] calls "until the new top's id is at
    least [target] or [redoStack] is exhausted"; [pending] are the ids on
    [redoStack] from its top down. The call that finds the stack
    exhausted counts. An id is "at least [target]" when [target > id]
    is false. *)
Fixpoint redo_calls (target : Z) (pending : list (option Z)) : nat :=
  match pending with
  | [] => 1
  | k :: rest =>
      if js_gt target k then S (redo_calls target rest) else 1
  end.

(** Number of single-step [undo] calls "until the top of [undoStack] has
    id exactly [target], or the stack is exhausted"; [applied] are the ids
    on [undoStack] from its top down. *)
Fixpoint undo_calls (target : Z) (applied : list (option Z)) : nat :=
  match applied with
  | [] => 0
  | k :: rest =>
      if js_eq target k then 0 else S (undo_calls target rest)
  end.

Definition jump_spec (target : Z) : M unit :=
  let* s := get in
  (match top (undoStack s) with
   | Some c =>
       if js_gt target (cmd_id s c)
       then times (redo_calls target (stack_ids s (reverse (redoStack s))))
                  (redo 1 1)
       else times (undo_calls target (stack_ids s (reverse (undoStack s))))
                  (undo 1 1)
   | None =>
       times (redo_calls target (stack_ids s (reverse (redoStack s))))
             (redo 1 1)
   end);;
  emit_stack_changed.

(** *** Readings of the specification that the engine is checked against *)

(** The requested steps that found [undoStack] empty. *)
Definition unsatisfied_steps (step : Z) (s : State) : Z :=
  Z.max 0 (step - Z.of_nat (length (undoStack s))).

(** "The 'history:undo' notification carries the number of requested
    steps that could not be satisfied, together with the last command." *)
Definition reports_unsatisfied_steps (fuel : nat) (step : Z) (s : State)
  : Prop :=
  forall command s',
    undo fuel step s = Ok command s' ->
    last (emitted s') = Some (HistoryUndo (unsatisfied_steps step s) command).

(** "After every call [execute(c, needExecute)], [redoStack] is empty":
    whatever state the call leaves behind, returning or not. *)
Definition redoStack_empty_after_execute
    (c : CmdRef) (needExecute : bool) (now : Z) (s : State) : Prop :=
  forall s', after (execute c needExecute now s) = Some s' -> redoStack s' = [].

(** "For every integer [step >= 0], [undo(step)] and [redo(step)]
    terminate": some number of turns brings each loop to its end. *)
Definition loops_terminate (step : Z) (s : State) : Prop :=
  0 <= step ->
  exists fuel,
    undo_loop fuel step None s <> Timeout /\
    redo_loop fuel step None s <> Timeout.

(** [execute()] and [undo()] of command [c] cancel each other, on every
    scene and in both orders. *)
Definition true_inverses (c : CmdRef) : Prop :=
  forall w,
    (exists w', cmd_undo c w = Returns w' /\ cmd_execute c w' = Returns w) /\
    (exists w', cmd_execute c w = Returns w' /\ cmd_undo c w' = Returns w).

(** "[undo()] immediately followed by [redo()] restores [undoStack]." *)
Definition undo_redo_restores (fuel : nat) (s : State) : Prop :=
  (forall c, c ∈ undoStack s ++ redoStack s -> true_inverses c) ->
  forall r1 s1 r2 s2,
    undo fuel 1 s = Ok r1 s1 ->
    redo fuel 1 s1 = Ok r2 s2 ->
    undoStack s2 = undoStack s.

(** "After each [execute], the length of [undoStack] is at most
    [stackSize]." *)
Definition within_capacity (s : State) : Prop :=
  Z.of_nat (length (undoStack s)) <= stackSize s.

(** The [undoStack] that [execute] builds: one [shift] if the length
    exceeds [stackSize], then the [push]. *)
Definition undoStack_after_execute (s : State) (c : CmdRef) : list CmdRef :=
  push c (if Z.of_nat (length (undoStack s)) >? stackSize s
          then shift (undoStack s) else undoStack s).

(** *** Notions for the properties of whole sessions *)

(** Whatever state a call of [m] leaves behind is [R]-related to the one
    it started from. *)
Definition Along (R : State -> State -> Prop) {A} (m : M A) : Prop :=
  forall s s', after (m s) = Some s' -> R s s'.

(** The capacity, the gate and the host are as before, and what was sent
    to the host is still there, with more after it at most. *)
Definition settings_kept (s s' : State) : Prop :=
  stackSize s' = stackSize s /\ enabled s' = enabled s /\ app s' = app s /\
  emitted s `prefix_of` emitted s'.

Definition is_execute (op : Call) : bool :=
  match op with CallExecute _ _ _ => true | _ => false end.

(** How many of the calls are calls of [execute]. *)
Fixpoint executes (ops : list Call) : nat :=
  match ops with
  | [] => O
  | op :: rest => ((if is_execute op then 1 else 0) + executes rest)%nat
  end.

(** One [execute] call per command of [cs], in order. *)
Definition execute_each (needExecute : bool) (now : Z) (cs : list CmdRef)
  : list Call :=
  map (fun c => CallExecute c needExecute now) cs.

(** The calls that only write a setting of the engine. *)
Definition is_setter (op : Call) : bool :=
  match op with
  | CallSetStackSize _ | CallEnable | CallDisable | CallInstall => true
  | _ => false
  end.

Definition is_setStackSize (op : Call) : bool :=
  match op with CallSetStackSize _ => true | _ => false end.

(** Sessions in which every [execute] returns and [setStackSize] is not
    called. *)
Definition capacity_fixed (s : State) (op : Call) (r : Res unit) : Prop :=
  match op with
  | CallExecute _ _ _ => returned r = true
  | CallSetStackSize _ => False
  | _ => True
  end.

End History.

Arguments Ok {World Exn A} a s.
Arguments Throw {World Exn A} e s.
Arguments Timeout {World Exn A}.

(** ** A small scene to run the engine on

    The scene is summed up in one number. Executing command [c] adds [c]
    to it and undoing [c] subtracts [c] again, so the two are inverse to
    each other; only command 13 raises when executed and command 17 when
    undone. *)

Module Demo.
Definition World : Type := Z.
Definition Exn : Type := nat.

Definition cmd_execute (c : CmdRef) (w : World) : @Effect World Exn :=
  if (c =? 13)%nat then Raises c w else Returns (w + Z.of_nat c).

Definition cmd_undo (c : CmdRef) (w : World) : @Effect World Exn :=
  if (c =? 17)%nat then Raises c w else Returns (w - Z.of_nat c).

(** A new engine of capacity 3 on the empty scene. *)
Definition fresh : @State World := new_History true 3 0.

(** The host is installed and four commands A, B, C, D are applied. *)
Definition abcd : list Call :=
  [CallInstall; CallExecute 1 true 0; CallExecute 2 true 0;
   CallExecute 3 true 0; CallExecute 4 true 0].

(** The state the calls [ops] lead to from [s] (and [s] itself if one
    of them did not return). *)
Definition state_after (ops : list Call) (s : @State World) : @State World :=
  match perform_all cmd_execute cmd_undo 8 ops s with
  | Ok _ s' => s'
  | _ => s
  end.

(** A, B, C, D applied. *)
Definition applied : @State World := state_after abcd fresh.

(** Then D and C undone: [undoStack = [A, B]], [redoStack = [D, C]]. *)
Definition halfway : @State World :=
  state_after (abcd ++ [CallUndo 2]) fresh.

(** One command applied and undone again: [undoStack = []],
    [redoStack = [A]]. *)
Definition all_undone : @State World :=
  state_after [CallInstall; CallExecute 1 true 0; CallUndo 1] fresh.

(** The same command object handed to [execute] twice. *)
Definition twice : @State World :=
  state_after [CallExecute 1 true 0; CallExecute 1 true 0] fresh.



(** A longer session: undo two, apply a fifth command, jump back. *)
Definition session : list Call :=
  abcd ++ [CallUndo 2; CallExecute 5 true 0; CallJump 1; CallRedo 1].

(** D and C undone and applied again. *)
Definition back : @State World :=
  state_after (abcd ++ [CallUndo 2; CallRedo 2]) fresh.

(** ... and undone once more. *)
Definition back_and_forth : @State World :=
  state_after (abcd ++ [CallUndo 2; CallRedo 2; CallUndo 2]) fresh.

(** D and C undone, then [jump(4)]. *)
Definition landed : @State World :=
  state_after (abcd ++ [CallUndo 2; CallJump 4]) fresh.

(** D and C undone, then [jump(100)]. *)
Definition far : @State World :=
  state_after (abcd ++ [CallUndo 2; CallJump 100]) fresh.

(** D and C undone, then a ninth command applied. *)
Definition branched : @State World :=
  state_after (abcd ++ [CallUndo 2; CallExecute 9 true 0]) fresh.

(** Six commands in a row on capacity 3: the first two are evicted. *)
Definition six : list CmdRef := [1; 2; 3; 4; 5; 6]%nat.

Definition six_applied : @State World :=
  state_after (execute_each true 0 six) fresh.

(** ... then [jump(1)], to a command that is gone. *)
Definition six_undone : @State World :=
  state_after (execute_each true 0 six ++ [CallJump 1]) fresh.
End Demo.

(** ** The selection service (services/selector.ts)

    [Selector] keeps the selected children in a [Map] from [child.id()] to
    the child, hands the selection to a transformer and switches the
    [draggable] flag of the children. A child is an object reference; its
    [id()] is what the node carries and the service never changes it. The
    [Map] is a list of entries in insertion order, as JavaScript iterates
    it. Rendering calls have no state of their own here. *)

Module Selector.

(** A child node, by identity. *)
Abbreviation Child := nat.

Section Model.
Context {Key : Type} `{EqDecision Key}.

(** [child.id()] *)
Variable child_id : Child -> Key.

(** [Map.prototype.set]: an entry with the key keeps its place and gets
    the new value, a new key goes to the end. *)
Fixpoint map_set (k : Key) (v : Child) (m : list (Key * Child))
  : list (Key * Child) :=
  match m with
  | [] => [(k, v)]
  | (k', v') :: rest =>
      if decide (k' = k) then (k', v) :: rest else (k', v') :: map_set k v rest
  end.

(** [Map.prototype.delete] *)
Definition map_delete (k : Key) (m : list (Key * Child)) : list (Key * Child) :=
  filter (fun e => e.1 <> k) m.

(** [Map.prototype.get] and [has] *)
Fixpoint map_get (k : Key) (m : list (Key * Child)) : option Child :=
  match m with
  | [] => None
  | (k', v) :: rest => if decide (k' = k) then Some v else map_get k rest
  end.

Definition map_has (k : Key) (m : list (Key * Child)) : bool :=
  match map_get k m with Some _ => true | None => false end.

(** [[...map.values()]] *)
Definition map_values (m : list (Key * Child)) : list Child := m.*2.

Record State := mkState {
  selected : list (Key * Child);
  enable : bool;
  rubberEnable : bool;
  nodes : list Child;               (* what [transformer.nodes(...)] was given *)
  draggable : gmap Child bool       (* the flag written by [child.draggable(b)] *)
}.

Definition set_selected (m : list (Key * Child)) (s : State) : State :=
  mkState m (enable s) (rubberEnable s) (nodes s) (draggable s).
Definition set_enable (b : bool) (s : State) : State :=
  mkState (selected s) b (rubberEnable s) (nodes s) (draggable s).
Definition set_rubberEnable (b : bool) (s : State) : State :=
  mkState (selected s) (enable s) b (nodes s) (draggable s).
Definition set_nodes (l : list Child) (s : State) : State :=
  mkState (selected s) (enable s) (rubberEnable s) l (draggable s).
Definition set_draggable (c : Child) (b : bool) (s : State) : State :=
  mkState (selected s) (enable s) (rubberEnable s) (nodes s)
          (<[c := b]> (draggable s)).

(** The service right after its constructor. *)
Definition new_Selector : State := mkState [] false false [] ∅.

Definition cancelSelect (children : list Child) (s : State) : State :=
  let children :=
    if (length children =? 0)%nat then map_values (selected s) else children in
  (* children.map((child) => { child.draggable(false); return child.id() }) *)
  let s1 := foldl (fun s child => set_draggable child false s) s children in
  let removed := child_id <$> children in
  (* removed.forEach((id) => this.selected.delete(id)) *)
  let s2 :=
    foldl (fun s k => set_selected (map_delete k (selected s)) s) s1 removed in
  set_nodes (map_values (selected s2)) s2.

Definition select (children : list Child) (s : State) : State :=
  if negb (enable s) then s
  else
    let s1 := cancelSelect [] s in
    let s2 :=
      foldl (fun s child =>
               set_selected (map_set (child_id child) child (selected s))
                            (set_draggable child true s))
            s1 children in
    set_nodes children s2.

Definition triggerSelector (enable0 : option bool) (s : State) : State :=
  let s1 :=
    match enable0 with
    | None => set_enable (negb (enable s)) s
    | Some b => set_enable b s
    end in
  if negb (enable s1) then set_rubberEnable false s1 else s1.

Definition isSelected (child : Child) (s : State) : bool :=
  map_has (child_id child) (selected s).

(** *** What holds of the service in every state it gets into *)

Inductive Call : Type :=
| CallSelect (children : list Child)
| CallCancelSelect (children : list Child)
| CallTriggerSelector (enable0 : option bool).

Definition perform (op : Call) (s : State) : State :=
  match op with
  | CallSelect children => select children s
  | CallCancelSelect children => cancelSelect children s
  | CallTriggerSelector e => triggerSelector e s
  end.

Definition perform_all (ops : list Call) (s : State) : State :=
  foldl (fun s op => perform op s) s ops.

(** Every entry is filed under the id of its child, no id is filed twice,
    and every selected child is draggable and among the transformer's
    nodes. *)
Definition consistent (s : State) : Prop :=
  NoDup (selected s).*1 /\
  (forall k c, (k, c) ∈ selected s ->
     k = child_id c /\ draggable s !! c = Some true /\ c ∈ nodes s).

(** The last child of [children] whose id is [k]. *)
Definition last_with_id (k : Key) (children : list Child) : option Child :=
  last (filter (fun c => child_id c = k) children).

End Model.
End Selector.

(** A selector whose children 1 and 11 carry the same id. *)
Module SelectorDemo.
Definition child_id (c : Selector.Child) : nat := (c mod 10)%nat.

(** The selector is switched on and three children are selected. *)
Definition picked : list Selector.Call :=
  [Selector.CallTriggerSelector None; Selector.CallSelect [1; 2; 11]%nat].

Definition some_selected : @Selector.State nat :=
  Selector.perform_all child_id picked Selector.new_Selector.
End SelectorDemo.

(** ** Areas (App.isPointInArea, App.haveIntersection)

    The two tests only add and compare numbers, so they are stated over any
    numbers with an addition and a comparison [leb] for [<=]; [a >= b] is
    [b <= a]. *)

Module Area.
Section Model.
Context {Num : Type}.
Variable add : Num -> Num -> Num.
Variable leb : Num -> Num -> bool.

Record Point := mkPoint { px : Num; py : Num }.
Record Rect := mkRect { x : Num; y : Num; width : Num; height : Num }.

Definition isPointInArea (point : Point) (area : Rect) : bool :=
  leb (x area) (px point) && leb (px point) (add (x area) (width area)) &&
  leb (y area) (py point) && leb (py point) (add (y area) (height area)).

(** [haveIntersection(shape1, shape2)] on the client rectangles [r1] and
    [r2] of the two shapes. *)
Definition haveIntersection (r1 r2 : Rect) : bool :=
  let topLeftContained := leb (x r1) (x r2) && leb (y r1) (y r2) in
  let topRightContained :=
    leb (add (x r2) (width r2)) (add (x r1) (width r1)) && leb (y r1) (y r2) in
  let bottomLeftContained :=
    leb (x r1) (x r2) && leb (add (y r2) (height r2)) (add (y r1) (height r1)) in
  let bottomRightContained :=
    leb (add (x r2) (width r2)) (add (x r1) (width r1)) &&
    leb (add (y r2) (height r2)) (add (y r1) (height r1)) in
  topLeftContained && topRightContained && bottomLeftContained &&
  bottomRightContained.

End Model.
End Area.

(** Rectangles with whole-number coordinates. *)
Module AreaDemo.
Definition stage : @Area.Rect Z := Area.mkRect 0 0 100 100.
Definition panel : @Area.Rect Z := Area.mkRect 10 10 50 50.
Definition button : @Area.Rect Z := Area.mkRect 20 20 10 10.
Definition corner : @Area.Point Z := Area.mkPoint 30 30.
End AreaDemo.

(** ** Numbers: the decrement of a double *)

Lemma max_exact_step_pow : max_exact_step = 2 ^ 53.
Proof. reflexivity. Qed.

Lemma round_double_exact z :
  - max_exact_step <= z <= max_exact_step -> round_double z = z.
Proof.
  intros H. unfold round_double.
  destruct (Z.leb_spec (Z.abs z) max_exact_step); [reflexivity|lia].
Qed.

Lemma js_dec_exact step :
  - max_exact_step < step <= max_exact_step -> js_dec step = step - 1.
Proof. intros H. unfold js_dec. apply round_double_exact. lia. Qed.

(** Above [2^53] the result is a multiple of the spacing, at least the
    multiple just below. *)
Lemma round_double_large z :
  max_exact_step < Z.abs z ->
  exists q' ulp,
    round_double z = Z.sgn z * (q' * ulp) /\
    ulp = 2 ^ (Z.log2 (Z.abs z) - 52) /\
    53 <= Z.log2 (Z.abs z) /\
    2 ^ 52 * ulp <= Z.abs z /\
    (q' = Z.abs z / ulp \/ q' = Z.abs z / ulp + 1) /\
    2 ^ 52 <= Z.abs z / ulp /\
    (q' = Z.abs z / ulp ->
     2 * (Z.abs z mod ulp) < ulp \/
     2 * (Z.abs z mod ulp) = ulp /\ Z.even (Z.abs z / ulp) = true) /\
    (q' = Z.abs z / ulp + 1 -> ulp <= 2 * (Z.abs z mod ulp)).
Proof.
  intros H. unfold round_double.
  destruct (Z.leb_spec (Z.abs z) max_exact_step) as [|_]; [lia|].
  set (a := Z.abs z) in *.
  assert (Hl : 53 <= Z.log2 a).
  { change 53 with (Z.log2 (2 ^ 53)). apply Z.log2_le_mono.
    rewrite <- max_exact_step_pow. lia. }
  set (ulp := 2 ^ (Z.log2 a - 52)).
  assert (Hu : 0 < ulp) by (apply Z.pow_pos_nonneg; lia).
  assert (Hp : 2 ^ 52 * ulp = 2 ^ Z.log2 a).
  { unfold ulp. rewrite <- Z.pow_add_r by lia. f_equal. lia. }
  assert (Ha : 2 ^ 52 * ulp <= a).
  { rewrite Hp. apply Z.log2_spec. unfold max_exact_step in H. lia. }
  assert (Hq : 2 ^ 52 <= a / ulp).
  { apply Z.div_le_lower_bound; [assumption|lia]. }
  cbv zeta.
  destruct (Z.ltb_spec (2 * (a mod ulp)) ulp) as [H1|H1];
    [|destruct (Z.ltb_spec ulp (2 * (a mod ulp))) as [H2|H2];
      [|destruct (Z.even (a / ulp)) eqn:E]].
  all: eexists _, ulp; split; [reflexivity|].
  all: repeat split; try first [reflexivity | assumption | lia].
  all: intros _; first [left; lia | right; split; [lia|assumption]].
Qed.

Lemma js_dec_negative step : step < 0 -> js_dec step < 0.
Proof.
  intros H. unfold js_dec.
  destruct (Z.le_gt_cases (Z.abs (step - 1)) max_exact_step) as [Hs|Hl].
  - rewrite round_double_exact by lia. lia.
  - destruct (round_double_large _ Hl)
      as (q' & ulp & -> & Hu & Hl53 & Ha & Hq' & Hq & _).
    assert (0 < ulp) by (subst ulp; apply Z.pow_pos_nonneg; lia).
    rewrite Z.sgn_neg by lia.
    assert (0 < q' * ulp); [|lia].
    apply Z.mul_pos_pos; lia.
Qed.

(** From [2^53 + 4] on the decrement never gets below [2^53 + 4]. *)
Lemma js_dec_stuck step :
  max_exact_step + 4 <= step -> max_exact_step + 4 <= js_dec step.
Proof.
  intros H. unfold js_dec.
  assert (Hy : max_exact_step < Z.abs (step - 1)) by lia.
  destruct (round_double_large _ Hy)
    as (q' & ulp & -> & Hu & Hl53 & Ha & Hq' & Hq & Hdown & Hup).
  assert (Eabs : Z.abs (step - 1) = step - 1)
    by (unfold max_exact_step in H; lia).
  rewrite Eabs in Hu, Hl53, Ha, Hq', Hq, Hdown, Hup. clear Eabs Hy.
  rewrite Z.sgn_pos by lia. rewrite Z.mul_1_l.
  assert (Hpos : 0 < ulp) by (subst ulp; apply Z.pow_pos_nonneg; lia).
  destruct (Z.eq_dec (Z.log2 (step - 1)) 53) as [E|E].
  - rewrite E in Hu. change (2 ^ (53 - 52)) with 2 in Hu. subst ulp.
    pose proof (Z.div_mod (step - 1) 2 ltac:(lia)) as Hd.
    pose proof (Z.mod_pos_bound (step - 1) 2 ltac:(lia)) as Hm.
    unfold max_exact_step in *.
    destruct Hq' as [-> | ->].
    + destruct (Hdown eq_refl) as [Hr|[Hr He]].
      * lia.
      * apply Z.even_spec in He as [k Hk]. lia.
    + specialize (Hup eq_refl). lia.
  - assert (Hl54 : 54 <= Z.log2 (step - 1)) by lia.
    assert (Hu4 : 2 ^ 54 <= 2 ^ 52 * ulp).
    { subst ulp. rewrite <- Z.pow_add_r by lia.
      apply Z.pow_le_mono_r; lia. }
    assert (2 ^ 52 * ulp <= q' * ulp).
    { apply Z.mul_le_mono_nonneg_r; lia. }
    unfold max_exact_step. change (2 ^ 54) with 18014398509481984 in Hu4. lia.
Qed.

Lemma js_dec_cases step :
  0 < step ->
  0 <= js_dec step <= step - 1 \/ max_exact_step + 4 <= step.
Proof.
  intros H.
  destruct (Z.le_gt_cases step max_exact_step) as [H1|H1].
  - left. rewrite js_dec_exact by (unfold max_exact_step in *; lia). lia.
  - unfold max_exact_step in *.
    assert (Hc : step = 9007199254740993 \/ step = 9007199254740994 \/
                 step = 9007199254740995 \/ 9007199254740996 <= step) by lia.
    destruct Hc as [->|[->|[->|Hc]]]; [left|left|left|right; lia];
      vm_compute; split; discriminate.
Qed.

Lemma loop_turns_stuck fuel step :
  max_exact_step + 4 <= step -> loop_turns fuel step = None.
Proof.
  revert step. induction fuel as [|fuel IH]; intros step H; simpl;
    destruct (Z.eqb_spec step 0) as [->|_]; try (unfold max_exact_step in H; lia);
    [reflexivity|].
  now rewrite IH by now apply js_dec_stuck.
Qed.

Lemma loop_turns_negative fuel step : step < 0 -> loop_turns fuel step = None.
Proof.
  revert step. induction fuel as [|fuel IH]; intros step H; simpl;
    destruct (Z.eqb_spec step 0) as [->|_]; try lia; [reflexivity|].
  now rewrite IH by now apply js_dec_negative.
Qed.

Lemma loop_turns_le fuel step n :
  0 <= step -> loop_turns fuel step = Some n -> (n <= Z.to_nat step)%nat.
Proof.
  revert step n. induction fuel as [|fuel IH]; intros step n Hs; simpl;
    destruct (Z.eqb_spec step 0) as [->|Hne]; try (intros [= <-]; lia);
    try discriminate.
  destruct (js_dec_cases step ltac:(lia)) as [Hd|Hd].
  - destruct (loop_turns fuel (js_dec step)) as [n'|] eqn:E; [|discriminate].
    intros [= <-]. apply IH in E; lia.
  - now rewrite loop_turns_stuck by now apply js_dec_stuck.
Qed.

Lemma loop_turns_exact fuel step :
  0 <= step <= max_exact_step -> (Z.to_nat step <= fuel)%nat ->
  loop_turns fuel step = Some (Z.to_nat step).
Proof.
  revert step. induction fuel as [|fuel IH]; intros step Hs Hf; simpl;
    destruct (Z.eqb_spec step 0) as [->|Hne]; try reflexivity; try lia.
  rewrite js_dec_exact by (unfold max_exact_step in *; lia).
  rewrite IH by lia. simpl. f_equal. lia.
Qed.

Lemma js_dec_1 : js_dec 1 = 0.
Proof. reflexivity. Qed.

(** On the samples [js_dec] is the decrement of the machine's doubles. *)
Lemma sample_doubles_are_doubles :
  Forall (fun z => double_value (double_of z) = Some z) sample_doubles.
Proof. repeat constructor. Qed.

Lemma js_dec_is_the_machine_decrement :
  Forall (fun z => machine_dec z = Some (js_dec z)) sample_doubles.
Proof. repeat constructor. Qed.

(** ** Arrays: basic facts *)

Section ArrayFacts.
Context {A : Type}.
Implicit Types (l : list A) (x : A).

Lemma pop_nil : pop (@nil A) = (None, []).
Proof. reflexivity. Qed.

Lemma pop_push x l : pop (push x l) = (Some x, l).
Proof.
  unfold pop, push. rewrite reverse_app. simpl.
  now rewrite reverse_involutive.
Qed.

Lemma top_nil : top (@nil A) = None.
Proof. reflexivity. Qed.

Lemma top_push x l : top (push x l) = Some x.
Proof. unfold top. now rewrite pop_push. Qed.

Lemma snoc_cases l : l = [] \/ exists l' x, l = push x l'.
Proof.
  destruct (reverse l) as [|x r] eqn:E.
  - left. apply (f_equal reverse) in E.
    now rewrite reverse_involutive in E.
  - right. exists (reverse r), x. apply (f_equal reverse) in E.
    rewrite reverse_involutive in E. rewrite E.
    unfold push. now rewrite reverse_cons.
Qed.

Lemma push_length x l : length (push x l) = S (length l).
Proof. unfold push. rewrite length_app. simpl. lia. Qed.

Lemma top_None l : top l = None -> l = [].
Proof.
  destruct (snoc_cases l) as [->|(l' & x & ->)]; [easy|].
  now rewrite top_push.
Qed.

Lemma top_Some l x : top l = Some x -> exists l', l = push x l'.
Proof.
  destruct (snoc_cases l) as [->|(l' & y & ->)]; [easy|].
  rewrite top_push. intros [= ->]. now exists l'.
Qed.

Lemma reverse_push x l : reverse (push x l) = x :: reverse l.
Proof. unfold push. now rewrite reverse_app. Qed.

Lemma nonempty_push x l : (0 <? length (push x l))%nat = true.
Proof. rewrite push_length. reflexivity. Qed.
End ArrayFacts.

(** ** Properties of the engine *)

Section Properties.
Context {World Exn : Type}.
Variable cmd_execute : CmdRef -> World -> @Effect World Exn.
Variable cmd_undo : CmdRef -> World -> @Effect World Exn.

Abbreviation State := (@State World).
Abbreviation Res := (@Res World Exn).

Implicit Types (s : State) (c : CmdRef) (fuel : nat) (step target now : Z).

Set Default Proof Using "Type".

Ltac run_m :=
  repeat progress
    (unfold bind, get, modify, ret, emit_stack_changed, emit, call, timeout;
     simpl).

Lemma execute_outcome s c b now :
  match execute cmd_execute c b now s with
  | Ok _ s' =>
      undoStack s' = undoStack_after_execute s c /\ redoStack s' = [] /\
      idCounter s' = idCounter s + 1 /\ cmd_id s' c = Some (idCounter s + 1) /\
      enabled s' = enabled s /\ stackSize s' = stackSize s /\ app s' = app s /\
      (b = false -> world s' = world s) /\
      (b = true -> cmd_execute c (world s) = Returns (world s')) /\
      (forall c', c' <> c -> cmds s' !! c' = cmds s !! c') /\
      emitted s' = emitted s ++
        (if app s then [StackChanged (undoStack s') []] else [])
  | Throw e s' =>
      b = true /\ cmd_execute c (world s) = Raises e (world s') /\
      undoStack s' = undoStack_after_execute s c /\
      redoStack s' = redoStack s /\
      idCounter s' = idCounter s + 1 /\ cmd_id s' c = Some (idCounter s + 1) /\
      emitted s' = emitted s
  | Timeout => False
  end.
Proof.
  unfold execute, undoStack_after_execute, bind, get, modify, ret,
    emit_stack_changed, emit, note, call, cmd_id.
  destruct (Z.of_nat (length (undoStack s)) >? stackSize s); simpl;
    destruct b; simpl.
  all: try destruct (cmd_execute c (world s)) as [w|e w] eqn:E; simpl.
  all: destruct (app s) eqn:Ea; simpl.
  all: unfold write_executeTime, write_executed, write_id, cmd_of; simpl.
  all: repeat (rewrite lookup_insert_eq; simpl).
  all: repeat split; rewrite ?app_nil_r; try easy.
  all: intros; rewrite ?lookup_insert_ne by congruence; reflexivity.
Qed.


(** *** Projections through [note] *)

Lemma note_fields e s :
  enabled (note e s) = enabled s /\ stackSize (note e s) = stackSize s /\
  undoStack (note e s) = undoStack s /\ redoStack (note e s) = redoStack s /\
  idCounter (note e s) = idCounter s /\ app (note e s) = app s /\
  cmds (note e s) = cmds s /\ world (note e s) = world s.
Proof. unfold note. destruct (app s) eqn:E; simpl; rewrite ?E; tauto. Qed.

Lemma note_emitted e s :
  emitted (note e s) = emitted s ++ (if app s then [e] else []).
Proof. unfold note. destruct (app s); simpl; now rewrite ?app_nil_r. Qed.

Lemma note_undoStack e s : undoStack (note e s) = undoStack s.
Proof. apply note_fields. Qed.
Lemma note_redoStack e s : redoStack (note e s) = redoStack s.
Proof. apply note_fields. Qed.
Lemma note_enabled e s : enabled (note e s) = enabled s.
Proof. apply note_fields. Qed.
Lemma note_app e s : app (note e s) = app s.
Proof. apply note_fields. Qed.
Lemma note_cmds e s : cmds (note e s) = cmds s.
Proof. apply note_fields. Qed.
Lemma note_world e s : world (note e s) = world s.
Proof. apply note_fields. Qed.
Lemma note_idCounter e s : idCounter (note e s) = idCounter s.
Proof. apply note_fields. Qed.
Lemma note_stackSize e s : stackSize (note e s) = stackSize s.
Proof. apply note_fields. Qed.
Lemma note_cmd_id e s c : cmd_id (note e s) c = cmd_id s c.
Proof. unfold cmd_id, cmd_of. now rewrite note_cmds. Qed.

(** *** One turn of the loops *)

Lemma undo_body_empty step command s :
  undoStack s = [] -> undo_body cmd_undo step command s = Ok (js_dec step, command) s.
Proof. intros H. unfold undo_body, bind, get, ret. now rewrite H. Qed.

Lemma undo_body_push step command s c rest :
  undoStack s = push c rest ->
  undo_body cmd_undo step command s =
    match cmd_undo c (world s) with
    | Returns w => Ok (js_dec step, Some c) (undone c rest w s)
    | Raises e w => Throw e (set_world w (set_undoStack rest s))
    end.
Proof.
  intros H. unfold undo_body, bind, get, ret, modify, call, emit_stack_changed, emit.
  rewrite H, nonempty_push, pop_push. simpl.
  destruct (cmd_undo c (world s)); reflexivity.
Qed.

Lemma redo_body_empty step command s :
  redoStack s = [] -> redo_body cmd_execute step command s = Ok (js_dec step, command) s.
Proof. intros H. unfold redo_body, bind, get, ret. now rewrite H. Qed.

Lemma redo_body_push step command s c rest :
  redoStack s = push c rest ->
  redo_body cmd_execute step command s =
    match cmd_execute c (world s) with
    | Returns w => Ok (js_dec step, Some c) (redone c rest w s)
    | Raises e w => Throw e (set_world w (set_redoStack rest s))
    end.
Proof.
  intros H. unfold redo_body, bind, get, ret, modify, call, emit_stack_changed, emit.
  rewrite H, nonempty_push, pop_push. simpl.
  destruct (cmd_execute c (world s)); reflexivity.
Qed.

(** Every turn decrements the counter, whatever the stack holds, and no
    turn loops. *)
Lemma undo_body_step step command s :
  match undo_body cmd_undo step command s with
  | Ok (step', _) _ => step' = js_dec step
  | Throw _ _ => True
  | Timeout => False
  end.
Proof.
  destruct (snoc_cases (undoStack s)) as [H|(rest & c & H)].
  - now rewrite undo_body_empty.
  - rewrite (undo_body_push _ _ _ _ _ H). now destruct (cmd_undo c (world s)).
Qed.

Lemma redo_body_step step command s :
  match redo_body cmd_execute step command s with
  | Ok (step', _) _ => step' = js_dec step
  | Throw _ _ => True
  | Timeout => False
  end.
Proof.
  destruct (snoc_cases (redoStack s)) as [H|(rest & c & H)].
  - now rewrite redo_body_empty.
  - rewrite (redo_body_push _ _ _ _ _ H). now destruct (cmd_execute c (world s)).
Qed.


(** *** The counting loops *)

(** A loop that comes to its end has taken [loop_turns] turns of its
    body; one that does not does not return. *)
Lemma undo_loop_turns_of fuel step command s :
  match loop_turns fuel step with
  | Some n =>
      undo_loop cmd_undo fuel step command s =
      turns n (undo_body cmd_undo) step command s
  | None => returned (undo_loop cmd_undo fuel step command s) = false
  end.
Proof.
  revert step command s.
  induction fuel as [|fuel IH]; intros step command s; simpl;
    destruct (Z.eqb_spec step 0) as [->|Hne]; try reflexivity.
  unfold bind. specialize (IH (js_dec step)).
  pose proof (undo_body_step step command s) as Hb.
  destruct (loop_turns fuel (js_dec step)) as [n|]; simpl; unfold bind;
    destruct (undo_body cmd_undo step command s) as [[step' command'] s'| |];
    try reflexivity; try contradiction; subst step'; apply IH.
Qed.

Lemma redo_loop_turns_of fuel step command s :
  match loop_turns fuel step with
  | Some n =>
      redo_loop cmd_execute fuel step command s =
      turns n (redo_body cmd_execute) step command s
  | None => returned (redo_loop cmd_execute fuel step command s) = false
  end.
Proof.
  revert step command s.
  induction fuel as [|fuel IH]; intros step command s; simpl;
    destruct (Z.eqb_spec step 0) as [->|Hne]; try reflexivity.
  unfold bind. specialize (IH (js_dec step)).
  pose proof (redo_body_step step command s) as Hb.
  destruct (loop_turns fuel (js_dec step)) as [n|]; simpl; unfold bind;
    destruct (redo_body cmd_execute step command s) as [[step' command'] s'| |];
    try reflexivity; try contradiction; subst step'; apply IH.
Qed.

(** The loop hands back the counter at 0 and nothing else. *)
Lemma undo_loop_ends_at_zero fuel step command s step' command' s' :
  undo_loop cmd_undo fuel step command s = Ok (step', command') s' -> step' = 0.
Proof.
  revert step command s.
  induction fuel as [|fuel IH]; intros step command s; simpl;
    destruct (Z.eqb_spec step 0) as [->|Hne];
    try (now intros [= <- _ _]); try discriminate.
  unfold bind.
  destruct (undo_body cmd_undo step command s) as [[step1 command1] s1| |];
    try discriminate.
  apply IH.
Qed.

Lemma redo_loop_ends_at_zero fuel step command s step' command' s' :
  redo_loop cmd_execute fuel step command s = Ok (step', command') s' -> step' = 0.
Proof.
  revert step command s.
  induction fuel as [|fuel IH]; intros step command s; simpl;
    destruct (Z.eqb_spec step 0) as [->|Hne];
    try (now intros [= <- _ _]); try discriminate.
  unfold bind.
  destruct (redo_body cmd_execute step command s) as [[step1 command1] s1| |];
    try discriminate.
  apply IH.
Qed.

(** Up to [2^53] the counter counts exactly. *)
Lemma undo_loop_turns fuel step command s :
  0 <= step <= max_exact_step -> (Z.to_nat step <= fuel)%nat ->
  undo_loop cmd_undo fuel step command s =
  turns (Z.to_nat step) (undo_body cmd_undo) step command s.
Proof.
  intros Hs Hf. pose proof (undo_loop_turns_of fuel step command s) as H.
  now rewrite loop_turns_exact in H.
Qed.

Lemma redo_loop_turns fuel step command s :
  0 <= step <= max_exact_step -> (Z.to_nat step <= fuel)%nat ->
  redo_loop cmd_execute fuel step command s =
  turns (Z.to_nat step) (redo_body cmd_execute) step command s.
Proof.
  intros Hs Hf. pose proof (redo_loop_turns_of fuel step command s) as H.
  now rewrite loop_turns_exact in H.
Qed.

(** A run of turns never hangs. *)
Lemma undo_turns_total n step command s :
  turns n (undo_body cmd_undo) step command s <> Timeout.
Proof.
  revert step command s. induction n as [|n IH]; intros; simpl; [easy|].
  unfold bind. pose proof (undo_body_step step command s) as Hb.
  destruct (undo_body cmd_undo step command s) as [[step' command'] s'| |];
    [apply IH | easy | contradiction].
Qed.

Lemma redo_turns_total n step command s :
  turns n (redo_body cmd_execute) step command s <> Timeout.
Proof.
  revert step command s. induction n as [|n IH]; intros; simpl; [easy|].
  unfold bind. pose proof (redo_body_step step command s) as Hb.
  destruct (redo_body cmd_execute step command s) as [[step' command'] s'| |];
    [apply IH | easy | contradiction].
Qed.

(** From a negative count the loop never gets to return. *)
Lemma undo_loop_negative fuel step command s :
  step < 0 -> returned (undo_loop cmd_undo fuel step command s) = false.
Proof.
  intros Hs. pose proof (undo_loop_turns_of fuel step command s) as H.
  now rewrite loop_turns_negative in H.
Qed.

Lemma redo_loop_negative fuel step command s :
  step < 0 -> returned (redo_loop cmd_execute fuel step command s) = false.
Proof.
  intros Hs. pose proof (redo_loop_turns_of fuel step command s) as H.
  now rewrite loop_turns_negative in H.
Qed.

(** Nor from a count of [2^53 + 4] or more. *)
Lemma undo_loop_stuck fuel step command s :
  max_exact_step + 4 <= step ->
  returned (undo_loop cmd_undo fuel step command s) = false.
Proof.
  intros Hs. pose proof (undo_loop_turns_of fuel step command s) as H.
  now rewrite loop_turns_stuck in H.
Qed.

Lemma redo_loop_stuck fuel step command s :
  max_exact_step + 4 <= step ->
  returned (redo_loop cmd_execute fuel step command s) = false.
Proof.
  intros Hs. pose proof (redo_loop_turns_of fuel step command s) as H.
  now rewrite loop_turns_stuck in H.
Qed.

(** On an empty stack no turn raises: a loop that cannot return goes on
    for ever. *)
Lemma undo_loop_empty fuel step command s :
  undoStack s = [] ->
  returned (undo_loop cmd_undo fuel step command s) = false ->
  undo_loop cmd_undo fuel step command s = Timeout.
Proof.
  intros He. revert step.
  induction fuel as [|fuel IH]; intros step; simpl;
    destruct (Z.eqb_spec step 0) as [->|Hne]; try discriminate;
    try reflexivity.
  unfold bind. rewrite undo_body_empty by assumption. apply IH.
Qed.

Lemma redo_loop_empty fuel step command s :
  redoStack s = [] ->
  returned (redo_loop cmd_execute fuel step command s) = false ->
  redo_loop cmd_execute fuel step command s = Timeout.
Proof.
  intros He. revert step.
  induction fuel as [|fuel IH]; intros step; simpl;
    destruct (Z.eqb_spec step 0) as [->|Hne]; try discriminate;
    try reflexivity.
  unfold bind. rewrite redo_body_empty by assumption. apply IH.
Qed.

(** From a negative count, no raise in sight means no end in sight. *)
Lemma undo_loop_negative_empty fuel step command s :
  step < 0 -> undoStack s = [] ->
  undo_loop cmd_undo fuel step command s = Timeout.
Proof.
  intros Hs He. apply undo_loop_empty; [assumption|].
  now apply undo_loop_negative.
Qed.

Lemma redo_loop_negative_empty fuel step command s :
  step < 0 -> redoStack s = [] ->
  redo_loop cmd_execute fuel step command s = Timeout.
Proof.
  intros Hs He. apply redo_loop_empty; [assumption|].
  now apply redo_loop_negative.
Qed.


(** *** What a run of turns moves *)

Lemma undone_fields c rest w s :
  undoStack (undone c rest w s) = rest /\
  redoStack (undone c rest w s) = push c (redoStack s) /\
  world (undone c rest w s) = w /\
  enabled (undone c rest w s) = enabled s /\
  app (undone c rest w s) = app s /\
  cmds (undone c rest w s) = cmds s /\
  idCounter (undone c rest w s) = idCounter s /\
  stackSize (undone c rest w s) = stackSize s /\
  emitted (undone c rest w s) =
    emitted s ++ (if app s then [StackChanged rest (push c (redoStack s))] else []).
Proof.
  unfold undone. rewrite note_emitted.
  repeat split; try reflexivity.
  all: destruct (note_fields (StackChanged rest (push c (redoStack s)))
    (set_redoStack (push c (redoStack s)) (set_world w (set_undoStack rest s))))
    as (?&?&?&?&?&?&?&?); simpl in *; assumption.
Qed.

Lemma redone_fields c rest w s :
  undoStack (redone c rest w s) = push c (undoStack s) /\
  redoStack (redone c rest w s) = rest /\
  world (redone c rest w s) = w /\
  enabled (redone c rest w s) = enabled s /\
  app (redone c rest w s) = app s /\
  cmds (redone c rest w s) = cmds s /\
  idCounter (redone c rest w s) = idCounter s /\
  stackSize (redone c rest w s) = stackSize s /\
  emitted (redone c rest w s) =
    emitted s ++ (if app s then [StackChanged (push c (undoStack s)) rest] else []).
Proof.
  unfold redone. rewrite note_emitted.
  repeat split; try reflexivity.
  all: destruct (note_fields (StackChanged (push c (undoStack s)) rest)
    (set_undoStack (push c (undoStack s)) (set_world w (set_redoStack rest s))))
    as (?&?&?&?&?&?&?&?); simpl in *; assumption.
Qed.


(** [n] turns of [undo] that all return move the [min n length] topmost
    commands of [undoStack] onto [redoStack], top first, and hand back
    the one moved last. *)
Lemma undo_turns_moves n step command s step' command' s' :
  turns n (undo_body cmd_undo) step command s = Ok (step', command') s' ->
  exists moved evs,
    undoStack s = undoStack s' ++ moved /\
    redoStack s' = redoStack s ++ reverse moved /\
    length moved = Nat.min n (length (undoStack s)) /\
    command' = from_option Some command (head moved) /\
    step' = Nat.iter n js_dec (step) /\
    app s' = app s /\ enabled s' = enabled s /\ cmds s' = cmds s /\
    idCounter s' = idCounter s /\ stackSize s' = stackSize s /\
    emitted s' = emitted s ++ evs /\
    forallb is_StackChanged evs = true.
Proof.
  clear cmd_execute.
  revert step command s.
  induction n as [|n IH]; intros step command s H.
  - injection H as <- <- <-. exists [], [].
    rewrite !app_nil_r. repeat split; try reflexivity; simpl; lia.
  - simpl in H. unfold bind in H.
    destruct (snoc_cases (undoStack s)) as [He|(rest & c & He)].
    + rewrite undo_body_empty in H by assumption.
      apply IH in H as (moved & evs & H1 & H2 & H3 & H4 & H5 & Hrest).
      exists moved, evs. rewrite He in *. simpl in H3.
      repeat split; try tauto; try (simpl; lia).
      rewrite Nat.iter_succ_r. tauto.
    + rewrite (undo_body_push _ _ _ _ _ He) in H.
      destruct (cmd_undo c (world s)) as [w|e w]; [|discriminate].
      apply IH in H as (moved & evs & H1 & H2 & H3 & H4 & H5 & H6 & H7 & H8
                        & H9 & H10 & H11 & H12).
      destruct (undone_fields c rest w s)
        as (U1 & U2 & U3 & U4 & U5 & U6 & U7 & U8 & U9).
      rewrite U1 in H1, H3. rewrite U2 in H2. rewrite U9 in H11.
      exists (moved ++ [c]),
        ((if app s then [StackChanged rest (push c (redoStack s))] else []) ++ evs).
      rewrite He. unfold push in *.
      repeat split; try congruence.
      * rewrite H1 at 1. now rewrite <- app_assoc.
      * rewrite H2, reverse_app. simpl. now rewrite <- app_assoc.
      * rewrite !length_app, H3. cbn [length]. lia.
      * rewrite H4. now destruct moved.
      * now rewrite Nat.iter_succ_r.
      * rewrite H11. now rewrite <- app_assoc.
      * rewrite forallb_app, H12. now destruct (app s).
Qed.

Lemma redo_turns_moves n step command s step' command' s' :
  turns n (redo_body cmd_execute) step command s = Ok (step', command') s' ->
  exists moved evs,
    redoStack s = redoStack s' ++ moved /\
    undoStack s' = undoStack s ++ reverse moved /\
    length moved = Nat.min n (length (redoStack s)) /\
    command' = from_option Some command (head moved) /\
    step' = Nat.iter n js_dec (step) /\
    app s' = app s /\ enabled s' = enabled s /\ cmds s' = cmds s /\
    idCounter s' = idCounter s /\ stackSize s' = stackSize s /\
    emitted s' = emitted s ++ evs /\
    forallb is_StackChanged evs = true.
Proof.
  clear cmd_undo.
  revert step command s.
  induction n as [|n IH]; intros step command s H.
  - injection H as <- <- <-. exists [], [].
    rewrite !app_nil_r. repeat split; try reflexivity; simpl; lia.
  - simpl in H. unfold bind in H.
    destruct (snoc_cases (redoStack s)) as [He|(rest & c & He)].
    + rewrite redo_body_empty in H by assumption.
      apply IH in H as (moved & evs & H1 & H2 & H3 & H4 & H5 & Hrest).
      exists moved, evs. rewrite He in *. simpl in H3.
      repeat split; try tauto; try (simpl; lia).
      rewrite Nat.iter_succ_r. tauto.
    + rewrite (redo_body_push _ _ _ _ _ He) in H.
      destruct (cmd_execute c (world s)) as [w|e w]; [|discriminate].
      apply IH in H as (moved & evs & H1 & H2 & H3 & H4 & H5 & H6 & H7 & H8
                        & H9 & H10 & H11 & H12).
      destruct (redone_fields c rest w s)
        as (U1 & U2 & U3 & U4 & U5 & U6 & U7 & U8 & U9).
      rewrite U2 in H1, H3. rewrite U1 in H2. rewrite U9 in H11.
      exists (moved ++ [c]),
        ((if app s then [StackChanged (push c (undoStack s)) rest] else []) ++ evs).
      rewrite He. unfold push in *.
      repeat split; try congruence.
      * rewrite H1 at 1. now rewrite <- app_assoc.
      * rewrite H2, reverse_app. simpl. now rewrite <- app_assoc.
      * rewrite !length_app, H3. cbn [length]. lia.
      * rewrite H4. now destruct moved.
      * now rewrite Nat.iter_succ_r.
      * rewrite H11. now rewrite <- app_assoc.
      * rewrite forallb_app, H12. now destruct (app s).
Qed.


(** *** Single calls *)

Lemma undo_loop_zero fuel command s :
  undo_loop cmd_undo fuel 0 command s = Ok (0, command) s.
Proof. now destruct fuel. Qed.

Lemma redo_loop_zero fuel command s :
  redo_loop cmd_execute fuel 0 command s = Ok (0, command) s.
Proof. now destruct fuel. Qed.

Lemma undo_one fuel s :
  enabled s = true -> undo cmd_undo (S fuel) 1 s = undo_once cmd_undo s.
Proof.
  intros He. unfold undo, undo_once, bind at 1, get. rewrite He. simpl.
  unfold bind.
  destruct (snoc_cases (undoStack s)) as [H|(rest & c & H)].
  - rewrite undo_body_empty by assumption. rewrite H. simpl.
    now rewrite undo_loop_zero.
  - rewrite (undo_body_push _ _ _ _ _ H), H, pop_push.
    destruct (cmd_undo c (world s)); [|reflexivity].
    simpl. now rewrite undo_loop_zero.
Qed.

Lemma redo_one fuel s :
  enabled s = true -> redo cmd_execute (S fuel) 1 s = redo_once cmd_execute s.
Proof.
  intros He. unfold redo, redo_once, bind at 1, get. rewrite He. simpl.
  unfold bind.
  destruct (snoc_cases (redoStack s)) as [H|(rest & c & H)].
  - rewrite redo_body_empty by assumption. rewrite H. simpl.
    now rewrite redo_loop_zero.
  - rewrite (redo_body_push _ _ _ _ _ H), H, pop_push.
    destruct (cmd_execute c (world s)); [|reflexivity].
    simpl. now rewrite redo_loop_zero.
Qed.

Lemma undo_disabled fuel step s :
  enabled s = false -> undo cmd_undo fuel step s = Ok None s.
Proof. intros H. unfold undo, bind, get. now rewrite H. Qed.

Lemma redo_disabled fuel step s :
  enabled s = false -> redo cmd_execute fuel step s = Ok None s.
Proof. intros H. unfold redo, bind, get. now rewrite H. Qed.

Lemma jump_disabled fuel target s :
  enabled s = false -> jump cmd_execute cmd_undo fuel target s = Ok tt s.
Proof. intros H. unfold jump, bind, get. now rewrite H. Qed.

(** *** Whole calls of [undo] and [redo] *)

(** A call that returns has taken [loop_turns] turns, and these have
    moved the topmost commands from one stack to the other. *)
Lemma undo_moves fuel step s r s' :
  enabled s = true ->
  undo cmd_undo fuel step s = Ok r s' ->
  exists n moved evs,
    loop_turns fuel step = Some n /\
    undoStack s = undoStack s' ++ moved /\
    redoStack s' = redoStack s ++ reverse moved /\
    length moved = Nat.min n (length (undoStack s)) /\
    r = head moved /\
    cmds s' = cmds s /\ enabled s' = enabled s /\
    forallb is_StackChanged evs = true /\
    emitted s' =
      emitted s ++ evs ++ (if app s then [HistoryUndo 0 r] else []).
Proof.
  intros He. unfold undo, bind at 1, get. rewrite He. simpl.
  unfold bind at 1.
  pose proof (undo_loop_turns_of fuel step None s) as Ht.
  destruct (undo_loop cmd_undo fuel step None s)
    as [[step' command] s1|e s1|] eqn:E; try discriminate.
  apply undo_loop_ends_at_zero in E as ->.
  destruct (loop_turns fuel step) as [n|]; [|discriminate].
  symmetry in Ht. apply undo_turns_moves in Ht
    as (moved & evs & H1 & H2 & H3 & H4 & H5 & H6 & H7 & H8 & H9 & H10 & H11 & H12).
  unfold bind, emit, modify, ret. intros [= <- <-].
  exists n, moved, evs.
  rewrite note_undoStack, note_redoStack, note_cmds, note_enabled, note_emitted,
    H6, H11.
  assert (command = head moved) as -> by (rewrite H4; now destruct moved).
  repeat split; try assumption; try congruence. now rewrite <- app_assoc.
Qed.

Lemma redo_call_moves fuel step s r s' :
  enabled s = true ->
  redo cmd_execute fuel step s = Ok r s' ->
  exists n moved evs,
    loop_turns fuel step = Some n /\
    redoStack s = redoStack s' ++ moved /\
    undoStack s' = undoStack s ++ reverse moved /\
    length moved = Nat.min n (length (redoStack s)) /\
    r = head moved /\
    cmds s' = cmds s /\ enabled s' = enabled s /\
    forallb is_StackChanged evs = true /\
    emitted s' =
      emitted s ++ evs ++ (if app s then [HistoryRedo r 0] else []).
Proof.
  intros He. unfold redo, bind at 1, get. rewrite He. simpl.
  unfold bind at 1.
  pose proof (redo_loop_turns_of fuel step None s) as Ht.
  destruct (redo_loop cmd_execute fuel step None s)
    as [[step' command] s1|e s1|] eqn:E; try discriminate.
  apply redo_loop_ends_at_zero in E as ->.
  destruct (loop_turns fuel step) as [n|]; [|discriminate].
  symmetry in Ht. apply redo_turns_moves in Ht
    as (moved & evs & H1 & H2 & H3 & H4 & H5 & H6 & H7 & H8 & H9 & H10 & H11 & H12).
  unfold bind, emit, modify, ret. intros [= <- <-].
  exists n, moved, evs.
  rewrite note_undoStack, note_redoStack, note_cmds, note_enabled, note_emitted,
    H6, H11.
  assert (command = head moved) as -> by (rewrite H4; now destruct moved).
  repeat split; try assumption; try congruence. now rewrite <- app_assoc.
Qed.

(** Up to [2^53], and with fuel for every turn, a call does not hang. *)
Lemma undo_bounded_total fuel step s :
  0 <= step <= max_exact_step -> (Z.to_nat step <= fuel)%nat ->
  undo cmd_undo fuel step s <> Timeout.
Proof.
  intros Hs Hf. unfold undo, bind at 1, get.
  destruct (enabled s); simpl; [|discriminate].
  unfold bind at 1. rewrite undo_loop_turns by assumption.
  pose proof (undo_turns_total (Z.to_nat step) step None s) as Ht.
  now destruct (turns (Z.to_nat step) (undo_body cmd_undo) step None s)
    as [[step' command] s1|e s1|].
Qed.

Lemma redo_bounded_total fuel step s :
  0 <= step <= max_exact_step -> (Z.to_nat step <= fuel)%nat ->
  redo cmd_execute fuel step s <> Timeout.
Proof.
  intros Hs Hf. unfold redo, bind at 1, get.
  destruct (enabled s); simpl; [|discriminate].
  unfold bind at 1. rewrite redo_loop_turns by assumption.
  pose proof (redo_turns_total (Z.to_nat step) step None s) as Ht.
  now destruct (turns (Z.to_nat step) (redo_body cmd_execute) step None s)
    as [[step' command] s1|e s1|].
Qed.

(** ** The claims *)

(** C5, as the engine has it. After every call
    [execute(c, needExecute)] that returns, [redoStack] is empty, whatever
    it held before. The call always comes to an end; it fails to return
    only when [needExecute] is set and the command's own [execute()]
    raised, and then [redoStack] is left as it was before the call. *)
Theorem execute_clears_redoStack s c needExecute now :
  match execute cmd_execute c needExecute now s with
  | Ok _ s' => redoStack s' = []
  | Throw e s' =>
      needExecute = true /\ cmd_execute c (world s) = Raises e (world s') /\
      redoStack s' = redoStack s
  | Timeout => False
  end.
Proof.
  clear cmd_undo.
  pose proof (execute_outcome s c needExecute now) as H.
  destruct (execute cmd_execute c needExecute now s); tauto.
Qed.

(** C8. On a disabled engine [undo], [redo] and [jump] return [undefined]
    and change nothing at all: no stack, no command object, no scene, no
    notification. [execute] never reads the flag: run on the state with
    the flag set either way, it does the same and leaves the flag as it
    found it. *)
Theorem disabled_gates_all_but_execute s :
  enabled s = false ->
  (forall fuel step, undo cmd_undo fuel step s = Ok None s) /\
  (forall fuel step, redo cmd_execute fuel step s = Ok None s) /\
  (forall fuel target, jump cmd_execute cmd_undo fuel target s = Ok tt s) /\
  (forall c needExecute now flag,
      execute cmd_execute c needExecute now (set_enabled flag s) =
      on_state (set_enabled flag) (execute cmd_execute c needExecute now s)).
Proof.
  intros H. repeat split; intros.
  - now apply undo_disabled.
  - now apply redo_disabled.
  - now apply jump_disabled.
  - unfold execute. run_m.
    destruct (Z.of_nat (length (undoStack s)) >? stackSize s);
      destruct needExecute; run_m.
    all: try destruct (cmd_execute c (world s)) as [w|e w]; run_m.
    all: unfold note; simpl; destruct (app s); reflexivity.
Qed.




(** Commands that are only logged ([needExecute = false]), one
    [execute] each. *)
Lemma log_all_below_capacity fuel (cs : list CmdRef) s :
  Z.of_nat (length (undoStack s)) + Z.of_nat (length cs) <= stackSize s + 1 ->
  exists s',
    perform_all cmd_execute cmd_undo fuel
      (map (fun c => CallExecute c false 0) cs) s = Ok tt s' /\
    undoStack s' = undoStack s ++ cs /\
    stackSize s' = stackSize s.
Proof.
  revert s. induction cs as [|c cs IH]; intros s H.
  - exists s. now rewrite app_nil_r.
  - cbn [map perform_all perform]. unfold bind.
    pose proof (execute_outcome s c false 0) as Ho.
    destruct (execute cmd_execute c false 0 s) as [[] s1|e s1|];
      [|now destruct Ho|contradiction].
    destruct Ho as (Hu & _ & _ & _ & _ & Hs & _).
    unfold undoStack_after_execute in Hu.
    cbn [length] in H.
    destruct (Z.gtb_spec (Z.of_nat (length (undoStack s))) (stackSize s));
      [lia|].
    destruct (IH s1) as (s' & Hp & Hu' & Hs').
    { rewrite Hu, Hs, push_length. lia. }
    exists s'. rewrite Hp, Hu', Hu, Hs', Hs. unfold push.
    now rewrite <- app_assoc.
Qed.

(** C6. The eviction check of [execute] is a strict comparison: the
    oldest entry is shifted off exactly when the length of [undoStack]
    already exceeds [stackSize] before the push. So a new engine of
    capacity [n] that is handed [n + 1] commands holds all [n + 1] of
    them. *)
Theorem eviction_check_is_strict :
  (forall s c needExecute now,
      match execute cmd_execute c needExecute now s with
      | Ok _ s' | Throw _ s' =>
          undoStack s' =
            push c (if Z.of_nat (length (undoStack s)) >? stackSize s
                    then shift (undoStack s) else undoStack s)
      | Timeout => False
      end) /\
  (forall (n : nat) fuel enabled0 w,
      exists s',
        perform_all cmd_execute cmd_undo fuel
          (map (fun c => CallExecute c false 0) (seq 1 (S n)))
          (new_History enabled0 (Z.of_nat n) w) = Ok tt s' /\
        undoStack s' = seq 1 (S n) /\
        Z.of_nat (length (undoStack s')) = stackSize s' + 1).
Proof.
  split.
  - intros s c b now. pose proof (execute_outcome s c b now) as Ho.
    destruct (execute cmd_execute c b now s); [apply Ho|apply Ho|assumption].
  - intros n fuel e w.
    destruct (log_all_below_capacity fuel (seq 1 (S n))
                (new_History e (Z.of_nat n) w)) as (s' & Hp & Hu & Hs).
    { rewrite length_seq. simpl. lia. }
    exists s'. repeat split; [assumption|assumption|].
    rewrite Hu, Hs. unfold new_History. cbn [undoStack stackSize].
    rewrite app_nil_l, length_seq. lia.
Qed.

(** C10, as the engine has it. Every turn of the loops of [undo] and
    [redo] ends with [--step], also on an empty stack, and up to [2^53]
    this takes exactly one off the counter. So from
    [0 <= step <= 2^53] the loop is exactly [step] turns of its body and
    never hangs; from [step < 0] the counter never meets 0 and the loop
    (hence the call, on an enabled engine) cannot return; and from
    [step >= 2^53 + 4] it cannot return either, because there the counter
    is a double that the decrement no longer brings below [2^53 + 4]. *)
Theorem counting_loops_terminate_iff_nonnegative fuel step command s :
  match undo_body cmd_undo step command s with
  | Ok (step', _) _ => step' = js_dec step | Throw _ _ => True | Timeout => False
  end /\
  match redo_body cmd_execute step command s with
  | Ok (step', _) _ => step' = js_dec step | Throw _ _ => True | Timeout => False
  end /\
  (- max_exact_step < step <= max_exact_step -> js_dec step = step - 1) /\
  (0 <= step <= max_exact_step -> (Z.to_nat step <= fuel)%nat ->
   undo_loop cmd_undo fuel step command s =
     turns (Z.to_nat step) (undo_body cmd_undo) step command s /\
   undo_loop cmd_undo fuel step command s <> Timeout /\
   redo_loop cmd_execute fuel step command s =
     turns (Z.to_nat step) (redo_body cmd_execute) step command s /\
   redo_loop cmd_execute fuel step command s <> Timeout) /\
  (step < 0 \/ max_exact_step + 4 <= step ->
   returned (undo_loop cmd_undo fuel step command s) = false /\
   returned (redo_loop cmd_execute fuel step command s) = false /\
   (enabled s = true ->
    returned (undo cmd_undo fuel step s) = false /\
    returned (redo cmd_execute fuel step s) = false) /\
   (undoStack s = [] -> undo_loop cmd_undo fuel step command s = Timeout) /\
   (redoStack s = [] -> redo_loop cmd_execute fuel step command s = Timeout)).
Proof.
  split; [apply undo_body_step|]. split; [apply redo_body_step|].
  split; [apply js_dec_exact|]. split.
  - intros Hs Hf.
    rewrite undo_loop_turns, redo_loop_turns by assumption.
    repeat split; [apply undo_turns_total|apply redo_turns_total].
  - intros Hs.
    assert (Hu : forall command s,
               returned (undo_loop cmd_undo fuel step command s) = false).
    { intros. destruct Hs; [now apply undo_loop_negative|now apply undo_loop_stuck]. }
    assert (Hr : forall command s,
               returned (redo_loop cmd_execute fuel step command s) = false).
    { intros. destruct Hs; [now apply redo_loop_negative|now apply redo_loop_stuck]. }
    repeat split; try apply Hu; try apply Hr.
    + unfold undo, bind at 1, get. rewrite H. simpl. unfold bind.
      pose proof (Hu None s) as Hn.
      now destruct (undo_loop cmd_undo fuel step None s).
    + unfold redo, bind at 1, get. rewrite H. simpl. unfold bind.
      pose proof (Hr None s) as Hn.
      now destruct (redo_loop cmd_execute fuel step None s).
    + intros He. now apply undo_loop_empty.
    + intros He. now apply redo_loop_empty.
Qed.


(** C2, as the engine has it. After an [undo(step)] call with
    [step >= 0] on an enabled engine with a host, a call that returns has
    moved topmost commands of [undoStack] onto [redoStack], [min step
    length] of them when [step <= 2^53] and never more, has sent one
    'stack:changed' per command moved and then one 'history:undo', and
    that last notification carries the step count 0, whether or not the
    stack ran out, together with the command moved last (none if nothing
    was moved), which is also what the call returns. With enough fuel the
    call does not hang unless [step] is above [2^53]. *)
Theorem undo_notifies_step_zero fuel step s :
  enabled s = true -> app s = true ->
  0 <= step -> (Z.to_nat step <= fuel)%nat ->
  match undo cmd_undo fuel step s with
  | Ok command s' =>
      exists moved evs,
        undoStack s = undoStack s' ++ moved /\
        redoStack s' = redoStack s ++ reverse moved /\
        (length moved <= Nat.min (Z.to_nat step) (length (undoStack s)))%nat /\
        (step <= max_exact_step ->
         length moved = Nat.min (Z.to_nat step) (length (undoStack s))) /\
        command = head moved /\
        forallb is_StackChanged evs = true /\
        emitted s' = emitted s ++ evs ++ [HistoryUndo 0 command]
  | Throw _ _ => True
  | Timeout => max_exact_step < step
  end.
Proof.
  intros He Ha Hs Hf.
  destruct (undo cmd_undo fuel step s) as [command s'|e s'|] eqn:E; [|exact I|].
  - apply undo_moves in E
      as (n & moved & evs & Hn & H1 & H2 & H3 & H4 & _ & _ & H7 & H8);
      [|assumption].
    rewrite Ha in H8. exists moved, evs.
    pose proof (loop_turns_le fuel step n Hs Hn) as Hle.
    repeat split; try assumption; [lia|].
    intros Hb. rewrite loop_turns_exact in Hn by lia.
    injection Hn as <-. exact H3.
  - destruct (Z.le_gt_cases step max_exact_step) as [Hb|Hb]; [|lia].
    now destruct (undo_bounded_total fuel step s).
Qed.

(** C4, as the engine has it. From a state whose [undoStack] is not
    empty (or whose [redoStack] is empty, or whose engine is disabled),
    [undo()] immediately followed by [redo()] both return and leave
    [undoStack] as it was before the [undo()], the same command objects in
    the same order, and [redoStack], the command objects and the scene
    as well, provided the [undo()] and [execute()] of the command on top
    cancel each other. *)
Theorem undo_then_redo_restores_undoStack fuel s :
  undoStack s <> [] \/ redoStack s = [] \/ enabled s = false ->
  (forall c, top (undoStack s) = Some c -> true_inverses cmd_execute cmd_undo c) ->
  exists r1 s1 r2 s2,
    undo cmd_undo (S fuel) 1 s = Ok r1 s1 /\
    redo cmd_execute (S fuel) 1 s1 = Ok r2 s2 /\
    r2 = r1 /\
    undoStack s2 = undoStack s /\ redoStack s2 = redoStack s /\
    cmds s2 = cmds s /\ world s2 = world s.
Proof.
  intros Hne Hinv.
  destruct (enabled s) eqn:He.
  2:{ exists None, s, None, s. rewrite undo_disabled, redo_disabled by assumption.
      repeat split. }
  rewrite undo_one by assumption. unfold undo_once.
  destruct (snoc_cases (undoStack s)) as [Hu|(rest & c & Hu)].
  - destruct Hne as [Hne|[Hr|Hd]]; [contradiction| |discriminate].
    rewrite Hu. simpl.
    exists None, (note (HistoryUndo 0 None) s), None,
      (note (HistoryRedo None 0) (note (HistoryUndo 0 None) s)).
    rewrite redo_one by now rewrite note_enabled.
    unfold redo_once. rewrite note_redoStack, Hr. simpl.
    rewrite !note_undoStack, !note_redoStack, !note_cmds, !note_world.
    repeat split; congruence.
  - assert (Htop : top (push c rest) = Some c) by apply top_push.
    rewrite <- Hu in Htop.
    destruct (Hinv c Htop (world s)) as ((w' & Hw1 & Hw2) & _).
    assert (Hp : pop (undoStack s) = (Some c, rest)) by (rewrite Hu; apply pop_push).
    rewrite Hp, Hw1.
    destruct (undone_fields c rest w' s)
      as (U1 & U2 & U3 & U4 & U5 & U6 & U7 & U8 & U9).
    set (s1 := note (HistoryUndo 0 (Some c)) (undone c rest w' s)).
    destruct (redone_fields c (redoStack s) (world s) s1)
      as (R1 & R2 & R3 & R4 & R5 & R6 & R7 & R8 & R9).
    exists (Some c), s1, (Some c),
      (note (HistoryRedo (Some c) 0) (redone c (redoStack s) (world s) s1)).
    rewrite redo_one by (unfold s1; now rewrite note_enabled, U4).
    unfold redo_once.
    replace (redoStack s1) with (push c (redoStack s))
      by (unfold s1; now rewrite note_redoStack, U2).
    replace (world s1) with w' by (unfold s1; now rewrite note_world, U3).
    rewrite pop_push, Hw2.
    rewrite !note_undoStack, !note_redoStack, !note_cmds, !note_world.
    rewrite R1, R2, R3, R6.
    unfold s1. rewrite note_undoStack, note_cmds, U1, U6.
    repeat split; congruence.
Qed.


(** *** The walk of [jump] *)

Lemma cmd_id_cmds s s' c : cmds s' = cmds s -> cmd_id s' c = cmd_id s c.
Proof. intros H. unfold cmd_id, cmd_of. now rewrite H. Qed.

Lemma stack_ids_cmds s s' l : cmds s' = cmds s -> stack_ids s' l = stack_ids s l.
Proof.
  intros H. unfold stack_ids. apply map_ext. intros c. now apply cmd_id_cmds.
Qed.

Lemma times_S {A} n (m : @M World Exn A) s :
  times (S n) m s =
  match m s with
  | Ok _ s' => times n m s'
  | Throw e s' => Throw e s'
  | Timeout => Timeout
  end.
Proof. reflexivity. Qed.

Lemma jump_redo_loop_None fuel target s :
  jump_redo_loop cmd_execute fuel target None s = Ok tt s.
Proof. now destruct fuel. Qed.

Lemma jump_redo_loop_Some fuel target c s :
  jump_redo_loop cmd_execute fuel target (Some c) s =
  if js_gt target (cmd_id s c) then
    match fuel with
    | O => Timeout
    | S fuel' =>
        bind (redo cmd_execute (S fuel') 1)
             (jump_redo_loop cmd_execute fuel' target) s
    end
  else Ok tt s.
Proof. destruct fuel; run_m; now destruct (js_gt target (cmd_id s c)). Qed.

Lemma jump_undo_loop_eq fuel target s :
  jump_undo_loop cmd_undo fuel target s =
  match top (undoStack s) with
  | None => Ok tt s
  | Some c =>
      if js_eq target (cmd_id s c) then Ok tt s
      else match fuel with
           | O => Timeout
           | S fuel' =>
               bind (undo cmd_undo (S fuel') 1)
                    (fun _ => jump_undo_loop cmd_undo fuel' target) s
           end
  end.
Proof.
  destruct fuel; run_m; destruct (top (undoStack s)); try reflexivity;
    now destruct (js_eq target (cmd_id s n)).
Qed.

(** The redo walk: the first [redo()] and the loop after it make as many
    single-step calls as [redo_calls] counts on the ids of [redoStack]. *)
Lemma jump_redo_walk fuel target s :
  enabled s = true -> (length (redoStack s) <= fuel)%nat ->
  match redo_once cmd_execute s with
  | Ok command s1 => jump_redo_loop cmd_execute fuel target command s1
  | Throw e s1 => Throw e s1
  | Timeout => Timeout
  end =
  times (redo_calls target (stack_ids s (reverse (redoStack s))))
        (redo cmd_execute 1 1) s.
Proof.
  revert s. induction fuel as [|fuel IH]; intros s He Hf.
  all: destruct (snoc_cases (redoStack s)) as [Hr|(rest & c & Hr)].
  all: try (rewrite Hr, push_length in Hf; lia).
  all: unfold redo_once; rewrite Hr.
  - rewrite pop_nil, jump_redo_loop_None, reverse_nil.
    cbn [stack_ids map redo_calls].
    rewrite times_S, redo_one by assumption.
    unfold redo_once. now rewrite Hr, pop_nil.
  - rewrite pop_nil, jump_redo_loop_None, reverse_nil.
    cbn [stack_ids map redo_calls].
    rewrite times_S, redo_one by assumption.
    unfold redo_once. now rewrite Hr, pop_nil.
  - rewrite pop_push, reverse_push. cbn [stack_ids map redo_calls].
    assert (Hm : redo cmd_execute 1 1 s =
                 match cmd_execute c (world s) with
                 | Returns w =>
                     Ok (Some c) (note (HistoryRedo (Some c) 0) (redone c rest w s))
                 | Raises e w => Throw e (set_world w (set_redoStack rest s))
                 end).
    { rewrite redo_one by assumption. unfold redo_once.
      now rewrite Hr, pop_push. }
    destruct (cmd_execute c (world s)) as [w|e w].
    + set (s1 := note (HistoryRedo (Some c) 0) (redone c rest w s)) in *.
      destruct (redone_fields c rest w s)
        as (R1 & R2 & R3 & R4 & R5 & R6 & _).
      assert (Hc : cmds s1 = cmds s) by (unfold s1; now rewrite note_cmds).
      assert (He1 : enabled s1 = true)
        by (unfold s1; now rewrite note_enabled, R4).
      assert (Hr1 : redoStack s1 = rest)
        by (unfold s1; now rewrite note_redoStack).
      rewrite jump_redo_loop_Some, (cmd_id_cmds _ _ _ Hc).
      destruct (js_gt target (cmd_id s c)).
      * rewrite times_S, Hm. unfold bind. rewrite redo_one by assumption.
        rewrite IH; [|assumption|rewrite Hr1; rewrite Hr, push_length in Hf; lia].
        now rewrite Hr1, (stack_ids_cmds _ _ _ Hc).
      * now rewrite times_S, Hm.
    + destruct (js_gt target (cmd_id s c)); now rewrite times_S, Hm.
Qed.

(** The undo walk, counted by [undo_calls] on the ids of [undoStack]. *)
Lemma jump_undo_walk fuel target s :
  enabled s = true -> (length (undoStack s) <= fuel)%nat ->
  jump_undo_loop cmd_undo fuel target s =
  times (undo_calls target (stack_ids s (reverse (undoStack s))))
        (undo cmd_undo 1 1) s.
Proof.
  revert s. induction fuel as [|fuel IH]; intros s He Hf.
  all: destruct (snoc_cases (undoStack s)) as [Hu|(rest & c & Hu)].
  all: try (rewrite Hu, push_length in Hf; lia).
  all: rewrite jump_undo_loop_eq, Hu.
  - reflexivity.
  - reflexivity.
  - rewrite top_push, reverse_push. cbn [stack_ids map undo_calls].
    destruct (js_eq target (cmd_id s c)); [reflexivity|].
    rewrite times_S. unfold bind. rewrite !undo_one by assumption.
    unfold undo_once. rewrite Hu, pop_push.
    destruct (cmd_undo c (world s)) as [w|e w]; [|reflexivity].
    set (s1 := note (HistoryUndo 0 (Some c)) (undone c rest w s)) in *.
    destruct (undone_fields c rest w s)
      as (U1 & U2 & U3 & U4 & U5 & U6 & _).
    assert (Hc : cmds s1 = cmds s) by (unfold s1; now rewrite note_cmds).
    assert (He1 : enabled s1 = true)
      by (unfold s1; now rewrite note_enabled, U4).
    assert (Hu1 : undoStack s1 = rest)
      by (unfold s1; now rewrite note_undoStack).
    rewrite IH; [|assumption|rewrite Hu1; rewrite Hu, push_length in Hf; lia].
    now rewrite Hu1, (stack_ids_cmds _ _ _ Hc).
Qed.


Lemma bind_get {A} (k : State -> @M World Exn A) s : bind get k s = k s s.
Proof. reflexivity. Qed.

Lemma bind_at {A B} (m1 m2 : @M World Exn A) (k : A -> @M World Exn B) s :
  m1 s = m2 s -> bind m1 k s = bind m2 k s.
Proof. intros H. unfold bind. now rewrite H. Qed.

Lemma undo_once_total s : undo_once cmd_undo s <> Timeout.
Proof.
  unfold undo_once. destruct (pop (undoStack s)) as [[c|] rest]; [|easy].
  now destruct (cmd_undo c (world s)).
Qed.

Lemma redo_once_total s : redo_once cmd_execute s <> Timeout.
Proof.
  unfold redo_once. destruct (pop (redoStack s)) as [[c|] rest]; [|easy].
  now destruct (cmd_execute c (world s)).
Qed.

Lemma undo_1_total s : undo cmd_undo 1 1 s <> Timeout.
Proof.
  destruct (enabled s) eqn:He.
  - rewrite undo_one by assumption. apply undo_once_total.
  - now rewrite undo_disabled.
Qed.

Lemma redo_1_total s : redo cmd_execute 1 1 s <> Timeout.
Proof.
  destruct (enabled s) eqn:He.
  - rewrite redo_one by assumption. apply redo_once_total.
  - now rewrite redo_disabled.
Qed.

Lemma times_total {A} n (m : @M World Exn A) :
  (forall s, m s <> Timeout) -> forall s, times n m s <> Timeout.
Proof.
  intros Hm. induction n as [|n IH]; intros s; [easy|].
  rewrite times_S. specialize (Hm s). destruct (m s); [apply IH|easy|easy].
Qed.

Lemma jump_spec_total target s :
  jump_spec cmd_execute cmd_undo target s <> Timeout.
Proof.
  unfold jump_spec. rewrite bind_get. unfold bind.
  match goal with
  | |- context [match ?m s with _ => _ end] =>
      assert (Hm : m s <> Timeout); [|now destruct (m s)]
  end.
  destruct (top (undoStack s)) as [c|];
    [destruct (js_gt target (cmd_id s c))|];
    apply times_total; auto using undo_1_total, redo_1_total.
Qed.

(** C3. On an enabled engine, [jump(targetId)] with fuel for the length
    of both stacks does not hang and is the walk of the specification: if
    [undoStack] is empty or [targetId] is greater than the id on its top,
    one single-step [redo()] after the other until the command just
    redone has an id at least [targetId] or [redoStack] is exhausted;
    otherwise one single-step [undo()] after the other until the top of
    [undoStack] has id [targetId] or [undoStack] is exhausted; then one
    'stack:changed'. When [targetId] is the id on top of [undoStack], the
    call changes nothing and sends that one notification only. *)
Theorem jump_walks_to_target fuel target s :
  enabled s = true ->
  (length (undoStack s) + length (redoStack s) <= fuel)%nat ->
  jump cmd_execute cmd_undo fuel target s =
    jump_spec cmd_execute cmd_undo target s /\
  jump cmd_execute cmd_undo fuel target s <> Timeout /\
  (forall c,
      top (undoStack s) = Some c -> cmd_id s c = Some target ->
      jump cmd_execute cmd_undo fuel target s =
        Ok tt (note (StackChanged (undoStack s) (redoStack s)) s)).
Proof.
  intros He Hf.
  assert (Heq : jump cmd_execute cmd_undo fuel target s =
                jump_spec cmd_execute cmd_undo target s).
  { unfold jump, jump_spec. rewrite !bind_get, He. cbn [negb].
    apply bind_at.
    assert (Hredo :
      bind (redo cmd_execute (S fuel) 1) (jump_redo_loop cmd_execute fuel target) s =
      times (redo_calls target (stack_ids s (reverse (redoStack s))))
            (redo cmd_execute 1 1) s).
    { unfold bind. rewrite redo_one by assumption.
      apply jump_redo_walk; [assumption|lia]. }
    destruct (snoc_cases (undoStack s)) as [Hu|(rest & c & Hu)].
    - rewrite Hu. exact Hredo.
    - rewrite Hu, nonempty_push, top_push. rewrite <- Hu.
      destruct (js_gt target (cmd_id s c)); [exact Hredo|].
      apply jump_undo_walk; [assumption|lia]. }
  split; [exact Heq|]. split.
  - rewrite Heq. apply jump_spec_total.
  - intros c Ht Hc. rewrite Heq. unfold jump_spec. rewrite bind_get, Ht, Hc.
    unfold js_gt. rewrite Z.gtb_ltb, Z.ltb_irrefl.
    apply top_Some in Ht as (rest & Hu).
    rewrite Hu at 1. rewrite reverse_push. cbn [stack_ids map undo_calls].
    rewrite Hc. unfold js_eq. rewrite Z.eqb_refl. reflexivity.
Qed.


(** *** Identities along the chain *)

Lemma StronglySorted_sublist {A} (R : relation A) (l1 l2 : list A) :
  l1 `sublist_of` l2 -> StronglySorted R l2 -> StronglySorted R l1.
Proof.
  induction 1 as [|x l1 l2 Hs IH|x l1 l2 Hs IH]; intros H.
  - constructor.
  - apply StronglySorted_cons in H as [Hx H]. constructor; [now apply IH|].
    rewrite Forall_forall in *. intros y Hy. apply Hx.
    now apply (elem_of_sublist l1).
  - apply StronglySorted_cons in H as [_ H]. now apply IH.
Qed.

Lemma sublist_map {A B} (f : A -> B) (l1 l2 : list A) :
  l1 `sublist_of` l2 -> map f l1 `sublist_of` map f l2.
Proof. induction 1; simpl; now constructor. Qed.

Lemma shrinks_refl s : shrinks s s.
Proof. now repeat split. Qed.

Lemma shrinks_trans s1 s2 s3 : shrinks s1 s2 -> shrinks s2 s3 -> shrinks s1 s3.
Proof.
  intros (A1 & B1 & C1) (A2 & B2 & C2). repeat split; try congruence.
  now transitivity (chain s2).
Qed.

Lemma well_numbered_shrinks s s' :
  well_numbered s -> shrinks s s' -> well_numbered s'.
Proof.
  intros (Hs & Hi & Hb) (Hc & Hn & Hl). repeat split.
  - rewrite (stack_ids_cmds _ _ _ Hc).
    apply (StronglySorted_sublist _ _ (stack_ids s (chain s))); [|assumption].
    unfold stack_ids. now apply sublist_map.
  - intros c Hin. rewrite (cmd_id_cmds _ _ _ Hc). apply Hi.
    now apply (elem_of_sublist (chain s')).
  - intros c k Hk. rewrite (cmd_id_cmds _ _ _ Hc) in Hk. rewrite Hn. eauto.
Qed.

Lemma shrinking_ret {A} (a : A) : Shrinking (@ret World Exn A a).
Proof. intros s s' [= <-]. apply shrinks_refl. Qed.

Lemma shrinking_get : Shrinking (@get World Exn).
Proof. intros s s' [= <-]. apply shrinks_refl. Qed.

Lemma shrinking_timeout {A} : Shrinking (@timeout World Exn A).
Proof. intros s s' [=]. Qed.

Lemma shrinking_bind {A B} (m : @M World Exn A) (k : A -> @M World Exn B) :
  Shrinking m -> (forall a, Shrinking (k a)) -> Shrinking (bind m k).
Proof.
  intros Hm Hk s s' H. unfold bind in H.
  destruct (m s) as [a s1|e s1|] eqn:E.
  - apply (shrinks_trans _ s1); [apply Hm; now rewrite E|now apply (Hk a)].
  - apply Hm. now rewrite E.
  - discriminate.
Qed.

Lemma shrinks_note e s : shrinks s (note e s).
Proof.
  unfold shrinks, chain.
  now rewrite note_cmds, note_idCounter, note_undoStack, note_redoStack.
Qed.

Lemma shrinking_emit e : Shrinking (@emit World Exn e).
Proof. intros s s' [= <-]. apply shrinks_note. Qed.

Lemma shrinking_emit_stack_changed : Shrinking (@emit_stack_changed World Exn).
Proof.
  apply shrinking_bind; [apply shrinking_get|]. intros s. apply shrinking_emit.
Qed.

Lemma shrinking_undo_body step command :
  Shrinking (undo_body cmd_undo step command).
Proof.
  intros s s' H.
  destruct (snoc_cases (undoStack s)) as [Hu|(rest & c & Hu)].
  - rewrite undo_body_empty in H by assumption. injection H as <-.
    apply shrinks_refl.
  - rewrite (undo_body_push _ _ _ _ _ Hu) in H.
    destruct (cmd_undo c (world s)) as [w|e w]; injection H as <-.
    + destruct (undone_fields c rest w s)
        as (U1 & U2 & U3 & U4 & U5 & U6 & U7 & _).
      unfold shrinks, chain. rewrite U1, U2, U6, U7, Hu, reverse_push.
      repeat split. unfold push. now rewrite <- app_assoc.
    + unfold shrinks, chain. simpl. rewrite Hu. repeat split.
      apply sublist_app; [apply sublist_inserts_r|]; reflexivity.
Qed.

Lemma shrinking_redo_body step command :
  Shrinking (redo_body cmd_execute step command).
Proof.
  intros s s' H.
  destruct (snoc_cases (redoStack s)) as [Hu|(rest & c & Hu)].
  - rewrite redo_body_empty in H by assumption. injection H as <-.
    apply shrinks_refl.
  - rewrite (redo_body_push _ _ _ _ _ Hu) in H.
    destruct (cmd_execute c (world s)) as [w|e w]; injection H as <-.
    + destruct (redone_fields c rest w s)
        as (U1 & U2 & U3 & U4 & U5 & U6 & U7 & _).
      unfold shrinks, chain. rewrite U1, U2, U6, U7, Hu, reverse_push.
      repeat split. unfold push. now rewrite <- app_assoc.
    + unfold shrinks, chain. simpl. rewrite Hu, reverse_push. repeat split.
      apply sublist_app; [reflexivity|]. now apply sublist_cons.
Qed.

Lemma shrinking_undo_loop fuel step command :
  Shrinking (undo_loop cmd_undo fuel step command).
Proof.
  revert step command. induction fuel as [|fuel IH]; intros step command;
    simpl; destruct (step =? 0);
    try apply shrinking_ret; try apply shrinking_timeout.
  apply shrinking_bind; [apply shrinking_undo_body|]. intros [step' command'].
  apply IH.
Qed.

Lemma shrinking_redo_loop fuel step command :
  Shrinking (redo_loop cmd_execute fuel step command).
Proof.
  revert step command. induction fuel as [|fuel IH]; intros step command;
    simpl; destruct (step =? 0);
    try apply shrinking_ret; try apply shrinking_timeout.
  apply shrinking_bind; [apply shrinking_redo_body|]. intros [step' command'].
  apply IH.
Qed.

Lemma shrinking_undo fuel step : Shrinking (undo cmd_undo fuel step).
Proof.
  apply shrinking_bind; [apply shrinking_get|]. intros s.
  destruct (negb (enabled s)); [apply shrinking_ret|].
  apply shrinking_bind; [apply shrinking_undo_loop|]. intros [step' command].
  apply shrinking_bind; [apply shrinking_emit|]. intros _. apply shrinking_ret.
Qed.

Lemma shrinking_redo fuel step : Shrinking (redo cmd_execute fuel step).
Proof.
  apply shrinking_bind; [apply shrinking_get|]. intros s.
  destruct (negb (enabled s)); [apply shrinking_ret|].
  apply shrinking_bind; [apply shrinking_redo_loop|]. intros [step' command].
  apply shrinking_bind; [apply shrinking_emit|]. intros _. apply shrinking_ret.
Qed.

Lemma shrinking_jump_redo_loop fuel target command :
  Shrinking (jump_redo_loop cmd_execute fuel target command).
Proof.
  revert command. induction fuel as [|fuel IH]; intros command; simpl;
    (apply shrinking_bind; [apply shrinking_get|]); intros s;
    destruct command as [c|]; try apply shrinking_ret;
    destruct (js_gt target (cmd_id s c));
    try apply shrinking_ret; try apply shrinking_timeout.
  apply shrinking_bind; [apply shrinking_redo|]. intros command'. apply IH.
Qed.

Lemma shrinking_jump_undo_loop fuel target :
  Shrinking (jump_undo_loop cmd_undo fuel target).
Proof.
  induction fuel as [|fuel IH]; simpl;
    (apply shrinking_bind; [apply shrinking_get|]); intros s;
    destruct (top (undoStack s)) as [c|]; try apply shrinking_ret;
    destruct (js_eq target (cmd_id s c));
    try apply shrinking_ret; try apply shrinking_timeout.
  apply shrinking_bind; [apply shrinking_undo|]. intros _. apply IH.
Qed.

Lemma shrinking_jump fuel target :
  Shrinking (jump cmd_execute cmd_undo fuel target).
Proof.
  apply shrinking_bind; [apply shrinking_get|]. intros s.
  destruct (negb (enabled s)); [apply shrinking_ret|].
  apply shrinking_bind; [|intros _; apply shrinking_emit_stack_changed].
  assert (Hredo : Shrinking
    (bind (redo cmd_execute (S fuel) 1) (jump_redo_loop cmd_execute fuel target))).
  { apply shrinking_bind; [apply shrinking_redo|]. intros c.
    apply shrinking_jump_redo_loop. }
  destruct (if (0 <? length (undoStack s))%nat then top (undoStack s) else None)
    as [c|]; [|exact Hredo].
  destruct (js_gt target (cmd_id s c)); [exact Hredo|].
  apply shrinking_jump_undo_loop.
Qed.


Lemma well_numbered_new enabled0 stackSize0 (w : World) :
  well_numbered (new_History enabled0 stackSize0 w).
Proof.
  repeat split.
  - constructor.
  - intros c Hc. now apply elem_of_nil in Hc.
  - intros c k. unfold cmd_id, cmd_of. simpl. now rewrite lookup_empty.
Qed.

Lemma shift_sublist (l : list CmdRef) : shift l `sublist_of` l.
Proof. destruct l; [reflexivity|]. now apply sublist_cons. Qed.

(** [execute] on a command that [undoStack] does not hold yet. *)
Lemma execute_well_numbered s c needExecute now s' :
  well_numbered s -> c ∉ undoStack s ->
  execute cmd_execute c needExecute now s = Ok tt s' ->
  well_numbered s'.
Proof.
  intros (Hs & Hi & Hb) Hc He.
  pose proof (execute_outcome s c needExecute now) as Ho. rewrite He in Ho.
  destruct Ho as (Hu & Hr & Hn & Hid & _ & _ & _ & _ & _ & Hothers & _).
  unfold undoStack_after_execute in Hu.
  set (kept := if Z.of_nat (length (undoStack s)) >? stackSize s
               then shift (undoStack s) else undoStack s) in *.
  assert (Hk : kept `sublist_of` undoStack s).
  { unfold kept. destruct (_ >? _); [apply shift_sublist|reflexivity]. }
  assert (Hkc : kept `sublist_of` chain s)
    by (unfold chain; now apply sublist_inserts_r).
  assert (Hsame : forall c', c' ∈ kept -> cmd_id s' c' = cmd_id s c').
  { intros c' Hin. unfold cmd_id, cmd_of. rewrite Hothers; [reflexivity|].
    intros ->. apply Hc. now apply (elem_of_sublist kept). }
  assert (Hids : stack_ids s' kept = stack_ids s kept).
  { unfold stack_ids. apply map_ext_in. intros c' Hin. apply Hsame.
    now apply list_elem_of_In. }
  assert (Hchain : chain s' = kept ++ [c]).
  { unfold chain. rewrite Hu, Hr. unfold push. now rewrite app_nil_r. }
  repeat split.
  - rewrite Hchain. unfold stack_ids. rewrite map_app. fold (stack_ids s' kept).
    rewrite Hids. apply StronglySorted_app. repeat split.
    + intros x1 x2 H1 H2. cbn [map] in H2.
      apply list_elem_of_singleton in H2 as ->. rewrite Hid.
      apply list_elem_of_In, in_map_iff in H1 as (c' & <- & Hin).
      apply list_elem_of_In in Hin.
      destruct (Hi c') as [k Hk'];
        [now apply (elem_of_sublist kept)|].
      rewrite Hk'. simpl. specialize (Hb _ _ Hk'). lia.
    + apply (StronglySorted_sublist _ _ (stack_ids s (chain s))); [|assumption].
      now apply sublist_map.
    + repeat constructor.
  - intros c' Hin. rewrite Hchain in Hin.
    apply elem_of_app in Hin as [Hin|Hin].
    + rewrite Hsame by assumption. apply Hi. now apply (elem_of_sublist kept).
    + apply list_elem_of_singleton in Hin as ->. rewrite Hid. eauto.
  - intros c' k Hk'. rewrite Hn.
    destruct (decide (c' = c)) as [->|Hne].
    + rewrite Hid in Hk'. injection Hk' as <-. lia.
    + unfold cmd_id, cmd_of in Hk'. rewrite Hothers in Hk' by assumption.
      specialize (Hb c' k Hk'). lia.
Qed.

Lemma well_numbered_call s fuel op s' :
  well_numbered s ->
  fresh_execute s op (perform cmd_execute cmd_undo fuel op s) ->
  after (perform cmd_execute cmd_undo fuel op s) = Some s' ->
  well_numbered s'.
Proof.
  intros Hw Hf Ha. destruct op; cbn [perform fresh_execute] in *.
  - destruct Hf as [Hc Hr].
    destruct (execute cmd_execute command needExecute now s) as [[] s1| |] eqn:E;
      try discriminate.
    injection Ha as <-. now apply (execute_well_numbered s command needExecute now).
  - apply (well_numbered_shrinks s); [assumption|]. revert Ha.
    apply shrinking_bind; [apply shrinking_undo|intros; apply shrinking_ret].
  - apply (well_numbered_shrinks s); [assumption|]. revert Ha.
    apply shrinking_bind; [apply shrinking_redo|intros; apply shrinking_ret].
  - apply (well_numbered_shrinks s); [assumption|]. revert Ha.
    apply shrinking_jump.
  - injection Ha as <-. exact Hw.
  - injection Ha as <-. exact Hw.
  - injection Ha as <-. exact Hw.
  - injection Ha as <-. exact Hw.
  - apply (well_numbered_shrinks s); [assumption|].
    unfold dispose in Ha. revert Ha. run_m. intros [= <-].
    unfold shrinks, chain.
    rewrite !note_cmds, !note_idCounter, !note_undoStack, !note_redoStack. simpl.
    repeat split. apply sublist_nil_l.
Qed.

(** C9, as the engine has it. In every state reached from a new engine
    by calls of [execute], [undo], [redo], [jump] (and the setters) in
    which each [execute] is handed a command object that [undoStack] does
    not hold at that moment and returns, the ids on [undoStack] read from
    index 0 are there and strictly increasing, no command object carries
    an id above [idCounter], and the next [execute] stamps its command
    with [idCounter + 1], above every id carried so far. *)
Theorem ids_increase_when_commands_are_fresh s :
  run cmd_execute cmd_undo fresh_execute s ->
  ids_increasing s /\
  (forall c, c ∈ undoStack s -> is_Some (cmd_id s c)) /\
  ids_bounded s /\
  (forall c needExecute now s',
      after (execute cmd_execute c needExecute now s) = Some s' ->
      cmd_id s' c = Some (idCounter s + 1) /\
      idCounter s' = idCounter s + 1 /\
      (forall c' k, cmd_id s c' = Some k -> k < idCounter s + 1)).
Proof.
  intros Hrun.
  assert (Hw : well_numbered s).
  { induction Hrun as [e n w|s fuel op s' _ IH Hf Ha].
    - apply well_numbered_new.
    - now apply (well_numbered_call s fuel op). }
  destruct Hw as (Hs & Hi & Hb).
  split; [|split; [|split; [exact Hb|]]].
  - unfold ids_increasing. unfold chain, stack_ids in Hs.
    rewrite map_app in Hs. now apply StronglySorted_app_1_l in Hs.
  - intros c Hc. apply Hi. unfold chain. apply elem_of_app. now left.
  - intros c needExecute now s' Ha.
    pose proof (execute_outcome s c needExecute now) as Ho.
    assert (Hlt : forall c' k, cmd_id s c' = Some k -> k < idCounter s + 1).
    { intros c' k Hk. specialize (Hb _ _ Hk). lia. }
    destruct (execute cmd_execute c needExecute now s); try discriminate;
      injection Ha as <-; repeat split; tauto.
Qed.


Lemma run_perform_all fuel ops s s' :
  run cmd_execute cmd_undo any_call s ->
  perform_all cmd_execute cmd_undo fuel ops s = Ok tt s' ->
  run cmd_execute cmd_undo any_call s'.
Proof.
  revert s. induction ops as [|op ops IH]; intros s Hr H.
  - now injection H as <-.
  - cbn [perform_all] in H. unfold bind in H.
    destruct (perform cmd_execute cmd_undo fuel op s) as [[] s1| |] eqn:E;
      try discriminate.
    apply (IH s1); [|assumption].
    apply (run_call _ _ _ s fuel op); [assumption|exact I|now rewrite E].
Qed.

Lemma run_checked_run fuel ops s s' :
  run cmd_execute cmd_undo fresh_execute s ->
  checked_run cmd_execute cmd_undo fuel ops s = Some s' ->
  run cmd_execute cmd_undo fresh_execute s'.
Proof.
  revert s. induction ops as [|op ops IH]; intros s Hr H.
  - now injection H as <-.
  - cbn [checked_run] in H.
    destruct (perform cmd_execute cmd_undo fuel op s) as [[] s1| |] eqn:E;
      try discriminate.
    match type of H with (if ?b then _ else _) = _ => destruct b eqn:Hb end;
      [|discriminate].
    apply (IH s1); [|assumption].
    apply (run_call _ _ _ s fuel op); [assumption| |now rewrite E].
    rewrite E. destruct op; try exact I.
    split; [now apply bool_decide_eq_true in Hb|reflexivity].
Qed.

End Properties.

(** ** The claims on the small scene *)

(** C1. With capacity 3, after the four calls [execute(A)], ...,
    [execute(D)] all four commands are on [undoStack]: A is not evicted
    and the length exceeds the capacity. *)
Theorem four_commands_on_capacity_three :
  returned (perform_all Demo.cmd_execute Demo.cmd_undo 8 Demo.abcd Demo.fresh) = true /\
  undoStack Demo.applied = [1; 2; 3; 4]%nat /\
  redoStack Demo.applied = [] /\
  stack_ids Demo.applied (undoStack Demo.applied) =
    [Some 1; Some 2; Some 3; Some 4] /\
  stackSize Demo.applied = 3 /\
  ~ within_capacity Demo.applied.
Proof.
  repeat split; try (vm_compute; reflexivity).
  unfold within_capacity. vm_compute. intros H. now apply H.
Qed.

(** C5 fails as stated: with D and C waiting on [redoStack], a call
    [execute(c, true)] whose command raises in its own [execute()] ends
    before [redoStack] is cleared, and D and C are still there. *)
Lemma raising_execute_keeps_redoStack :
  ~ redoStack_empty_after_execute Demo.cmd_execute 13 true 0 Demo.halfway.
Proof.
  intros H. unfold redoStack_empty_after_execute in H.
  destruct (execute Demo.cmd_execute 13 true 0 Demo.halfway)
    as [[] s'|e s'|] eqn:E.
  - vm_compute in E. discriminate.
  - specialize (H s' eq_refl).
    vm_compute in E. injection E as <- <-.
    vm_compute in H. discriminate.
  - vm_compute in E. discriminate.
Qed.

(** C2 fails as stated: [undo(3)] on an engine with nothing to undo
    leaves all three steps unsatisfied, and the notification says 0. *)
Lemma undo_step_count_is_not_the_shortfall :
  ~ reports_unsatisfied_steps Demo.cmd_undo 3 3 (Demo.state_after [CallInstall] Demo.fresh).
Proof.
  intros H.
  destruct (undo Demo.cmd_undo 3 3 (Demo.state_after [CallInstall] Demo.fresh))
    as [command s'| |] eqn:E; try (vm_compute in E; discriminate).
  specialize (H command s' E).
  vm_compute in E. injection E as <- <-.
  vm_compute in H. discriminate.
Qed.

(** [undo(3)] after A, B, C, D: three commands move, the count sent is 0. *)
Lemma undo_notifies_step_zero_witness :
  match undo Demo.cmd_undo 3 3 Demo.applied with
  | Ok command s' =>
      exists moved evs,
        undoStack Demo.applied = undoStack s' ++ moved /\
        redoStack s' = redoStack Demo.applied ++ reverse moved /\
        (length moved <=
           Nat.min (Z.to_nat 3) (length (undoStack Demo.applied)))%nat /\
        (3 <= max_exact_step ->
         length moved =
           Nat.min (Z.to_nat 3) (length (undoStack Demo.applied))) /\
        command = head moved /\
        forallb is_StackChanged evs = true /\
        emitted s' =
          emitted Demo.applied ++ evs ++ [HistoryUndo 0 command]
  | Throw _ _ => True
  | Timeout => max_exact_step < 3
  end.
Proof.
  apply (undo_notifies_step_zero Demo.cmd_undo 3 3 Demo.applied);
    [reflexivity | reflexivity | lia | simpl; lia].
Defined.

(** C4 fails as stated: with nothing to undo and command A waiting on
    [redoStack], [undo()] does nothing and [redo()] then puts A onto
    [undoStack], although A's [undo] and [execute] cancel each other. *)
Lemma undo_redo_does_not_restore_empty_undoStack :
  ~ undo_redo_restores Demo.cmd_execute Demo.cmd_undo 1 Demo.all_undone.
Proof.
  intros H.
  assert (Hinv : forall c, c ∈ undoStack Demo.all_undone ++ redoStack Demo.all_undone ->
                           true_inverses Demo.cmd_execute Demo.cmd_undo c).
  { intros c Hc. change (c ∈ [1%nat]) in Hc.
    apply list_elem_of_singleton in Hc as ->.
    intros w. split; eexists; (split; [reflexivity|]);
      unfold Demo.cmd_execute, Demo.cmd_undo; simpl; f_equal; lia. }
  specialize (H Hinv).
  destruct (undo Demo.cmd_undo 1 1 Demo.all_undone)
    as [r1 s1| |] eqn:E1; try (vm_compute in E1; discriminate).
  destruct (redo Demo.cmd_execute 1 1 s1)
    as [r2 s2| |] eqn:E2;
    try (vm_compute in E1; injection E1 as <- <-; vm_compute in E2; discriminate).
  specialize (H r1 s1 r2 s2 eq_refl E2).
  vm_compute in E1. injection E1 as <- <-.
  vm_compute in E2. injection E2 as <- <-.
  vm_compute in H. discriminate.
Qed.

(** [undo()] then [redo()] after A, B, C, D. *)
Lemma undo_then_redo_restores_undoStack_witness :
  exists r1 s1 r2 s2,
    undo Demo.cmd_undo 1 1 Demo.applied = Ok r1 s1 /\
    redo Demo.cmd_execute 1 1 s1 = Ok r2 s2 /\
    r2 = r1 /\
    undoStack s2 = undoStack Demo.applied /\
    redoStack s2 = redoStack Demo.applied /\
    cmds s2 = cmds Demo.applied /\ world s2 = world Demo.applied.
Proof.
  apply (undo_then_redo_restores_undoStack Demo.cmd_execute Demo.cmd_undo 0
           Demo.applied).
  - left. vm_compute. discriminate.
  - intros c Hc. vm_compute in Hc. injection Hc as <-.
    intros w. split; eexists; (split; [reflexivity|]);
      unfold Demo.cmd_execute, Demo.cmd_undo; simpl; f_equal; lia.
Defined.

(** [jump(4)] from [undoStack = [A, B]], [redoStack = [D, C]]. *)
Lemma jump_walks_to_target_witness :
  jump Demo.cmd_execute Demo.cmd_undo 8 4 Demo.halfway =
    jump_spec Demo.cmd_execute Demo.cmd_undo 4 Demo.halfway /\
  jump Demo.cmd_execute Demo.cmd_undo 8 4 Demo.halfway <> Timeout /\
  (forall c,
      top (undoStack Demo.halfway) = Some c ->
      cmd_id Demo.halfway c = Some 4 ->
      jump Demo.cmd_execute Demo.cmd_undo 8 4 Demo.halfway =
        Ok tt (note (StackChanged (undoStack Demo.halfway)
                                  (redoStack Demo.halfway)) Demo.halfway)).
Proof.
  apply (jump_walks_to_target Demo.cmd_execute Demo.cmd_undo 8 4 Demo.halfway);
    [reflexivity | vm_compute; lia].
Defined.


(** The engine disabled after A, B, C, D. *)
Lemma disabled_gates_all_but_execute_witness :
  (forall fuel step,
      undo Demo.cmd_undo fuel step (set_enabled false Demo.applied) =
        Ok None (set_enabled false Demo.applied)) /\
  (forall fuel step,
      redo Demo.cmd_execute fuel step (set_enabled false Demo.applied) =
        Ok None (set_enabled false Demo.applied)) /\
  (forall fuel target,
      jump Demo.cmd_execute Demo.cmd_undo fuel target
           (set_enabled false Demo.applied) =
        Ok tt (set_enabled false Demo.applied)) /\
  (forall c needExecute now flag,
      execute Demo.cmd_execute c needExecute now
              (set_enabled flag (set_enabled false Demo.applied)) =
        on_state (set_enabled flag)
          (execute Demo.cmd_execute c needExecute now
                   (set_enabled false Demo.applied))).
Proof.
  apply (disabled_gates_all_but_execute Demo.cmd_execute Demo.cmd_undo
           (set_enabled false Demo.applied)).
  reflexivity.
Defined.

(** C9 fails as stated: after [execute(c)] twice on the same command
    object, [undoStack] holds that object twice and reads the ids 2, 2. *)
Lemma same_command_twice_breaks_id_order :
  ~ (forall s, run Demo.cmd_execute Demo.cmd_undo any_call s -> ids_increasing s).
Proof.
  intros H. specialize (H Demo.twice).
  assert (Hr : run Demo.cmd_execute Demo.cmd_undo any_call Demo.twice).
  { apply (run_perform_all Demo.cmd_execute Demo.cmd_undo 8
             [CallExecute 1 true 0; CallExecute 1 true 0] Demo.fresh);
      [apply run_new|vm_compute; reflexivity]. }
  specialize (H Hr). unfold ids_increasing in H.
  change (StronglySorted id_lt [Some 2; Some 2]) in H.
  apply StronglySorted_cons in H as [H _].
  apply Forall_cons in H as [H _]. simpl in H. lia.
Qed.

(** A session of distinct commands with undo, jump and redo in it. *)
Lemma ids_increase_when_commands_are_fresh_witness :
  ids_increasing (Demo.state_after Demo.session Demo.fresh) /\
  (forall c, c ∈ undoStack (Demo.state_after Demo.session Demo.fresh) ->
             is_Some (cmd_id (Demo.state_after Demo.session Demo.fresh) c)) /\
  ids_bounded (Demo.state_after Demo.session Demo.fresh) /\
  (forall c needExecute now s',
      after (execute Demo.cmd_execute c needExecute now
               (Demo.state_after Demo.session Demo.fresh)) = Some s' ->
      cmd_id s' c = Some (idCounter (Demo.state_after Demo.session Demo.fresh) + 1) /\
      idCounter s' = idCounter (Demo.state_after Demo.session Demo.fresh) + 1 /\
      (forall c' k, cmd_id (Demo.state_after Demo.session Demo.fresh) c' = Some k ->
                    k < idCounter (Demo.state_after Demo.session Demo.fresh) + 1)).
Proof.
  apply (ids_increase_when_commands_are_fresh Demo.cmd_execute Demo.cmd_undo).
  apply (run_checked_run Demo.cmd_execute Demo.cmd_undo 8 Demo.session Demo.fresh);
    [apply run_new | vm_compute; reflexivity].
Defined.

(** C10 fails as stated: [step = 9007199254740996], which is
    [2^53 + 4], is a double that [--step] leaves as it is, since
    [2^53 + 3] lies half way between the doubles [2^53 + 2] and
    [2^53 + 4] and the tie goes to the even significand. On a new engine
    the loops of [undo] and [redo] then never get to their end, whatever
    the number of turns. *)
Lemma counter_above_2_53_stops_counting :
  ~ loops_terminate Demo.cmd_execute Demo.cmd_undo 9007199254740996 Demo.fresh.
Proof.
  intros H. destruct H as (fuel & Hu & _); [lia|].
  apply Hu. apply undo_loop_empty; [reflexivity|].
  apply undo_loop_stuck. unfold max_exact_step. lia.
Qed.

(** The loops from [step = 2], from [step = -1] and from
    [step = 2^53 + 4]. *)
Lemma counting_loops_terminate_iff_nonnegative_witness :
  (js_dec 2 = 2 - 1 /\
   undo_loop Demo.cmd_undo 3 2 None Demo.applied =
     turns (Z.to_nat 2) (undo_body Demo.cmd_undo) 2 None Demo.applied /\
   undo_loop Demo.cmd_undo 3 2 None Demo.applied <> Timeout /\
   redo_loop Demo.cmd_execute 3 2 None Demo.applied =
     turns (Z.to_nat 2) (redo_body Demo.cmd_execute) 2 None Demo.applied /\
   redo_loop Demo.cmd_execute 3 2 None Demo.applied <> Timeout) /\
  (returned (undo_loop Demo.cmd_undo 3 (-1) None Demo.applied) = false /\
   returned (redo_loop Demo.cmd_execute 3 (-1) None Demo.applied) = false /\
   (enabled Demo.applied = true ->
    returned (undo Demo.cmd_undo 3 (-1) Demo.applied) = false /\
    returned (redo Demo.cmd_execute 3 (-1) Demo.applied) = false) /\
   (undoStack Demo.applied = [] ->
    undo_loop Demo.cmd_undo 3 (-1) None Demo.applied = Timeout) /\
   (redoStack Demo.applied = [] ->
    redo_loop Demo.cmd_execute 3 (-1) None Demo.applied = Timeout)) /\
  (returned (undo_loop Demo.cmd_undo 3 9007199254740996 None Demo.applied) = false /\
   returned (redo_loop Demo.cmd_execute 3 9007199254740996 None Demo.applied) = false /\
   (enabled Demo.applied = true ->
    returned (undo Demo.cmd_undo 3 9007199254740996 Demo.applied) = false /\
    returned (redo Demo.cmd_execute 3 9007199254740996 Demo.applied) = false) /\
   (undoStack Demo.applied = [] ->
    undo_loop Demo.cmd_undo 3 9007199254740996 None Demo.applied = Timeout) /\
   (redoStack Demo.applied = [] ->
    redo_loop Demo.cmd_execute 3 9007199254740996 None Demo.applied = Timeout)).
Proof.
  split; [|split].
  - split.
    + apply (proj1 (proj2 (proj2 (counting_loops_terminate_iff_nonnegative
               Demo.cmd_execute Demo.cmd_undo 3 2 None Demo.applied)))).
      unfold max_exact_step. lia.
    + apply (proj1 (proj2 (proj2 (proj2 (counting_loops_terminate_iff_nonnegative
               Demo.cmd_execute Demo.cmd_undo 3 2 None Demo.applied)))));
        [unfold max_exact_step; lia | simpl; lia].
  - apply (proj2 (proj2 (proj2 (proj2 (counting_loops_terminate_iff_nonnegative
             Demo.cmd_execute Demo.cmd_undo 3 (-1) None Demo.applied))))).
    left. lia.
  - apply (proj2 (proj2 (proj2 (proj2 (counting_loops_terminate_iff_nonnegative
             Demo.cmd_execute Demo.cmd_undo 3 9007199254740996 None
             Demo.applied))))).
    right. unfold max_exact_step. lia.
Defined.


(** ** Further properties of the engine *)

Section Sessions.
Context {World Exn : Type}.
Variable cmd_execute : CmdRef -> World -> @Effect World Exn.
Variable cmd_undo : CmdRef -> World -> @Effect World Exn.

Abbreviation State := (@State World).

Implicit Types (s : State) (c : CmdRef) (fuel : nat) (step target now : Z).

Set Default Proof Using "Type".

(** *** Relations kept along a call *)

Section AlongRelation.
Variable R : State -> State -> Prop.
Hypothesis R_refl : forall s, R s s.
Hypothesis R_trans : forall s1 s2 s3, R s1 s2 -> R s2 s3 -> R s1 s3.

Lemma along_ret {A} (a : A) : Along R (@ret World Exn A a).
Proof using R_refl. intros s s' [= <-]. apply R_refl. Qed.

Lemma along_get : Along R (@get World Exn).
Proof using R_refl. intros s s' [= <-]. apply R_refl. Qed.

Lemma along_timeout {A} : Along R (@timeout World Exn A).
Proof. intros s s' [=]. Qed.

Lemma along_modify (f : State -> State) :
  (forall s, R s (f s)) -> Along R (@modify World Exn f).
Proof. intros H s s' [= <-]. apply H. Qed.

Lemma along_call (f : CmdRef -> World -> @Effect World Exn) c :
  (forall w s, R s (set_world w s)) -> Along R (call f c).
Proof.
  intros H s s' Ha. unfold call in Ha.
  destruct (f c (world s)); injection Ha as <-; apply H.
Qed.

Lemma along_bind {A B} (m : @M World Exn A) (k : A -> @M World Exn B) :
  Along R m -> (forall a, Along R (k a)) -> Along R (bind m k).
Proof using R_trans.
  intros Hm Hk s s' H. unfold bind in H.
  destruct (m s) as [a s1|e s1|] eqn:E.
  - apply (R_trans _ s1); [apply Hm; now rewrite E|now apply (Hk a)].
  - apply Hm. now rewrite E.
  - discriminate.
Qed.

Lemma along_times {A} n (m : @M World Exn A) : Along R m -> Along R (times n m).
Proof using R_refl R_trans.
  intros Hm. induction n as [|n IH]; simpl; [apply along_ret|].
  apply along_bind; [assumption|intros _; exact IH].
Qed.
End AlongRelation.

Lemma settings_kept_refl s : settings_kept s s.
Proof. now repeat split. Qed.

Lemma settings_kept_trans s1 s2 s3 :
  settings_kept s1 s2 -> settings_kept s2 s3 -> settings_kept s1 s3.
Proof.
  intros (A1 & B1 & C1 & D1) (A2 & B2 & C2 & D2).
  repeat split; try congruence. now transitivity (emitted s2).
Qed.

Lemma settings_kept_note e s : settings_kept s (note e s).
Proof.
  unfold settings_kept.
  rewrite note_stackSize, note_enabled, note_app, note_emitted.
  repeat split. now apply prefix_app_r.
Qed.

Ltac settings_simple :=
  intros; unfold settings_kept, write_id, write_executed, write_executeTime;
  simpl; repeat split; reflexivity.

Ltac settings_step :=
  first
    [ apply along_ret; apply settings_kept_refl
    | apply along_get; apply settings_kept_refl
    | apply along_timeout
    | apply along_modify; [apply settings_kept_note || settings_simple]
    | apply along_call; settings_simple
    | apply along_bind;
      [apply settings_kept_trans | | intro]
    | match goal with
      | |- Along _ (if ?b then _ else _) => destruct b
      | |- Along _ (match ?x with Some _ => _ | None => _ end) => destruct x
      | |- Along _ (let (_, _) := ?x in _) => destruct x
      | |- Along _ (match ?x with (_, _) => _ end) => destruct x
      end ].

Lemma settings_emit e : Along settings_kept (@emit World Exn e).
Proof. apply along_modify. apply settings_kept_note. Qed.

Lemma settings_emit_stack_changed :
  Along settings_kept (@emit_stack_changed World Exn).
Proof. unfold emit_stack_changed, emit. repeat settings_step. Qed.

Lemma settings_execute c needExecute now :
  Along settings_kept (execute cmd_execute c needExecute now).
Proof.
  unfold execute. repeat (settings_step || apply settings_emit_stack_changed).
Qed.

Lemma settings_undo_body step command :
  Along settings_kept (undo_body cmd_undo step command).
Proof.
  unfold undo_body. repeat (settings_step || apply settings_emit_stack_changed).
Qed.

Lemma settings_redo_body step command :
  Along settings_kept (redo_body cmd_execute step command).
Proof.
  unfold redo_body. repeat (settings_step || apply settings_emit_stack_changed).
Qed.

Lemma settings_undo_loop fuel step command :
  Along settings_kept (undo_loop cmd_undo fuel step command).
Proof.
  revert step command. induction fuel as [|fuel IH]; intros step command;
    simpl; repeat (settings_step || apply settings_undo_body || apply IH).
Qed.

Lemma settings_redo_loop fuel step command :
  Along settings_kept (redo_loop cmd_execute fuel step command).
Proof.
  revert step command. induction fuel as [|fuel IH]; intros step command;
    simpl; repeat (settings_step || apply settings_redo_body || apply IH).
Qed.

Lemma settings_undo fuel step : Along settings_kept (undo cmd_undo fuel step).
Proof.
  unfold undo.
  repeat (settings_step || apply settings_undo_loop || apply settings_emit).
Qed.

Lemma settings_redo fuel step : Along settings_kept (redo cmd_execute fuel step).
Proof.
  unfold redo.
  repeat (settings_step || apply settings_redo_loop || apply settings_emit).
Qed.

Lemma settings_jump_redo_loop fuel target command :
  Along settings_kept (jump_redo_loop cmd_execute fuel target command).
Proof.
  revert command. induction fuel as [|fuel IH]; intros command;
    cbn [jump_redo_loop];
    repeat (apply settings_redo || apply IH || settings_step).
Qed.

Lemma settings_jump_undo_loop fuel target :
  Along settings_kept (jump_undo_loop cmd_undo fuel target).
Proof.
  induction fuel as [|fuel IH]; cbn [jump_undo_loop];
    repeat (apply settings_undo || apply IH || settings_step).
Qed.

Lemma settings_jump fuel target :
  Along settings_kept (jump cmd_execute cmd_undo fuel target).
Proof.
  unfold jump.
  repeat (apply settings_emit_stack_changed
          || apply settings_redo || apply settings_jump_redo_loop
          || apply settings_jump_undo_loop || settings_step).
Qed.

Lemma settings_dispose : Along settings_kept (@dispose World Exn).
Proof.
  unfold dispose.
  repeat (settings_step || apply settings_emit_stack_changed || apply settings_emit).
Qed.

(** *** Round trips of [undo] and [redo] *)

(** X1. A [redo(step)] call with [step >= 0] on an enabled engine with a
    host, when it returns, has moved topmost commands of [redoStack] onto
    [undoStack], top first, [min step length] of them when [step <= 2^53]
    and never more, has left the command objects alone, returns the
    command moved last (none if nothing was moved), and has sent
    'stack:changed' notifications followed by one 'history:redo' whose
    step count is 0, whether or not the stack ran out. *)
Theorem redo_moves fuel step s r s' :
  enabled s = true -> app s = true ->
  0 <= step -> (Z.to_nat step <= fuel)%nat ->
  redo cmd_execute fuel step s = Ok r s' ->
  exists moved evs,
    redoStack s = redoStack s' ++ moved /\
    undoStack s' = undoStack s ++ reverse moved /\
    (length moved <= Nat.min (Z.to_nat step) (length (redoStack s)))%nat /\
    (step <= max_exact_step ->
     length moved = Nat.min (Z.to_nat step) (length (redoStack s))) /\
    r = head moved /\
    cmds s' = cmds s /\
    forallb is_StackChanged evs = true /\
    emitted s' = emitted s ++ evs ++ [HistoryRedo r 0].
Proof.
  intros He Ha Hs Hf H.
  destruct (redo_call_moves cmd_execute fuel step s r s' He H)
    as (n & moved & evs & Hn & M1 & M2 & M3 & M4 & M5 & _ & M7 & M8).
  rewrite Ha in M8. exists moved, evs.
  pose proof (loop_turns_le fuel step n Hs Hn) as Hle.
  repeat split; try assumption; [lia|].
  intros Hb. rewrite loop_turns_exact in Hn by lia.
  injection Hn as <-. exact M3.
Qed.

(** X2. [undo(step)] immediately followed by [redo(step)], both
    returning, puts both stacks back as they were, the same command
    objects in the same order, as long as [undoStack] held at least [step]
    commands. *)
Theorem undo_then_redo_round_trip fuel step s r1 s1 r2 s2 :
  0 <= step -> (Z.to_nat step <= fuel)%nat ->
  (Z.to_nat step <= length (undoStack s))%nat ->
  undo cmd_undo fuel step s = Ok r1 s1 ->
  redo cmd_execute fuel step s1 = Ok r2 s2 ->
  undoStack s2 = undoStack s /\ redoStack s2 = redoStack s /\
  cmds s2 = cmds s.
Proof.
  intros Hs Hf Hl H1 H2.
  destruct (enabled s) eqn:He.
  2:{ rewrite undo_disabled in H1 by assumption. injection H1 as <- <-.
      rewrite redo_disabled in H2 by assumption. now injection H2 as <- <-. }
  apply undo_moves in H1
    as (n & moved & evs & Hn & U1 & U2 & U3 & U4 & U5 & U6 & _); try assumption.
  apply redo_call_moves in H2
    as (n2 & moved2 & evs2 & Hn2 & R1 & R2 & R3 & R4 & R5 & R6 & _);
    [|congruence].
  assert (n2 = n) as -> by congruence.
  pose proof (loop_turns_le fuel step n Hs Hn) as Hle.
  assert (Hlen : length moved2 = length (reverse moved)).
  { rewrite R3, U2, length_app, length_reverse, U3. lia. }
  rewrite U2 in R1. apply app_inj_2 in R1 as [Ha Hb]; [|congruence].
  rewrite R2, <- Hb, reverse_involutive, <- U1. repeat split; congruence.
Qed.

(** X3. The other way round: [redo(step)] immediately followed by
    [undo(step)], both returning, puts both stacks back as they were, as
    long as [redoStack] held at least [step] commands. *)
Theorem redo_then_undo_round_trip fuel step s r1 s1 r2 s2 :
  0 <= step -> (Z.to_nat step <= fuel)%nat ->
  (Z.to_nat step <= length (redoStack s))%nat ->
  redo cmd_execute fuel step s = Ok r1 s1 ->
  undo cmd_undo fuel step s1 = Ok r2 s2 ->
  undoStack s2 = undoStack s /\ redoStack s2 = redoStack s /\
  cmds s2 = cmds s.
Proof.
  intros Hs Hf Hl H1 H2.
  destruct (enabled s) eqn:He.
  2:{ rewrite redo_disabled in H1 by assumption. injection H1 as <- <-.
      rewrite undo_disabled in H2 by assumption. now injection H2 as <- <-. }
  apply redo_call_moves in H1
    as (n & moved & evs & Hn & U1 & U2 & U3 & U4 & U5 & U6 & _); try assumption.
  apply undo_moves in H2
    as (n2 & moved2 & evs2 & Hn2 & R1 & R2 & R3 & R4 & R5 & R6 & _);
    [|congruence].
  assert (n2 = n) as -> by congruence.
  pose proof (loop_turns_le fuel step n Hs Hn) as Hle.
  assert (Hlen : length moved2 = length (reverse moved)).
  { rewrite R3, U2, length_app, length_reverse, U3. lia. }
  rewrite U2 in R1. apply app_inj_2 in R1 as [Ha Hb]; [|congruence].
  rewrite R2, <- Hb, reverse_involutive, <- U1. repeat split; congruence.
Qed.

Lemma undo_turns_empty n step command s :
  undoStack s = [] ->
  turns n (undo_body cmd_undo) step command s =
    Ok (Nat.iter n js_dec step, command) s.
Proof.
  intros He. revert step. induction n as [|n IH]; intros step.
  - reflexivity.
  - cbn [turns]. unfold bind. rewrite undo_body_empty by assumption.
    rewrite IH. now rewrite Nat.iter_succ_r.
Qed.

Lemma redo_turns_empty n step command s :
  redoStack s = [] ->
  turns n (redo_body cmd_execute) step command s =
    Ok (Nat.iter n js_dec step, command) s.
Proof.
  intros He. revert step. induction n as [|n IH]; intros step.
  - reflexivity.
  - cbn [turns]. unfold bind. rewrite redo_body_empty by assumption.
    rewrite IH. now rewrite Nat.iter_succ_r.
Qed.

(** X4. With nothing to undo ([canUndo()] is false), [undo(step)] for any
    [step] from 0 to [2^53] on an enabled engine returns [undefined],
    leaves the whole engine as it is and only sends 'history:undo' with
    step 0 and no command; likewise [redo(step)] when [canRedo()] is
    false. *)
Theorem undo_redo_on_empty_stack fuel step s :
  enabled s = true -> 0 <= step <= max_exact_step ->
  (Z.to_nat step <= fuel)%nat ->
  (canUndo s = false ->
   undo cmd_undo fuel step s = Ok None (note (HistoryUndo 0 None) s)) /\
  (canRedo s = false ->
   redo cmd_execute fuel step s = Ok None (note (HistoryRedo None 0) s)).
Proof.
  intros He Hs Hf. split; intros Hc.
  - assert (Hu : undoStack s = []).
    { unfold canUndo in Hc. destruct (undoStack s); [reflexivity|discriminate]. }
    assert (E : undo_loop cmd_undo fuel step None s =
                Ok (Nat.iter (Z.to_nat step) js_dec step, None) s).
    { rewrite undo_loop_turns by assumption. now apply undo_turns_empty. }
    pose proof (undo_loop_ends_at_zero cmd_undo _ _ _ _ _ _ _ E) as Hz.
    rewrite Hz in E.
    unfold undo, bind at 1, get. rewrite He. simpl. unfold bind at 1.
    now rewrite E.
  - assert (Hu : redoStack s = []).
    { unfold canRedo in Hc. destruct (redoStack s); [reflexivity|discriminate]. }
    assert (E : redo_loop cmd_execute fuel step None s =
                Ok (Nat.iter (Z.to_nat step) js_dec step, None) s).
    { rewrite redo_loop_turns by assumption. now apply redo_turns_empty. }
    pose proof (redo_loop_ends_at_zero cmd_execute _ _ _ _ _ _ _ E) as Hz.
    rewrite Hz in E.
    unfold redo, bind at 1, get. rewrite He. simpl. unfold bind at 1.
    now rewrite E.
Qed.

(** *** Whole sessions *)

(** What every call other than [execute] leaves alone. *)
Lemma perform_keeps fuel op s s' :
  is_execute op = false ->
  after (perform cmd_execute cmd_undo fuel op s) = Some s' ->
  cmds s' = cmds s /\ idCounter s' = idCounter s /\
  chain s' `sublist_of` chain s /\
  stackSize s' = match op with CallSetStackSize n => n | _ => stackSize s end.
Proof.
  intros Hop Ha.
  assert (Hboth : forall m : @M World Exn unit,
             Shrinking m -> Along settings_kept m ->
             after (m s) = Some s' ->
             cmds s' = cmds s /\ idCounter s' = idCounter s /\
             chain s' `sublist_of` chain s /\ stackSize s' = stackSize s).
  { intros m H1 H2 H. destruct (H1 _ _ H) as (? & ? & ?).
    destruct (H2 _ _ H) as (? & _). tauto. }
  destruct op; try discriminate; cbn [perform] in Ha.
  - apply (Hboth _ (shrinking_bind _ _ (shrinking_undo cmd_undo fuel step)
                      (fun _ => shrinking_ret tt))); [|assumption].
    apply along_bind; [apply settings_kept_trans|apply settings_undo|].
    intros _. apply along_ret, settings_kept_refl.
  - apply (Hboth _ (shrinking_bind _ _ (shrinking_redo cmd_execute fuel step)
                      (fun _ => shrinking_ret tt))); [|assumption].
    apply along_bind; [apply settings_kept_trans|apply settings_redo|].
    intros _. apply along_ret, settings_kept_refl.
  - apply (Hboth _ (shrinking_jump cmd_execute cmd_undo fuel target));
      [apply settings_jump|assumption].
  - injection Ha as <-. now repeat split.
  - injection Ha as <-. now repeat split.
  - injection Ha as <-. now repeat split.
  - injection Ha as <-. now repeat split.
  - revert Ha. unfold dispose, bind, modify, emit_stack_changed, emit, get. simpl.
    intros [= <-]. unfold chain.
    rewrite !note_cmds, !note_idCounter, !note_undoStack, !note_redoStack,
      !note_stackSize.
    simpl. repeat split. apply sublist_nil_l.
Qed.

Lemma chain_length s :
  length (chain s) = (length (undoStack s) + length (redoStack s))%nat.
Proof. unfold chain. now rewrite length_app, length_reverse. Qed.

(** X5. As long as [setStackSize] is not called and every [execute]
    returns, the two stacks together never hold more than [stackSize + 1]
    commands (and never more than one when [stackSize] is negative),
    whatever mix of [execute], [undo], [redo], [jump] and [dispose] is
    called. *)
Theorem stacks_hold_at_most_capacity_plus_one s :
  run cmd_execute cmd_undo capacity_fixed s ->
  Z.of_nat (length (undoStack s) + length (redoStack s))
    <= Z.max 1 (stackSize s + 1).
Proof.
  induction 1 as [e n w|s fuel op s' _ IH Hf Ha].
  - simpl. lia.
  - destruct (is_execute op) eqn:Hop.
    + destruct op; try discriminate. cbn [perform capacity_fixed] in *.
      pose proof (execute_outcome cmd_execute s command needExecute now) as Ho.
      destruct (execute cmd_execute command needExecute now s) as [[] s1| |];
        try discriminate.
      injection Ha as <-.
      destruct Ho as (Hu & Hr & _ & _ & _ & Hs & _).
      rewrite Hu, Hr, Hs. unfold undoStack_after_execute.
      rewrite push_length. cbn [length].
      destruct (Z.gtb_spec (Z.of_nat (length (undoStack s))) (stackSize s)).
      * unfold shift. destruct (undoStack s); cbn [tail length] in *; lia.
      * lia.
    + destruct (perform_keeps fuel op s s' Hop Ha) as (_ & _ & Hc & Hs).
      apply sublist_length in Hc. rewrite !chain_length in Hc.
      destruct op; try discriminate; try (rewrite Hs; lia).
      contradiction.
Qed.

(** X6. A series of [execute] calls that all return leaves on
    [undoStack] the newest commands only: what it holds is a suffix of the
    old contents followed by the commands just executed, in that order.
    The capacity is untouched and, after [k >= 1] calls, the length is the
    old length (at least 1) if that already exceeded [stackSize], and
    otherwise the old length plus [k], capped at [stackSize + 1]. *)
Theorem executes_keep_the_newest fuel needExecute now cs s s' :
  perform_all cmd_execute cmd_undo fuel (execute_each needExecute now cs) s
    = Ok tt s' ->
  undoStack s' `suffix_of` undoStack s ++ cs /\
  stackSize s' = stackSize s /\
  (cs <> [] ->
   redoStack s' = [] /\
   Z.of_nat (length (undoStack s')) =
     if Z.of_nat (length (undoStack s)) >? stackSize s
     then Z.max (Z.of_nat (length (undoStack s))) 1
     else Z.min (Z.of_nat (length (undoStack s)) + Z.of_nat (length cs))
                (stackSize s + 1)).
Proof.
  revert s. induction cs as [|c cs IH]; intros s H.
  - injection H as <-. rewrite app_nil_r. now repeat split.
  - cbn [execute_each map perform_all perform] in H. unfold bind in H.
    pose proof (execute_outcome cmd_execute s c needExecute now) as Ho.
    destruct (execute cmd_execute c needExecute now s) as [[] s1| |];
      try discriminate.
    destruct Ho as (Hu & Hr & _ & _ & _ & Hs & _).
    pose proof H as H0.
    apply IH in H as (H1 & H2 & H3).
    unfold undoStack_after_execute in Hu.
    set (kept := if Z.of_nat (length (undoStack s)) >? stackSize s
                 then shift (undoStack s) else undoStack s) in *.
    assert (Hk : kept `suffix_of` undoStack s).
    { unfold kept.
      destruct (Z.of_nat (length (undoStack s)) >? stackSize s); [|reflexivity].
      unfold shift. destruct (undoStack s); [reflexivity|].
      now apply suffix_cons_r. }
    split; [|split; [congruence|intros _]].
    + etransitivity; [exact H1|]. rewrite Hu. unfold push.
      rewrite <- app_assoc. cbn [app]. now apply suffix_app.
    + assert (Hlen : Z.of_nat (length (undoStack s1)) =
                     if Z.of_nat (length (undoStack s)) >? stackSize s
                     then Z.max (Z.of_nat (length (undoStack s))) 1
                     else Z.of_nat (length (undoStack s)) + 1).
      { rewrite Hu, push_length. unfold kept.
        destruct (Z.gtb_spec (Z.of_nat (length (undoStack s))) (stackSize s));
          [|lia].
        unfold shift. destruct (undoStack s); cbn [tail length] in *; lia. }
      destruct cs as [|c' cs].
      * injection H0 as <-. split; [assumption|].
        rewrite Hlen. cbn [length].
        destruct (Z.gtb_spec (Z.of_nat (length (undoStack s))) (stackSize s));
          lia.
      * destruct H3 as [H3 H4]; [discriminate|]. split; [assumption|].
        rewrite H4, Hs, Hlen. cbn [length].
        destruct (Z.gtb_spec (Z.of_nat (length (undoStack s))) (stackSize s));
          destruct (Z.gtb_spec (Z.max (Z.of_nat (length (undoStack s))) 1)
                               (stackSize s));
          destruct (Z.gtb_spec (Z.of_nat (length (undoStack s)) + 1)
                               (stackSize s)); lia.
Qed.

(** X7. [undo()] right after an [execute] that returned undoes exactly
    the command just executed: it returns that command, [undoStack] is what
    [execute] had kept of the old one (all of it unless the oldest entry was
    evicted), and [redoStack] holds that one command only, whatever it held
    before the [execute]. *)
Theorem undo_after_execute fuel c needExecute now s s1 w :
  enabled s = true ->
  execute cmd_execute c needExecute now s = Ok tt s1 ->
  cmd_undo c (world s1) = Returns w ->
  exists s2,
    undo cmd_undo (S fuel) 1 s1 = Ok (Some c) s2 /\
    undoStack s2 =
      (if Z.of_nat (length (undoStack s)) >? stackSize s
       then shift (undoStack s) else undoStack s) /\
    redoStack s2 = [c] /\ world s2 = w.
Proof.
  intros He Hx Hw.
  pose proof (execute_outcome cmd_execute s c needExecute now) as Ho.
  rewrite Hx in Ho. destruct Ho as (Hu & Hr & _ & _ & He1 & _).
  unfold undoStack_after_execute in Hu.
  rewrite undo_one by congruence. unfold undo_once.
  rewrite Hu, pop_push, Hw. eexists. split; [reflexivity|].
  destruct (undone_fields c
              (if Z.of_nat (length (undoStack s)) >? stackSize s
               then shift (undoStack s) else undoStack s) w s1)
    as (U1 & U2 & U3 & _).
  rewrite note_undoStack, note_redoStack, note_world, U1, U2, U3, Hr.
  now repeat split.
Qed.

(** X8. The identity counter counts the [execute] calls: after a series of
    calls that all returned, [idCounter] has grown by the number of
    [execute] calls among them, and by nothing else; [undo], [redo],
    [jump], [dispose] and the setters leave it alone. *)
Theorem idCounter_counts_executes fuel ops s s' :
  perform_all cmd_execute cmd_undo fuel ops s = Ok tt s' ->
  idCounter s' = idCounter s + Z.of_nat (executes ops).
Proof.
  revert s. induction ops as [|op ops IH]; intros s H.
  - injection H as <-. simpl. lia.
  - cbn [perform_all] in H. unfold bind in H.
    destruct (perform cmd_execute cmd_undo fuel op s) as [[] s1| |] eqn:E;
      try discriminate.
    apply IH in H. rewrite H. cbn [executes].
    destruct (is_execute op) eqn:Hop.
    + destruct op; try discriminate. cbn [perform] in E.
      pose proof (execute_outcome cmd_execute s command needExecute now) as Ho.
      rewrite E in Ho. destruct Ho as (_ & _ & Hn & _). rewrite Hn. lia.
    + destruct (perform_keeps fuel op s s1 Hop) as (_ & Hn & _);
        [now rewrite E|]. rewrite Hn. lia.
Qed.

Lemma run_fresh_well_numbered s :
  run cmd_execute cmd_undo fresh_execute s -> well_numbered s.
Proof.
  induction 1 as [e n w|s fuel op s' _ IH Hf Ha].
  - apply well_numbered_new.
  - now apply (well_numbered_call cmd_execute cmd_undo s fuel op).
Qed.

Lemma increasing_ids_NoDup s (l : list CmdRef) :
  StronglySorted id_lt (stack_ids s l) -> NoDup l.
Proof.
  induction l as [|c l IH]; intros H; [constructor|].
  cbn [stack_ids map] in H. apply StronglySorted_cons in H as [Hc Hl].
  constructor; [|now apply IH].
  intros Hin. rewrite Forall_forall in Hc.
  specialize (Hc (cmd_id s c)).
  assert (Hm : cmd_id s c ∈ map (cmd_id s) l).
  { apply list_elem_of_In, in_map. now apply list_elem_of_In. }
  specialize (Hc Hm). unfold id_lt in Hc.
  destruct (cmd_id s c); [lia|contradiction].
Qed.

(** X9. In a session in which each [execute] is handed a command object
    that [undoStack] does not hold and returns, no command object is ever
    held twice: not twice on one stack, and not on both stacks at once. *)
Theorem no_command_held_twice s :
  run cmd_execute cmd_undo fresh_execute s ->
  NoDup (undoStack s ++ redoStack s).
Proof.
  intros Hrun. apply run_fresh_well_numbered in Hrun as (Hs & _).
  apply increasing_ids_NoDup in Hs. unfold chain in Hs.
  apply NoDup_app in Hs as (H1 & H2 & H3).
  apply NoDup_app. repeat split;
    [assumption| |now rewrite reverse_Permutation in H3].
  intros c Hc Hr. apply (H2 c Hc). now apply elem_of_reverse.
Qed.

(** X10. [dispose] always returns, empties both stacks and tells the host
    so ('stack:changed' with two empty stacks, then 'history:destroy'), but
    it does not reset the numbering: the engine can still be used, and the
    next [execute] starts a one-command [undoStack] whose command gets the
    id [idCounter + 1] of before the [dispose]. *)
Theorem dispose_keeps_the_numbering s c needExecute now :
  exists s1,
    @dispose World Exn s = Ok tt s1 /\
    undoStack s1 = [] /\ redoStack s1 = [] /\
    idCounter s1 = idCounter s /\ cmds s1 = cmds s /\ world s1 = world s /\
    emitted s1 =
      emitted s ++ (if app s then [StackChanged [] []; HistoryDestroy] else []) /\
    match execute cmd_execute c needExecute now s1 with
    | Ok _ s2 | Throw _ s2 =>
        undoStack s2 = [c] /\ cmd_id s2 c = Some (idCounter s + 1)
    | Timeout => False
    end.
Proof.
  eexists. split; [reflexivity|].
  rewrite !note_undoStack, !note_redoStack, !note_idCounter, !note_cmds,
    !note_world, !note_emitted, !note_app.
  cbn [undoStack redoStack idCounter cmds world emitted app
       set_undoStack set_redoStack].
  repeat split.
  - destruct (app s); [|now rewrite !app_nil_r]. now rewrite <- app_assoc.
  - match goal with
    | |- match execute _ _ _ _ ?s1 with _ => _ end => set (sd := s1)
    end.
    assert (Hu : undoStack sd = []) by (unfold sd; now rewrite !note_undoStack).
    assert (Hn : idCounter sd = idCounter s)
      by (unfold sd; now rewrite !note_idCounter).
    clearbody sd.
    pose proof (execute_outcome cmd_execute sd c needExecute now) as Ho.
    destruct (execute cmd_execute c needExecute now sd) as [[] s2|e s2|];
      [| |contradiction].
    + destruct Ho as (H1 & _ & _ & H2 & _).
      unfold undoStack_after_execute in H1. rewrite Hu in H1.
      rewrite H1, H2, Hn. split; [|reflexivity].
      now destruct (Z.of_nat (length []) >? _).
    + destruct Ho as (_ & _ & H1 & _ & _ & H2 & _).
      unfold undoStack_after_execute in H1. rewrite Hu in H1.
      rewrite H1, H2, Hn. split; [|reflexivity].
      now destruct (Z.of_nat (length []) >? _).
Qed.

(** *** Where [jump] ends *)

Lemma js_eq_true target k : js_eq target k = true <-> k = Some target.
Proof.
  destruct k as [k|]; simpl; [|easy]. rewrite Z.eqb_eq.
  split; [now intros ->|now intros [= ->]].
Qed.

Lemma js_eq_false target k : js_eq target k = false <-> k <> Some target.
Proof.
  rewrite <- js_eq_true. now destruct (js_eq target k).
Qed.

Lemma js_gt_true target k :
  js_gt target k = true <-> exists z, k = Some z /\ z < target.
Proof.
  destruct k as [k|]; simpl.
  - rewrite Z.gtb_ltb, Z.ltb_lt. split; [eauto|]. now intros (z & [= ->] & H).
  - split; [easy|]. now intros (z & H & _).
Qed.

(** The undo walk of [jump], when it returns. *)
Lemma jump_undo_loop_result fuel target s s' :
  enabled s = true -> (length (undoStack s) <= fuel)%nat ->
  jump_undo_loop cmd_undo fuel target s = Ok tt s' ->
  exists moved,
    undoStack s = undoStack s' ++ moved /\
    redoStack s' = redoStack s ++ reverse moved /\
    cmds s' = cmds s /\
    Forall (fun c => cmd_id s c <> Some target) moved /\
    (undoStack s' = [] \/
     exists c, top (undoStack s') = Some c /\ cmd_id s c = Some target).
Proof.
  revert s. induction fuel as [|fuel IH]; intros s He Hf H;
    rewrite jump_undo_loop_eq in H.
  all: destruct (snoc_cases (undoStack s)) as [Hu|(rest & c & Hu)].
  all: try (rewrite Hu, push_length in Hf; lia).
  all: rewrite Hu in H.
  - injection H as <-. exists []. rewrite !app_nil_r, Hu.
    repeat split; [constructor|now left].
  - injection H as <-. exists []. rewrite !app_nil_r, Hu.
    repeat split; [constructor|now left].
  - rewrite top_push in H.
    destruct (js_eq target (cmd_id s c)) eqn:Hj.
    + injection H as <-. exists []. rewrite !app_nil_r.
      repeat split; [constructor|].
      right. exists c. rewrite Hu, top_push. split; [reflexivity|].
      now apply js_eq_true.
    + unfold bind in H. rewrite undo_one in H by assumption.
      unfold undo_once in H. rewrite Hu, pop_push in H.
      destruct (cmd_undo c (world s)) as [w|e w]; [|discriminate].
      set (s1 := note (HistoryUndo 0 (Some c)) (undone c rest w s)) in *.
      destruct (undone_fields c rest w s)
        as (U1 & U2 & U3 & U4 & U5 & U6 & _).
      assert (Hc : cmds s1 = cmds s) by (unfold s1; now rewrite note_cmds).
      assert (He1 : enabled s1 = true)
        by (unfold s1; now rewrite note_enabled, U4).
      assert (Hu1 : undoStack s1 = rest)
        by (unfold s1; now rewrite note_undoStack).
      assert (Hr1 : redoStack s1 = push c (redoStack s))
        by (unfold s1; now rewrite note_redoStack).
      apply IH in H as (moved & M1 & M2 & M3 & M4 & M5);
        [|assumption|rewrite Hu1; rewrite Hu, push_length in Hf; lia].
      exists (moved ++ [c]). rewrite Hu1 in M1. rewrite Hr1 in M2.
      repeat split.
      * rewrite Hu. unfold push. rewrite M1. now rewrite <- app_assoc.
      * rewrite M2, reverse_app. unfold push. simpl. now rewrite <- app_assoc.
      * congruence.
      * apply Forall_app. split.
        -- eapply Forall_impl; [exact M4|]. intros x Hx.
           now rewrite <- (cmd_id_cmds _ _ _ Hc).
        -- repeat constructor. now apply js_eq_false.
      * destruct M5 as [M5|(c' & T1 & T2)]; [now left|right].
        exists c'. split; [assumption|]. now rewrite <- (cmd_id_cmds _ _ _ Hc).
Qed.

(** The redo walk of [jump], when it returns. *)
Lemma jump_redo_walk_result fuel target s s' :
  enabled s = true -> (length (redoStack s) <= fuel)%nat ->
  match redo_once cmd_execute s with
  | Ok command s1 => jump_redo_loop cmd_execute fuel target command s1
  | Throw e s1 => Throw e s1
  | Timeout => Timeout
  end = Ok tt s' ->
  exists moved,
    redoStack s = redoStack s' ++ moved /\
    undoStack s' = undoStack s ++ reverse moved /\
    cmds s' = cmds s /\
    (moved = [] -> redoStack s = []) /\
    Forall (fun c => exists z, cmd_id s c = Some z /\ z < target) (tail moved) /\
    (redoStack s' = [] \/
     exists c, head moved = Some c /\ js_gt target (cmd_id s c) = false).
Proof.
  revert s. induction fuel as [|fuel IH]; intros s He Hf H.
  all: destruct (snoc_cases (redoStack s)) as [Hr|(rest & c & Hr)].
  all: try (rewrite Hr, push_length in Hf; lia).
  all: unfold redo_once in H; rewrite Hr in H.
  - rewrite pop_nil, jump_redo_loop_None in H. injection H as <-.
    exists []. rewrite note_redoStack, note_undoStack, note_cmds, !app_nil_r, Hr.
    repeat split; [constructor|now left].
  - rewrite pop_nil, jump_redo_loop_None in H. injection H as <-.
    exists []. rewrite note_redoStack, note_undoStack, note_cmds, !app_nil_r, Hr.
    repeat split; [constructor|now left].
  - rewrite pop_push in H.
    destruct (cmd_execute c (world s)) as [w|e w]; [|discriminate].
    set (s1 := note (HistoryRedo (Some c) 0) (redone c rest w s)) in *.
    destruct (redone_fields c rest w s)
      as (R1 & R2 & R3 & R4 & R5 & R6 & _).
    assert (Hc : cmds s1 = cmds s) by (unfold s1; now rewrite note_cmds).
    assert (He1 : enabled s1 = true)
      by (unfold s1; now rewrite note_enabled, R4).
    assert (Hr1 : redoStack s1 = rest)
      by (unfold s1; now rewrite note_redoStack).
    assert (Hu1 : undoStack s1 = push c (undoStack s))
      by (unfold s1; now rewrite note_undoStack).
    rewrite jump_redo_loop_Some, (cmd_id_cmds _ _ _ Hc) in H.
    destruct (js_gt target (cmd_id s c)) eqn:Hj.
    + unfold bind in H. rewrite redo_one in H by assumption.
      apply IH in H as (moved & M1 & M2 & M3 & M4 & M5 & M6);
        [|assumption|rewrite Hr1; rewrite Hr, push_length in Hf; lia].
      rewrite Hr1 in M1, M4. rewrite Hu1 in M2.
      exists (moved ++ [c]). repeat split.
      * rewrite Hr. unfold push. rewrite M1. now rewrite <- app_assoc.
      * rewrite M2, reverse_app. unfold push. simpl. now rewrite <- app_assoc.
      * congruence.
      * intros Hm. now destruct moved.
      * destruct moved as [|m moved]; [constructor|].
        cbn [app tail] in *. apply Forall_app. split.
        -- eapply Forall_impl; [exact M5|]. intros x Hx.
           now rewrite <- (cmd_id_cmds _ _ _ Hc).
        -- repeat constructor. now apply js_gt_true.
      * destruct moved as [|m moved].
        -- left. rewrite app_nil_r in M1. rewrite <- M1. exact (M4 eq_refl).
        -- destruct M6 as [M6|(c' & T1 & T2)]; [now left|right].
           exists c'. split; [assumption|].
           now rewrite <- (cmd_id_cmds _ _ _ Hc).
    + injection H as <-. exists [c].
      rewrite Hr1, Hu1.
      split; [now rewrite Hr|]. split; [reflexivity|]. split; [assumption|].
      split; [discriminate|]. split; [constructor|].
      right. exists c. now split.
Qed.

Lemma jump_backward_eq fuel target s c :
  enabled s = true -> top (undoStack s) = Some c ->
  js_gt target (cmd_id s c) = false ->
  jump cmd_execute cmd_undo fuel target s =
  bind (jump_undo_loop cmd_undo fuel target) (fun _ => emit_stack_changed) s.
Proof.
  intros He Ht Hj. unfold jump. rewrite bind_get, He. cbn [negb].
  apply top_Some in Ht as Hu. destruct Hu as (rest & Hu).
  rewrite Hu, nonempty_push, <- Hu, Ht, Hj. reflexivity.
Qed.

Lemma jump_forward_eq fuel target s :
  enabled s = true ->
  match top (undoStack s) with
  | Some c => js_gt target (cmd_id s c) = true
  | None => True
  end ->
  jump cmd_execute cmd_undo fuel target s =
  bind (fun s => match redo_once cmd_execute s with
                 | Ok command s1 => jump_redo_loop cmd_execute fuel target command s1
                 | Throw e s1 => Throw e s1
                 | Timeout => Timeout
                 end)
       (fun _ => emit_stack_changed) s.
Proof.
  intros He Ht. unfold jump. rewrite bind_get, He. cbn [negb].
  assert (Hredo :
    bind (redo cmd_execute (S fuel) 1) (jump_redo_loop cmd_execute fuel target) s =
    match redo_once cmd_execute s with
    | Ok command s1 => jump_redo_loop cmd_execute fuel target command s1
    | Throw e s1 => Throw e s1
    | Timeout => Timeout
    end).
  { unfold bind. now rewrite redo_one by assumption. }
  apply bind_at.
  destruct (snoc_cases (undoStack s)) as [Hu|(rest & c & Hu)].
  - rewrite Hu. exact Hredo.
  - rewrite Hu, top_push in Ht. rewrite Hu, nonempty_push, top_push, Ht.
    exact Hredo.
Qed.

(** Jumping backward: the top command's id is not below the target. *)
Lemma jump_backward_walk fuel target s c s' :
  enabled s = true ->
  (length (undoStack s) + length (redoStack s) <= fuel)%nat ->
  top (undoStack s) = Some c -> js_gt target (cmd_id s c) = false ->
  jump cmd_execute cmd_undo fuel target s = Ok tt s' ->
  exists moved,
    undoStack s = undoStack s' ++ moved /\
    redoStack s' = redoStack s ++ reverse moved /\
    cmds s' = cmds s /\
    Forall (fun c => cmd_id s c <> Some target) moved /\
    (undoStack s' = [] \/
     exists c', top (undoStack s') = Some c' /\ cmd_id s c' = Some target).
Proof.
  intros He Hf Ht Hj H.
  rewrite (jump_backward_eq fuel target s c He Ht Hj) in H.
  unfold bind in H.
  destruct (jump_undo_loop cmd_undo fuel target s) as [[] s1| |] eqn:E;
    try discriminate.
  injection H as <-.
  apply jump_undo_loop_result in E as (moved & M); [|assumption|lia].
  exists moved. now rewrite note_undoStack, note_redoStack, note_cmds.
Qed.

(** Jumping forward: [undoStack] is empty or its top id is below the target. *)
Lemma jump_forward_walk fuel target s s' :
  enabled s = true ->
  (length (undoStack s) + length (redoStack s) <= fuel)%nat ->
  match top (undoStack s) with
  | Some c => js_gt target (cmd_id s c) = true
  | None => True
  end ->
  jump cmd_execute cmd_undo fuel target s = Ok tt s' ->
  exists moved,
    redoStack s = redoStack s' ++ moved /\
    undoStack s' = undoStack s ++ reverse moved /\
    cmds s' = cmds s /\
    (moved = [] -> redoStack s = []) /\
    Forall (fun c => exists z, cmd_id s c = Some z /\ z < target) (tail moved) /\
    (redoStack s' = [] \/
     exists c, head moved = Some c /\ js_gt target (cmd_id s c) = false).
Proof.
  intros He Hf Ht H.
  rewrite (jump_forward_eq fuel target s He Ht) in H.
  unfold bind in H.
  match type of H with
  | match ?m with _ => _ end = _ => destruct m as [[] s1| |] eqn:E
  end; try discriminate.
  injection H as <-.
  apply jump_redo_walk_result in E as (moved & M); [|assumption|lia].
  exists moved. now rewrite note_undoStack, note_redoStack, note_cmds.
Qed.

(** X11. A [jump] that returns only moves the cut between the two
    stacks: read from the oldest applied command to the newest undone one,
    the commands are the same and in the same order as before, and no
    command object has been written to. With the engine disabled nothing
    moves at all. *)
Theorem jump_only_moves_the_cut fuel target s s' :
  (length (undoStack s) + length (redoStack s) <= fuel)%nat ->
  jump cmd_execute cmd_undo fuel target s = Ok tt s' ->
  chain s' = chain s /\ cmds s' = cmds s /\
  (enabled s = false -> s' = s).
Proof.
  intros Hf H. destruct (enabled s) eqn:He.
  - assert (Hc : chain s' = chain s /\ cmds s' = cmds s);
      [|now destruct Hc; repeat split].
    destruct (top (undoStack s)) as [c|] eqn:Ht;
      [destruct (js_gt target (cmd_id s c)) eqn:Hj|].
    + destruct (jump_forward_walk fuel target s s' He Hf) as (moved & M1 & M2 & M3 & _);
        [now rewrite Ht|assumption|].
      split; [|assumption]. unfold chain.
      rewrite M2, M1, reverse_app. now rewrite <- app_assoc.
    + destruct (jump_backward_walk fuel target s c s' He Hf Ht Hj H)
        as (moved & M1 & M2 & M3 & _).
      split; [|assumption]. unfold chain.
      rewrite M2, reverse_app, reverse_involutive, M1.
      now rewrite <- app_assoc.
    + destruct (jump_forward_walk fuel target s s' He Hf) as (moved & M1 & M2 & M3 & _);
        [now rewrite Ht|assumption|].
      split; [|assumption]. unfold chain.
      rewrite M2, M1, reverse_app. now rewrite <- app_assoc.
  - rewrite (jump_disabled cmd_execute cmd_undo fuel target s He) in H.
    injection H as <-. now repeat split.
Qed.

Lemma id_lt_irrefl a : ~ id_lt a a.
Proof. destruct a; simpl; lia. Qed.

Lemma elem_of_stack_ids s (l : list CmdRef) x :
  x ∈ l -> cmd_id s x ∈ stack_ids s l.
Proof. intros H. apply list_elem_of_In, in_map. now apply list_elem_of_In. Qed.

(** Along an increasing list, what comes later has the greater id. *)
Lemma sorted_ids_later s (l1 l2 : list CmdRef) x y :
  StronglySorted id_lt (stack_ids s (l1 ++ x :: l2)) ->
  y ∈ l2 -> id_lt (cmd_id s x) (cmd_id s y).
Proof.
  unfold stack_ids. rewrite map_app. cbn [map]. intros H Hy.
  apply StronglySorted_app_1_r, StronglySorted_cons in H as [H _].
  rewrite Forall_forall in H. apply H. now apply elem_of_stack_ids.
Qed.

Lemma sorted_ids_earlier s (l1 l2 : list CmdRef) x y :
  StronglySorted id_lt (stack_ids s (l1 ++ x :: l2)) ->
  y ∈ l1 -> id_lt (cmd_id s y) (cmd_id s x).
Proof.
  unfold stack_ids. rewrite map_app. cbn [map]. intros H Hy.
  apply StronglySorted_app in H as (H & _ & _).
  apply H; [now apply elem_of_stack_ids|]. apply list_elem_of_here.
Qed.

Lemma sorted_ids_inj s (l : list CmdRef) x y :
  StronglySorted id_lt (stack_ids s l) ->
  x ∈ l -> y ∈ l -> cmd_id s x = cmd_id s y -> x = y.
Proof.
  intros H Hx Hy He.
  apply list_elem_of_split in Hx as (l1 & l2 & ->).
  apply elem_of_app in Hy as [Hy|Hy].
  - apply (sorted_ids_earlier s l1 l2 x y H) in Hy.
    rewrite He in Hy. now apply id_lt_irrefl in Hy.
  - apply elem_of_cons in Hy as [->|Hy]; [reflexivity|].
    apply (sorted_ids_later s l1 l2 x y H) in Hy.
    rewrite He in Hy. now apply id_lt_irrefl in Hy.
Qed.

Lemma id_lt_Some_l a z : id_lt a (Some z) -> exists k, a = Some k /\ k < z.
Proof. destruct a as [k|]; simpl; [eauto|contradiction]. Qed.

Lemma id_lt_Some_r z b : id_lt (Some z) b -> exists k, b = Some k /\ z < k.
Proof. destruct b as [k|]; simpl; [eauto|contradiction]. Qed.

Lemma jump_lands_well_numbered fuel target s c s' :
  well_numbered s -> enabled s = true ->
  (length (undoStack s) + length (redoStack s) <= fuel)%nat ->
  c ∈ undoStack s ++ redoStack s -> cmd_id s c = Some target ->
  jump cmd_execute cmd_undo fuel target s = Ok tt s' ->
  top (undoStack s') = Some c /\ chain s' = chain s.
Proof.
  intros (Hs & _ & _) He Hf Hc Hid H.
  apply elem_of_app in Hc as [Hc|Hc].
  - (* the target is on undoStack: the walk goes backward *)
    destruct (snoc_cases (undoStack s)) as [Hu|(rest & t & Hu)];
      [rewrite Hu in Hc; now apply elem_of_nil in Hc|].
    assert (Hj : js_gt target (cmd_id s t) = false).
    { rewrite Hu in Hc. apply elem_of_app in Hc as [Hc|Hc].
      - apply list_elem_of_split in Hc as (r1 & r2 & ->).
        assert (Hlt : id_lt (cmd_id s c) (cmd_id s t)).
        { apply (sorted_ids_later s r1 (r2 ++ [t] ++ reverse (redoStack s)));
            [|rewrite !elem_of_app, list_elem_of_singleton; tauto].
          unfold chain in Hs. rewrite Hu in Hs. unfold push in Hs.
          now rewrite <- !app_assoc in Hs. }
        rewrite Hid in Hlt. apply id_lt_Some_r in Hlt as (k & -> & Hk).
        simpl. lia.
      - apply list_elem_of_singleton in Hc as ->. rewrite Hid. simpl. lia. }
    assert (Ht : top (undoStack s) = Some t) by (rewrite Hu; apply top_push).
    destruct (jump_backward_walk fuel target s t s' He Hf Ht Hj H)
      as (moved & M1 & M2 & M3 & M4 & M5).
    assert (Hin : c ∈ undoStack s').
    { rewrite M1 in Hc. apply elem_of_app in Hc as [Hc|Hc]; [assumption|].
      rewrite Forall_forall in M4. now destruct (M4 c Hc). }
    split.
    + destruct M5 as [M5|(c' & T1 & T2)];
        [rewrite M5 in Hin; now apply elem_of_nil in Hin|].
      rewrite T1. f_equal.
      apply (sorted_ids_inj s (chain s)); [assumption| | |congruence].
      * apply top_Some in T1 as (l' & T1). unfold chain.
        rewrite M1, T1. unfold push.
        rewrite !elem_of_app, list_elem_of_singleton. tauto.
      * unfold chain. rewrite M1, !elem_of_app. tauto.
    + unfold chain.
      rewrite M2, reverse_app, reverse_involutive, M1.
      now rewrite <- app_assoc.
  - (* the target is on redoStack: the walk goes forward *)
    assert (Ht : match top (undoStack s) with
                 | Some t => js_gt target (cmd_id s t) = true
                 | None => True
                 end).
    { destruct (snoc_cases (undoStack s)) as [Hu|(rest & t & Hu)];
        rewrite Hu; [exact I|].
      rewrite top_push. apply js_gt_true.
      assert (Hlt : id_lt (cmd_id s t) (cmd_id s c)).
      { apply (sorted_ids_later s rest (reverse (redoStack s)));
          [|now apply elem_of_reverse].
        unfold chain in Hs. rewrite Hu in Hs. unfold push in Hs.
        now rewrite <- app_assoc in Hs. }
      rewrite Hid in Hlt. now apply id_lt_Some_l in Hlt. }
    destruct (jump_forward_walk fuel target s s' He Hf Ht H)
      as (moved & M1 & M2 & M3 & M4 & M5 & M6).
    destruct moved as [|h tl].
    { rewrite (M4 eq_refl) in Hc. now apply elem_of_nil in Hc. }
    split.
    + rewrite M1 in Hc.
      rewrite elem_of_app, elem_of_cons in Hc. destruct Hc as [Hc|[->|Hc]].
      * destruct M6 as [M6|(h' & T1 & T2)];
          [rewrite M6 in Hc; now apply elem_of_nil in Hc|].
        injection T1 as <-.
        assert (Hlt : id_lt (cmd_id s h) (cmd_id s c)).
        { apply (sorted_ids_later s (undoStack s ++ reverse tl)
                   (reverse (redoStack s'))); [|now apply elem_of_reverse].
          unfold chain in Hs. rewrite M1, reverse_app, reverse_cons in Hs.
          rewrite <- !app_assoc in Hs. rewrite <- app_assoc. exact Hs. }
        rewrite Hid in Hlt. apply id_lt_Some_l in Hlt as (k & Hk & Hlt).
        rewrite Hk in T2. simpl in T2. lia.
      * rewrite M2, reverse_cons, app_assoc. apply top_push.
      * cbn [tail] in M5. rewrite Forall_forall in M5.
        destruct (M5 c Hc) as (z & Hz & Hlt). rewrite Hid in Hz.
        injection Hz as <-. lia.
    + unfold chain. rewrite M2, M1, reverse_app. now rewrite <- app_assoc.
Qed.

(** X12. Jumping to a command that is there lands on it. In a session in
    which each [execute] is handed a command object that [undoStack] does
    not hold and returns, a [jump(id)] that returns, where [id] is the id of
    a command on either stack, ends with that very command on top of
    [undoStack]; the commands of both stacks, read in the order they were
    applied, are the same as before, only the cut between the stacks has
    moved. *)
Theorem jump_lands_on_target fuel target s c s' :
  run cmd_execute cmd_undo fresh_execute s ->
  enabled s = true ->
  (length (undoStack s) + length (redoStack s) <= fuel)%nat ->
  c ∈ undoStack s ++ redoStack s -> cmd_id s c = Some target ->
  jump cmd_execute cmd_undo fuel target s = Ok tt s' ->
  top (undoStack s') = Some c /\ chain s' = chain s.
Proof.
  intros Hrun. apply jump_lands_well_numbered.
  now apply run_fresh_well_numbered.
Qed.

(** X13. Jumping to an id that is not there undoes everything. If the top
    command's id is not below [targetId] but no command on [undoStack] has
    the id [targetId] (it was evicted, or it lies between two ids), a
    [jump(targetId)] that returns leaves [undoStack] empty and all its
    commands on [redoStack], the oldest on top. *)
Theorem jump_to_missing_id_undoes_all fuel target s c s' :
  enabled s = true ->
  (length (undoStack s) + length (redoStack s) <= fuel)%nat ->
  top (undoStack s) = Some c -> js_gt target (cmd_id s c) = false ->
  (forall c', c' ∈ undoStack s -> cmd_id s c' <> Some target) ->
  jump cmd_execute cmd_undo fuel target s = Ok tt s' ->
  undoStack s' = [] /\
  redoStack s' = redoStack s ++ reverse (undoStack s).
Proof.
  intros He Hf Ht Hj Hno H.
  destruct (jump_backward_walk fuel target s c s' He Hf Ht Hj H)
    as (moved & M1 & M2 & M3 & M4 & M5).
  assert (Hu : undoStack s' = []).
  { destruct M5 as [M5|(c' & T1 & T2)]; [assumption|].
    apply top_Some in T1 as (l' & T1).
    destruct (Hno c'); [|assumption].
    rewrite M1, T1. unfold push. rewrite !elem_of_app, list_elem_of_singleton.
    tauto. }
  split; [assumption|]. rewrite M2, M1, Hu. reflexivity.
Qed.

(** X14. Jumping past the newest command redoes everything. If every
    command on either stack has an id below [targetId], a [jump(targetId)]
    that returns leaves [redoStack] empty and all its commands back on
    [undoStack], in the order they were first applied. *)
Theorem jump_past_the_end_redoes_all fuel target s s' :
  enabled s = true ->
  (length (undoStack s) + length (redoStack s) <= fuel)%nat ->
  (forall c, c ∈ undoStack s ++ redoStack s ->
             exists z, cmd_id s c = Some z /\ z < target) ->
  jump cmd_execute cmd_undo fuel target s = Ok tt s' ->
  redoStack s' = [] /\
  undoStack s' = undoStack s ++ reverse (redoStack s).
Proof.
  intros He Hf Hall H.
  assert (Ht : match top (undoStack s) with
               | Some t => js_gt target (cmd_id s t) = true
               | None => True
               end).
  { destruct (top (undoStack s)) as [t|] eqn:Et; [|exact I].
    apply js_gt_true, Hall. apply top_Some in Et as (l' & ->).
    unfold push. rewrite !elem_of_app, list_elem_of_singleton. tauto. }
  destruct (jump_forward_walk fuel target s s' He Hf Ht H)
    as (moved & M1 & M2 & M3 & M4 & M5 & M6).
  assert (Hr : redoStack s' = []).
  { destruct M6 as [M6|(h & T1 & T2)]; [assumption|].
    destruct (Hall h) as (z & Hz & Hlt).
    - rewrite M1. destruct moved; [discriminate|]. injection T1 as ->.
      rewrite !elem_of_app, elem_of_cons. tauto.
    - rewrite Hz in T2. simpl in T2. lia. }
  split; [assumption|]. rewrite M2, M1, Hr. reflexivity.
Qed.

(** *** What no call touches *)

(** X15. [execute], [undo], [redo], [jump] and [dispose] never write the
    capacity, the gate or the host, and never take back a notification:
    whatever was sent to the host before the call is still the beginning of
    what has been sent after it. This holds also for a call that ends by a
    command raising. *)
Theorem calls_keep_the_settings fuel op s s' :
  is_setter op = false ->
  after (perform cmd_execute cmd_undo fuel op s) = Some s' ->
  stackSize s' = stackSize s /\ enabled s' = enabled s /\ app s' = app s /\
  emitted s `prefix_of` emitted s'.
Proof.
  intros Hop. revert s s'. change (Along settings_kept (perform cmd_execute cmd_undo fuel op)).
  destruct op; try discriminate; cbn [perform].
  - apply settings_execute.
  - apply along_bind; [apply settings_kept_trans|apply settings_undo|].
    intros _. apply along_ret, settings_kept_refl.
  - apply along_bind; [apply settings_kept_trans|apply settings_redo|].
    intros _. apply along_ret, settings_kept_refl.
  - apply settings_jump.
  - apply settings_dispose.
Qed.

(** A series of calls without [setStackSize] that all returned extends a
    session of fixed capacity. *)
Lemma run_capacity_fixed fuel ops s s' :
  run cmd_execute cmd_undo capacity_fixed s ->
  forallb (fun op => negb (is_setStackSize op)) ops = true ->
  perform_all cmd_execute cmd_undo fuel ops s = Ok tt s' ->
  run cmd_execute cmd_undo capacity_fixed s'.
Proof.
  revert s. induction ops as [|op ops IH]; intros s Hr Hn H.
  - now injection H as <-.
  - cbn [perform_all] in H. unfold bind in H.
    cbn [forallb] in Hn. apply andb_true_iff in Hn as [Hop Hn].
    destruct (perform cmd_execute cmd_undo fuel op s) as [[] s1| |] eqn:E;
      try discriminate.
    apply (IH s1); [|assumption|assumption].
    apply (run_call _ _ _ s fuel op); [assumption| |now rewrite E].
    rewrite E. now destruct op.
Qed.

End Sessions.

(** ** The selection service *)

Section SelectorFacts.
Import Selector.
Context {Key : Type} `{EqDecision Key}.
Variable child_id : Child -> Key.

Abbreviation SState := (@Selector.State Key).

Implicit Types (s : SState) (m : list (Key * Child)) (k : Key) (c : Child)
  (children : list Child).

Set Default Proof Using "Type".

Lemma filter_none {A} (P : A -> Prop) `{forall x, Decision (P x)} (l : list A) :
  Forall (fun x => ~ P x) l -> filter P l = [].
Proof.
  induction 1 as [|x l Hx _ IH]; [reflexivity|].
  now rewrite filter_cons_False.
Qed.

Lemma map_get_Some k c m : map_get k m = Some c -> (k, c) ∈ m.
Proof.
  induction m as [|[k' v] m IH]; simpl; [easy|].
  destruct (decide (k' = k)) as [->|Hne].
  - intros [= ->]. apply list_elem_of_here.
  - intros H1. apply list_elem_of_further. now apply IH.
Qed.

Lemma map_get_None k m : map_get k m = None <-> k ∉ m.*1.
Proof.
    clear child_id.
  induction m as [|[k' v] m IH]; simpl.
  - split; [intros _; apply not_elem_of_nil|easy].
  - rewrite not_elem_of_cons. destruct (decide (k' = k)) as [->|Hne].
    + split; [easy|]. now intros [? _].
    + rewrite IH. split; [intros ?; split; [congruence|assumption]|tauto].
Qed.

Lemma map_get_elem k c m : NoDup m.*1 -> (k, c) ∈ m -> map_get k m = Some c.
Proof.
  induction m as [|[k' v] m IH]; simpl; intros Hn Hin.
  - now apply elem_of_nil in Hin.
  - apply NoDup_cons in Hn as [Hk Hn].
    apply elem_of_cons in Hin as [[= <- <-]|Hin].
    + now rewrite decide_True.
    + rewrite decide_False; [now apply IH|].
      intros ->. apply Hk. apply list_elem_of_fmap. now exists (k, c).
Qed.

Lemma map_get_filter (ks : list Key) k m :
  map_get k (filter (fun e => e.1 ∉ ks) m) =
  if decide (k ∈ ks) then None else map_get k m.
Proof.
  induction m as [|[k' v] m IH]; [now destruct (decide _)|].
  rewrite filter_cons. cbn [fst].
  destruct (decide (k' ∉ ks)) as [Hk|Hk]; cbn [map_get]; rewrite ?IH;
    destruct (decide (k' = k)) as [->|Hne]; try reflexivity;
    destruct (decide (k ∈ ks)); try reflexivity; contradiction.
Qed.

Lemma map_set_get k v k' m :
  map_get k' (map_set k v m) = if decide (k = k') then Some v else map_get k' m.
Proof.
  induction m as [|[k0 v0] m IH]; simpl.
  - destruct (decide (k = k')); reflexivity.
  - destruct (decide (k0 = k)) as [->|Hne]; simpl.
    + destruct (decide (k = k')); reflexivity.
    + destruct (decide (k0 = k')) as [->|Hne'].
      * now rewrite decide_False by congruence.
      * exact IH.
Qed.

Lemma map_set_elem k v k' c' m :
  (k', c') ∈ map_set k v m -> (k', c') = (k, v) \/ (k', c') ∈ m.
Proof.
  induction m as [|[k0 v0] m IH]; simpl.
  - intros Hin. left. now apply list_elem_of_singleton in Hin.
  - destruct (decide (k0 = k)) as [->|Hne]; intros Hin;
      apply elem_of_cons in Hin as [Hin|Hin].
    + now left.
    + right. now apply list_elem_of_further.
    + right. rewrite Hin. apply list_elem_of_here.
    + destruct (IH Hin); [now left|right]. now apply list_elem_of_further.
Qed.

Lemma map_set_keys k v m : NoDup m.*1 -> NoDup (map_set k v m).*1.
Proof.
  induction m as [|[k0 v0] m IH]; simpl; intros Hn.
  - repeat constructor. apply not_elem_of_nil.
  - apply NoDup_cons in Hn as [Hk Hn].
    destruct (decide (k0 = k)) as [->|Hne]; cbn [fmap list_fmap fst].
    + now constructor.
    + constructor; [|now apply IH].
      intros Hin. apply list_elem_of_fmap in Hin as ([k1 c1] & Hk1 & Hin).
      cbn in Hk1. subst k1.
      apply map_set_elem in Hin as [[= ? ?]|Hin]; [congruence|].
      apply Hk. apply list_elem_of_fmap. now exists (k0, c1).
Qed.

(** [children.forEach(child => child.draggable(b))] *)
Lemma fold_draggable b children s :
  let s' := foldl (fun s child => set_draggable child b s) s children in
  selected s' = selected s /\ enable s' = enable s /\
  rubberEnable s' = rubberEnable s /\ nodes s' = nodes s /\
  forall c, draggable s' !! c =
            if decide (c ∈ children) then Some b else draggable s !! c.
Proof.
    clear child_id.
  revert s. induction children as [|c0 children IH]; intros s; cbn [foldl].
  - repeat split.
  - destruct (IH (set_draggable c0 b s)) as (H1 & H2 & H3 & H4 & H5).
    repeat split; try assumption.
    intros c. rewrite H5. cbn [draggable set_draggable].
    destruct (decide (c ∈ children)) as [Hin|Hin].
    + rewrite decide_True; [reflexivity|]. now apply list_elem_of_further.
    + destruct (decide (c = c0)) as [->|Hne].
      * rewrite lookup_insert_eq, decide_True; [reflexivity|].
        apply list_elem_of_here.
      * rewrite lookup_insert_ne by congruence.
        rewrite decide_False; [reflexivity|].
        rewrite not_elem_of_cons. tauto.
Qed.

(** [removed.forEach(id => this.selected.delete(id))] *)
Lemma fold_delete (ks : list Key) s :
  let s' := foldl (fun s k => set_selected (map_delete k (selected s)) s) s ks in
  selected s' = filter (fun e => e.1 ∉ ks) (selected s) /\
  enable s' = enable s /\ rubberEnable s' = rubberEnable s /\
  nodes s' = nodes s /\ draggable s' = draggable s.
Proof.
  revert s. induction ks as [|k ks IH]; intros s; cbn [foldl].
  - repeat split. symmetry. induction (selected s) as [|e m IHm]; [reflexivity|].
    rewrite filter_cons_True; [now rewrite IHm|]. apply not_elem_of_nil.
  - destruct (IH (set_selected (map_delete k (selected s)) s))
      as (H1 & H2 & H3 & H4 & H5).
    repeat split; try assumption.
    rewrite H1. cbn [selected set_selected]. unfold map_delete.
    rewrite list_filter_filter. apply list_filter_iff.
    intros e. rewrite not_elem_of_cons. split; [intros [? ?]|intros [? ?]];
      split; congruence.
Qed.

(** [children.forEach(child => { child.draggable(true);
    this.selected.set(child.id(), child) })] *)
Lemma fold_select children s :
  let s' :=
    foldl (fun s child =>
             set_selected (map_set (child_id child) child (selected s))
                          (set_draggable child true s)) s children in
  enable s' = enable s /\ rubberEnable s' = rubberEnable s /\
  nodes s' = nodes s /\
  (forall c, draggable s' !! c =
             if decide (c ∈ children) then Some true else draggable s !! c) /\
  (forall k, map_get k (selected s') =
             from_option Some (map_get k (selected s))
                         (last_with_id child_id k children)) /\
  (NoDup (selected s).*1 -> NoDup (selected s').*1) /\
  (forall k c, (k, c) ∈ selected s' ->
               (k, c) ∈ selected s \/ (k = child_id c /\ c ∈ children)).
Proof.
  revert s. induction children as [|c0 children IH]; intros s; cbn [foldl].
  - repeat split; auto.
  - destruct (IH (set_selected (map_set (child_id c0) c0 (selected s))
                    (set_draggable c0 true s)))
      as (H1 & H2 & H3 & H4 & H5 & H6 & H7).
    cbn [selected enable rubberEnable nodes draggable set_selected set_draggable]
      in *.
    split; [assumption|]. split; [assumption|]. split; [assumption|].
    split; [|split; [|split]].
    + intros c. rewrite H4.
      destruct (decide (c ∈ children)) as [Hin|Hin].
      * rewrite decide_True; [reflexivity|]. now apply list_elem_of_further.
      * destruct (decide (c = c0)) as [->|Hne].
        -- rewrite lookup_insert_eq, decide_True; [reflexivity|].
           apply list_elem_of_here.
        -- rewrite lookup_insert_ne by congruence.
           rewrite decide_False; [reflexivity|].
           rewrite not_elem_of_cons. tauto.
    + intros k. rewrite H5, map_set_get. unfold last_with_id.
      rewrite filter_cons.
      destruct (decide (child_id c0 = k)) as [Hk|Hk].
      * rewrite last_cons. now destruct (last (filter _ children)).
      * reflexivity.
    + intros Hn. apply H6. now apply map_set_keys.
    + intros k c Hin. destruct (H7 k c Hin) as [Hin'|[Hk Hc]].
      * apply map_set_elem in Hin' as [[= -> ->]|Hin']; [right|now left].
        split; [reflexivity|apply list_elem_of_here].
      * right. split; [assumption|now apply list_elem_of_further].
Qed.

(** What [cancelSelect] does, whatever it is given. [dropped] is the list
    it works through: the children it was given, or all the selected ones
    if it was given none. *)
Lemma cancelSelect_result children s :
  let dropped :=
    if (length children =? 0)%nat then map_values (selected s) else children in
  let s' := cancelSelect child_id children s in
  selected s' = filter (fun e => e.1 ∉ child_id <$> dropped) (selected s) /\
  nodes s' = map_values (selected s') /\
  enable s' = enable s /\ rubberEnable s' = rubberEnable s /\
  forall c, draggable s' !! c =
            if decide (c ∈ dropped) then Some false else draggable s !! c.
Proof.
  intros dropped s'. unfold s', cancelSelect. fold dropped.
  destruct (fold_draggable false dropped s) as (D1 & D2 & D3 & D4 & D5).
  destruct (fold_delete (child_id <$> dropped)
              (foldl (fun s child => set_draggable child false s) s dropped))
    as (F1 & F2 & F3 & F4 & F5).
  cbn [selected nodes enable rubberEnable draggable set_nodes].
  rewrite F1, F2, F3, F5, D1, D2, D3. repeat split. exact D5.
Qed.

(** X16. [cancelSelect(children)] with at least one child takes out of the
    selection every entry filed under the id of one of the children, keeps
    the other entries in their order, gives the transformer exactly the
    children still selected, and sets [draggable] to false on the children
    it was given and on no other. So none of the children given is selected
    afterwards; a selected child that merely shares its id with one of them
    is dropped from the selection too, but keeps its draggable flag. *)
Theorem cancelSelect_drops_by_id children s :
  children <> [] ->
  let s' := cancelSelect child_id children s in
  selected s' = filter (fun e => e.1 ∉ child_id <$> children) (selected s) /\
  nodes s' = map_values (selected s') /\
  (forall c, draggable s' !! c =
             if decide (c ∈ children) then Some false else draggable s !! c) /\
  (forall c, c ∈ children -> isSelected child_id c s' = false) /\
  enable s' = enable s /\ rubberEnable s' = rubberEnable s.
Proof.
  intros Hne s'.
  destruct (cancelSelect_result children s) as (H1 & H2 & H3 & H4 & H5).
  fold s' in H1, H2, H3, H4, H5.
  assert (Hl : (length children =? 0)%nat = false) by now destruct children.
  rewrite Hl in H1, H5.
  repeat split; try assumption.
  intros c Hc. unfold isSelected, map_has. rewrite H1, map_get_filter.
  rewrite decide_True; [reflexivity|]. now apply list_elem_of_fmap_2.
Qed.

Lemma consistent_keys s k c :
  consistent child_id s -> (k, c) ∈ selected s -> k = child_id c.
Proof. intros (_ & H0) Hin. now apply H0. Qed.

(** [cancelSelect()] with no argument, on a consistent selection. *)
Lemma cancelSelect_all_result s :
  consistent child_id s ->
  let s' := cancelSelect child_id [] s in
  selected s' = [] /\ nodes s' = [] /\
  (forall c, draggable s' !! c =
             if decide (c ∈ map_values (selected s)) then Some false
             else draggable s !! c) /\
  enable s' = enable s /\ rubberEnable s' = rubberEnable s.
Proof.
  intros Hc s'.
  destruct (cancelSelect_result [] s) as (H1 & H2 & H3 & H4 & H5).
  fold s' in H1, H2, H3, H4, H5. cbn [length Nat.eqb] in H1, H5.
  assert (He : selected s' = []).
  { rewrite H1. apply filter_none. apply Forall_forall. intros [k c] Hin Hk.
    apply Hk. cbn [fst]. rewrite (consistent_keys s k c Hc Hin).
    apply list_elem_of_fmap_2. unfold map_values.
    apply list_elem_of_fmap. now exists (k, c). }
  rewrite He in H2. now repeat split.
Qed.

Lemma cancelSelect_consistent children s :
  consistent child_id s -> consistent child_id (cancelSelect child_id children s).
Proof.
  intros Hc. pose proof Hc as (Hn & He).
  destruct (cancelSelect_result children s) as (H1 & H2 & H3 & H4 & H5).
  cbv zeta in H1, H2, H5.
  set (dropped := if (length children =? 0)%nat
                  then map_values (selected s) else children) in *.
  split.
  - rewrite H1. refine (sublist_NoDup _ _ Hn _).
    apply fmap_sublist, sublist_filter.
  - intros k c Hin. rewrite H1 in Hin.
    apply list_elem_of_filter in Hin as [Hk Hin]. cbn [fst] in Hk.
    destruct (He k c Hin) as (E1 & E2 & E3).
    split; [assumption|]. split.
    + rewrite H5. rewrite decide_False; [assumption|].
      intros Hd. apply Hk. rewrite E1. now apply list_elem_of_fmap_2.
    + rewrite H2, H1. unfold map_values. apply list_elem_of_fmap.
      exists (k, c). split; [reflexivity|].
      apply list_elem_of_filter. now split.
Qed.

(** [select(children)] on an enabled selector with a consistent selection. *)
Lemma select_result children s :
  consistent child_id s -> enable s = true ->
  let s' := select child_id children s in
  (forall k, map_get k (selected s') = last_with_id child_id k children) /\
  (forall c, isSelected child_id c s' = true <->
             child_id c ∈ child_id <$> children) /\
  nodes s' = children /\
  (forall c, c ∈ children -> draggable s' !! c = Some true) /\
  (forall c, c ∈ map_values (selected s) -> c ∉ children ->
             draggable s' !! c = Some false).
Proof.
  intros Hc He s'. unfold s', select. rewrite He. cbn [negb].
  destruct (cancelSelect_all_result s Hc) as (C1 & C2 & C3 & C4 & C5).
  cbv zeta in C1, C2, C3, C4, C5.
  destruct (fold_select children (cancelSelect child_id [] s))
    as (F1 & F2 & F3 & F4 & F5 & F6 & F7).
  cbv zeta in F1, F2, F3, F4, F5, F6, F7.
  cbn [selected nodes draggable set_nodes].
  assert (Hget : forall k,
    map_get k (selected
      (foldl (fun s child =>
                set_selected (map_set (child_id child) child (selected s))
                             (set_draggable child true s))
             (cancelSelect child_id [] s) children)) =
    last_with_id child_id k children).
  { intros k. rewrite F5, C1. cbn [map_get].
    now destruct (last_with_id child_id k children). }
  split; [exact Hget|]. split; [|split; [reflexivity|split]].
  - intros c. unfold isSelected, map_has. rewrite Hget. unfold last_with_id.
    split.
    + destruct (last (filter _ children)) as [d|] eqn:El; [intros _|discriminate].
      apply last_Some_elem_of, list_elem_of_filter in El as [E1 E2].
      rewrite <- E1. now apply list_elem_of_fmap_2.
    + intros Hin. apply list_elem_of_fmap in Hin as (d & Hd & Hin).
      destruct (last (filter (fun c0 => child_id c0 = child_id c) children))
        eqn:El; [reflexivity|].
      apply last_None in El.
      destruct (filter_nil_not_elem_of _ children d El); [congruence|assumption].
  - intros c Hin. rewrite F4. now rewrite decide_True.
  - intros c Hin Hout. rewrite F4, decide_False by assumption.
    rewrite C3. now rewrite decide_True.
Qed.

Lemma select_consistent children s :
  consistent child_id s -> consistent child_id (select child_id children s).
Proof.
  intros Hc. unfold select. destruct (enable s); cbn [negb]; [|assumption].
  destruct (cancelSelect_all_result s Hc) as (C1 & _).
  cbv zeta in C1.
  destruct (fold_select children (cancelSelect child_id [] s))
    as (F1 & F2 & F3 & F4 & F5 & F6 & F7).
  cbv zeta in F1, F2, F3, F4, F5, F6, F7.
  split; cbn [selected nodes draggable set_nodes].
  - apply F6. rewrite C1. constructor.
  - intros k c Hin. apply F7 in Hin as [Hin|[Hk Hin]].
    + rewrite C1 in Hin. now apply elem_of_nil in Hin.
    + split; [assumption|]. split; [|assumption].
      rewrite F4. now rewrite decide_True.
Qed.

Lemma triggerSelector_fields e s :
  selected (triggerSelector e s) = selected s /\
  nodes (triggerSelector e s) = nodes s /\
  draggable (triggerSelector e s) = draggable s.
Proof.
  unfold triggerSelector.
  destruct e as [[]|]; cbn [enable set_enable negb];
    try destruct (enable s); now repeat split.
Qed.

Lemma new_Selector_consistent : consistent child_id new_Selector.
Proof.
  split; [constructor|]. intros k c Hin. now apply elem_of_nil in Hin.
Qed.

Lemma perform_all_consistent (ops : list (@Selector.Call)) s :
  consistent child_id s -> consistent child_id (perform_all child_id ops s).
Proof.
  unfold perform_all. revert s.
  induction ops as [|op ops IH]; intros s Hc; [exact Hc|].
  cbn [foldl]. apply IH. destruct op; cbn [perform].
  - now apply select_consistent.
  - now apply cancelSelect_consistent.
  - destruct (triggerSelector_fields enable0 s) as (T1 & T2 & T3).
    unfold consistent. rewrite T1, T2, T3. exact Hc.
Qed.

(** X17. [cancelSelect()] with no argument, in whatever state the service
    has got into from its constructor by calls of [select], [cancelSelect]
    and [triggerSelector], empties the selection and the transformer and
    sets [draggable] to false on every child that was selected, and on no
    other. It does so whether the selector is enabled or not. *)
Theorem cancelSelect_all (ops : list (@Selector.Call)) :
  let s := perform_all child_id ops new_Selector in
  let s' := cancelSelect child_id [] s in
  selected s' = [] /\ nodes s' = [] /\
  (forall c, isSelected child_id c s' = false) /\
  (forall c, draggable s' !! c =
             if decide (c ∈ map_values (selected s)) then Some false
             else draggable s !! c) /\
  enable s' = enable s /\ rubberEnable s' = rubberEnable s.
Proof.
  intros s s'.
  destruct (cancelSelect_all_result s) as (C1 & C2 & C3 & C4 & C5);
    [apply perform_all_consistent, new_Selector_consistent|].
  fold s' in C1, C2, C3, C4, C5.
  repeat split; try assumption.
  intros c. unfold isSelected. now rewrite C1.
Qed.

(** X18. [select(children)] on an enabled selector, in whatever state the
    service has got into from its constructor by calls of [select],
    [cancelSelect] and [triggerSelector], replaces the selection:
    afterwards the entry filed under an id is the last of the children
    given that has this id (and none if no child has it), the transformer
    holds the children given, all of them are draggable, and every child
    that was selected before and is not among them has been made
    non-draggable. *)
Theorem select_replaces_the_selection (ops : list (@Selector.Call)) children :
  let s := perform_all child_id ops new_Selector in
  enable s = true ->
  let s' := select child_id children s in
  (forall k, map_get k (selected s') = last_with_id child_id k children) /\
  (forall c, isSelected child_id c s' = true <->
             child_id c ∈ child_id <$> children) /\
  nodes s' = children /\
  (forall c, c ∈ children -> draggable s' !! c = Some true) /\
  (forall c, c ∈ map_values (selected s) -> c ∉ children ->
             draggable s' !! c = Some false).
Proof.
  intros s He. apply select_result; [|exact He].
  apply perform_all_consistent, new_Selector_consistent.
Qed.

(** X19. In every state the service gets into from its constructor by
    calls of [select], [cancelSelect] and [triggerSelector], each selected
    child is filed under its own id, no id is filed twice, each selected
    child is draggable and among the transformer's nodes, and [isSelected]
    holds of it. *)
Theorem selection_is_consistent (ops : list (@Selector.Call)) :
  let s := perform_all child_id ops new_Selector in
  consistent child_id s /\
  (forall c, c ∈ map_values (selected s) -> isSelected child_id c s = true).
Proof.
  intros s.
  assert (Hc : consistent child_id s)
    by apply perform_all_consistent, new_Selector_consistent.
  split; [exact Hc|].
  intros c Hin. unfold map_values in Hin.
  apply list_elem_of_fmap in Hin as ([k c'] & -> & Hin). cbn [snd].
  rewrite (consistent_keys s k c' Hc Hin) in Hin.
  unfold isSelected, map_has.
  destruct (map_get (child_id c') (selected s)) eqn:E; [reflexivity|].
  apply map_get_None in E. exfalso. apply E.
  apply list_elem_of_fmap. now exists (child_id c', c').
Qed.

(** X20. Switching the selector off does not deselect anything: after
    [triggerSelector(false)] the selection, the transformer's nodes and the
    draggable flags are as before and the rubber band is off; from then on
    no series of [select] calls changes anything, whatever they are given.
    Toggling twice brings [enable] back. *)
Theorem disabled_selector_keeps_the_selection s (picks : list (list Child)) :
  let off := triggerSelector (Some false) s in
  selected off = selected s /\ nodes off = nodes s /\
  draggable off = draggable s /\
  enable off = false /\ rubberEnable off = false /\
  perform_all child_id (CallSelect <$> picks) off = off /\
  enable (triggerSelector None (triggerSelector None s)) = enable s.
Proof.
  intros off.
  assert (He : enable off = false) by reflexivity.
  repeat split.
  - unfold perform_all. induction picks as [|children picks IH]; [reflexivity|].
    cbn [fmap list_fmap foldl perform].
    replace (select child_id children off) with off; [exact IH|].
    unfold select. now rewrite He.
  - unfold triggerSelector.
    cbn [enable set_enable set_rubberEnable negb].
    now destruct (enable s).
Qed.

End SelectorFacts.

(** ** Areas *)

Section AreaFacts.
Import Area.
Context {Num : Type}.
Variable add : Num -> Num -> Num.
Variable leb : Num -> Num -> bool.
Hypothesis leb_trans :
  forall a b c, leb a b = true -> leb b c = true -> leb a c = true.

Lemma haveIntersection_true (r1 r2 : @Rect Num) :
  haveIntersection add leb r1 r2 = true <->
  leb (x r1) (x r2) = true /\ leb (y r1) (y r2) = true /\
  leb (add (x r2) (width r2)) (add (x r1) (width r1)) = true /\
  leb (add (y r2) (height r2)) (add (y r1) (height r1)) = true.
Proof using Type.
  unfold haveIntersection. cbv zeta. rewrite !andb_true_iff. tauto.
Qed.

(** X21. What [haveIntersection(shape1, shape2)] accepts is containment,
    not overlap: if it holds, every point that [isPointInArea] places in the
    rectangle of [shape2] is also in the rectangle of [shape1]. *)
Theorem haveIntersection_is_containment (r1 r2 : @Rect Num) (p : @Point Num) :
  haveIntersection add leb r1 r2 = true ->
  isPointInArea add leb p r2 = true ->
  isPointInArea add leb p r1 = true.
Proof using leb_trans.
  rewrite haveIntersection_true. unfold isPointInArea.
  rewrite !andb_true_iff. intros (H1 & H2 & H3 & H4) (((P1 & P2) & P3) & P4).
  repeat split; eauto.
Qed.

(** X22. [haveIntersection] is transitive: a shape inside a shape that is
    inside a third one is inside the third. *)
Theorem haveIntersection_transitive (r1 r2 r3 : @Rect Num) :
  haveIntersection add leb r1 r2 = true ->
  haveIntersection add leb r2 r3 = true ->
  haveIntersection add leb r1 r3 = true.
Proof using leb_trans.
  rewrite !haveIntersection_true.
  intros (H1 & H2 & H3 & H4) (G1 & G2 & G3 & G4). repeat split; eauto.
Qed.

End AreaFacts.

(** ** The further properties on the small scenes *)

Ltac members H :=
  vm_compute in H;
  repeat (apply elem_of_cons in H as [->|H]);
  try (now apply elem_of_nil in H).

(** [redo(2)] from [undoStack = [A, B]], [redoStack = [D, C]]. *)
Lemma redo_moves_witness :
  exists moved evs,
    redoStack Demo.halfway = redoStack Demo.back ++ moved /\
    undoStack Demo.back = undoStack Demo.halfway ++ reverse moved /\
    (length moved <=
       Nat.min (Z.to_nat 2) (length (redoStack Demo.halfway)))%nat /\
    (2 <= max_exact_step ->
     length moved = Nat.min (Z.to_nat 2) (length (redoStack Demo.halfway))) /\
    Some 4%nat = head moved /\
    cmds Demo.back = cmds Demo.halfway /\
    forallb is_StackChanged evs = true /\
    emitted Demo.back =
      emitted Demo.halfway ++ evs ++ [HistoryRedo (Some 4%nat) 0].
Proof.
  apply (redo_moves Demo.cmd_execute 8 2 Demo.halfway (Some 4%nat) Demo.back);
    [reflexivity | reflexivity | lia | simpl; lia | vm_compute; reflexivity].
Defined.

(** [undo(2)] then [redo(2)] with A, B, C, D applied. *)
Lemma undo_then_redo_round_trip_witness :
  undoStack Demo.back = undoStack Demo.applied /\
  redoStack Demo.back = redoStack Demo.applied /\
  cmds Demo.back = cmds Demo.applied.
Proof.
  apply (undo_then_redo_round_trip Demo.cmd_execute Demo.cmd_undo 8 2
           Demo.applied (Some 3%nat) Demo.halfway (Some 4%nat) Demo.back);
    [lia | simpl; lia | vm_compute; lia
    | vm_compute; reflexivity | vm_compute; reflexivity].
Defined.

(** [redo(2)] then [undo(2)] with D and C undone. *)
Lemma redo_then_undo_round_trip_witness :
  undoStack Demo.back_and_forth = undoStack Demo.halfway /\
  redoStack Demo.back_and_forth = redoStack Demo.halfway /\
  cmds Demo.back_and_forth = cmds Demo.halfway.
Proof.
  apply (redo_then_undo_round_trip Demo.cmd_execute Demo.cmd_undo 8 2
           Demo.halfway (Some 4%nat) Demo.back (Some 3%nat) Demo.back_and_forth);
    [lia | simpl; lia | vm_compute; lia
    | vm_compute; reflexivity | vm_compute; reflexivity].
Defined.

(** [undo(2)] and [redo(2)] on a new engine. *)
Lemma undo_redo_on_empty_stack_witness :
  (canUndo Demo.fresh = false ->
   undo Demo.cmd_undo 8 2 Demo.fresh =
     Ok None (note (HistoryUndo 0 None) Demo.fresh)) /\
  (canRedo Demo.fresh = false ->
   redo Demo.cmd_execute 8 2 Demo.fresh =
     Ok None (note (HistoryRedo None 0) Demo.fresh)).
Proof.
  apply (undo_redo_on_empty_stack Demo.cmd_execute Demo.cmd_undo 8 2 Demo.fresh);
    [reflexivity | unfold max_exact_step; lia | simpl; lia].
Defined.

(** The longer session on capacity 3. *)
Lemma stacks_hold_at_most_capacity_plus_one_witness :
  Z.of_nat (length (undoStack (Demo.state_after Demo.session Demo.fresh)) +
            length (redoStack (Demo.state_after Demo.session Demo.fresh)))
    <= Z.max 1 (stackSize (Demo.state_after Demo.session Demo.fresh) + 1).
Proof.
  apply (stacks_hold_at_most_capacity_plus_one Demo.cmd_execute Demo.cmd_undo).
  apply (run_capacity_fixed Demo.cmd_execute Demo.cmd_undo 8 Demo.session Demo.fresh);
    [apply run_new | reflexivity | vm_compute; reflexivity].
Defined.

(** Six commands on a new engine of capacity 3. *)
Lemma executes_keep_the_newest_witness :
  undoStack Demo.six_applied `suffix_of` undoStack Demo.fresh ++ Demo.six /\
  stackSize Demo.six_applied = stackSize Demo.fresh /\
  (Demo.six <> [] ->
   redoStack Demo.six_applied = [] /\
   Z.of_nat (length (undoStack Demo.six_applied)) =
     if Z.of_nat (length (undoStack Demo.fresh)) >? stackSize Demo.fresh
     then Z.max (Z.of_nat (length (undoStack Demo.fresh))) 1
     else Z.min (Z.of_nat (length (undoStack Demo.fresh)) +
                 Z.of_nat (length Demo.six))
                (stackSize Demo.fresh + 1)).
Proof.
  apply (executes_keep_the_newest Demo.cmd_execute Demo.cmd_undo 8 true 0
           Demo.six Demo.fresh Demo.six_applied).
  vm_compute. reflexivity.
Defined.

(** A ninth command applied with D and C undone, then [undo()]. *)
Lemma undo_after_execute_witness :
  exists s2,
    undo Demo.cmd_undo 1 1 Demo.branched = Ok (Some 9%nat) s2 /\
    undoStack s2 =
      (if Z.of_nat (length (undoStack Demo.halfway)) >? stackSize Demo.halfway
       then shift (undoStack Demo.halfway) else undoStack Demo.halfway) /\
    redoStack s2 = [9%nat] /\ world s2 = 3.
Proof.
  apply (undo_after_execute Demo.cmd_execute Demo.cmd_undo 0 9%nat true 0
           Demo.halfway Demo.branched 3);
    [reflexivity | vm_compute; reflexivity | vm_compute; reflexivity].
Defined.

(** The longer session has five [execute] calls in it. *)
Lemma idCounter_counts_executes_witness :
  idCounter (Demo.state_after Demo.session Demo.fresh) =
    idCounter Demo.fresh + Z.of_nat (executes Demo.session).
Proof.
  apply (idCounter_counts_executes Demo.cmd_execute Demo.cmd_undo 8
           Demo.session Demo.fresh (Demo.state_after Demo.session Demo.fresh)).
  vm_compute. reflexivity.
Defined.

(** The longer session hands every command to [execute] once. *)
Lemma no_command_held_twice_witness :
  NoDup (undoStack (Demo.state_after Demo.session Demo.fresh) ++
         redoStack (Demo.state_after Demo.session Demo.fresh)).
Proof.
  apply (no_command_held_twice Demo.cmd_execute Demo.cmd_undo).
  apply (run_checked_run Demo.cmd_execute Demo.cmd_undo 8 Demo.session Demo.fresh);
    [apply run_new | vm_compute; reflexivity].
Defined.

(** [jump(4)] from [undoStack = [A, B]], [redoStack = [D, C]]. *)
Lemma jump_only_moves_the_cut_witness :
  chain Demo.landed = chain Demo.halfway /\
  cmds Demo.landed = cmds Demo.halfway /\
  (enabled Demo.halfway = false -> Demo.landed = Demo.halfway).
Proof.
  apply (jump_only_moves_the_cut Demo.cmd_execute Demo.cmd_undo 8 4
           Demo.halfway Demo.landed);
    [vm_compute; lia | vm_compute; reflexivity].
Defined.

(** [jump(4)] lands on D. *)
Lemma jump_lands_on_target_witness :
  top (undoStack Demo.landed) = Some 4%nat /\
  chain Demo.landed = chain Demo.halfway.
Proof.
  apply (jump_lands_on_target Demo.cmd_execute Demo.cmd_undo 8 4
           Demo.halfway 4%nat Demo.landed).
  - apply (run_checked_run Demo.cmd_execute Demo.cmd_undo 8
             (Demo.abcd ++ [CallUndo 2]) Demo.fresh);
      [apply run_new | vm_compute; reflexivity].
  - reflexivity.
  - vm_compute. lia.
  - vm_compute. repeat constructor.
  - vm_compute. reflexivity.
  - vm_compute. reflexivity.
Defined.

(** [jump(1)] after six commands on capacity 3: the command with id 1 has
    been evicted. *)
Lemma jump_to_missing_id_undoes_all_witness :
  undoStack Demo.six_undone = [] /\
  redoStack Demo.six_undone =
    redoStack Demo.six_applied ++ reverse (undoStack Demo.six_applied).
Proof.
  apply (jump_to_missing_id_undoes_all Demo.cmd_execute Demo.cmd_undo 8 1
           Demo.six_applied 6%nat Demo.six_undone).
  - reflexivity.
  - vm_compute. lia.
  - vm_compute. reflexivity.
  - vm_compute. reflexivity.
  - intros c' Hc. members Hc; vm_compute; discriminate.
  - vm_compute. reflexivity.
Defined.

(** [jump(100)] from [undoStack = [A, B]], [redoStack = [D, C]]. *)
Lemma jump_past_the_end_redoes_all_witness :
  redoStack Demo.far = [] /\
  undoStack Demo.far = undoStack Demo.halfway ++ reverse (redoStack Demo.halfway).
Proof.
  apply (jump_past_the_end_redoes_all Demo.cmd_execute Demo.cmd_undo 8 100
           Demo.halfway Demo.far).
  - reflexivity.
  - vm_compute. lia.
  - intros c Hc. members Hc; eexists; (split; [vm_compute; reflexivity | lia]).
  - vm_compute. reflexivity.
Defined.

(** [undo(2)] with A, B, C, D applied. *)
Lemma calls_keep_the_settings_witness :
  stackSize Demo.halfway = stackSize Demo.applied /\
  enabled Demo.halfway = enabled Demo.applied /\
  app Demo.halfway = app Demo.applied /\
  emitted Demo.applied `prefix_of` emitted Demo.halfway.
Proof.
  apply (calls_keep_the_settings Demo.cmd_execute Demo.cmd_undo 8 (CallUndo 2)
           Demo.applied Demo.halfway);
    [reflexivity | vm_compute; reflexivity].
Defined.

(** Child 1 is taken out of a selection that holds 11 under the same id. *)
Lemma cancelSelect_drops_by_id_witness :
  Selector.selected
    (Selector.cancelSelect SelectorDemo.child_id [1%nat] SelectorDemo.some_selected) =
    filter (fun e => e.1 ∉ SelectorDemo.child_id <$> [1%nat])
           (Selector.selected SelectorDemo.some_selected) /\
  Selector.nodes
    (Selector.cancelSelect SelectorDemo.child_id [1%nat] SelectorDemo.some_selected) =
    Selector.map_values
      (Selector.selected
         (Selector.cancelSelect SelectorDemo.child_id [1%nat]
            SelectorDemo.some_selected)) /\
  (forall c,
     Selector.draggable
       (Selector.cancelSelect SelectorDemo.child_id [1%nat]
          SelectorDemo.some_selected) !! c =
     if decide (c ∈ [1%nat]) then Some false
     else Selector.draggable SelectorDemo.some_selected !! c) /\
  (forall c, c ∈ [1%nat] ->
     Selector.isSelected SelectorDemo.child_id c
       (Selector.cancelSelect SelectorDemo.child_id [1%nat]
          SelectorDemo.some_selected) = false) /\
  Selector.enable
    (Selector.cancelSelect SelectorDemo.child_id [1%nat] SelectorDemo.some_selected) =
    Selector.enable SelectorDemo.some_selected /\
  Selector.rubberEnable
    (Selector.cancelSelect SelectorDemo.child_id [1%nat] SelectorDemo.some_selected) =
    Selector.rubberEnable SelectorDemo.some_selected.
Proof.
  apply (cancelSelect_drops_by_id SelectorDemo.child_id [1%nat]
           SelectorDemo.some_selected).
  discriminate.
Defined.

(** Children 3 and 13 are selected in place of 1, 2 and 11. *)
Lemma select_replaces_the_selection_witness :
  (forall k,
     Selector.map_get k
       (Selector.selected
          (Selector.select SelectorDemo.child_id [3; 13]%nat
             SelectorDemo.some_selected)) =
     Selector.last_with_id SelectorDemo.child_id k [3; 13]%nat) /\
  (forall c,
     Selector.isSelected SelectorDemo.child_id c
       (Selector.select SelectorDemo.child_id [3; 13]%nat
          SelectorDemo.some_selected) = true <->
     SelectorDemo.child_id c ∈ SelectorDemo.child_id <$> [3; 13]%nat) /\
  Selector.nodes
    (Selector.select SelectorDemo.child_id [3; 13]%nat SelectorDemo.some_selected) =
    [3; 13]%nat /\
  (forall c, c ∈ [3; 13]%nat ->
     Selector.draggable
       (Selector.select SelectorDemo.child_id [3; 13]%nat
          SelectorDemo.some_selected) !! c = Some true) /\
  (forall c,
     c ∈ Selector.map_values (Selector.selected SelectorDemo.some_selected) ->
     c ∉ [3; 13]%nat ->
     Selector.draggable
       (Selector.select SelectorDemo.child_id [3; 13]%nat
          SelectorDemo.some_selected) !! c = Some false).
Proof.
  apply (select_replaces_the_selection SelectorDemo.child_id SelectorDemo.picked
           [3; 13]%nat).
  reflexivity.
Defined.

Lemma Z_leb_trans (a b c : Z) :
  (a <=? b) = true -> (b <=? c) = true -> (a <=? c) = true.
Proof. rewrite !Z.leb_le. lia. Qed.

(** A point of the button is a point of the panel. *)
Lemma haveIntersection_is_containment_witness :
  Area.isPointInArea Z.add Z.leb AreaDemo.corner AreaDemo.panel = true.
Proof.
  apply (haveIntersection_is_containment Z.add Z.leb Z_leb_trans
           AreaDemo.panel AreaDemo.button AreaDemo.corner);
    reflexivity.
Defined.

(** The button is in the panel and the panel is on the stage. *)
Lemma haveIntersection_transitive_witness :
  Area.haveIntersection Z.add Z.leb AreaDemo.stage AreaDemo.button = true.
Proof.
  apply (haveIntersection_transitive Z.add Z.leb Z_leb_trans
           AreaDemo.stage AreaDemo.panel AreaDemo.button);
    reflexivity.
Defined.
